(** * Cubie-level Rubik's cube of [cube.cpp]: move engine and coordinates

    A shallow embedding of [src/src/cube.cpp].  A C++ [int] is an integer of
    [Z]; a [std::vector<int>] is a [list Z]; [operator[]] outside the bounds
    of a vector is undefined behaviour and is the [None] of the option monad;
    [/] and [%] truncate towards zero ([Z.quot] and [Z.rem]).  Overflow of
    [int] is not modelled: on the cubes reached from the solved one no
    intermediate value reaches 300000.

    The constants of [cube.h] (move, corner, edge, twist and flip
    identifiers) are the fields of the class [Header]; what is assumed of
    them is the record [header_ok]. *)

From Stdlib Require Import ZArith Lia Factorial.
From stdpp Require Import base option numbers sorting list sets.

Open Scope Z_scope.

(** ** Vectors of [int] *)

Abbreviation vec := (list Z).

(** [v[i]] as an rvalue. *)
Definition vget (v : vec) (i : Z) : option Z :=
  if decide (0 ≤ i) then v !! Z.to_nat i else None.

(** [v[i] = x]. *)
Definition vset (v : vec) (i x : Z) : option vec :=
  if decide (0 ≤ i < Z.of_nat (length v)) then Some (<[Z.to_nat i := x]> v)
  else None.

(** [for (int ii = ...; ...; ++ii) body], the indices visited given as a list. *)
Fixpoint for_loop {S : Type} (body : Z → S → option S) (iis : list Z) (s : S)
  : option S :=
  match iis with
  | [] => Some s
  | ii :: rest => s' ← body ii s; for_loop body rest s'
  end.

(** ** The constants of [cube.h] *)

(** [cube.h] is not among the sources: its constants are parameters of the
    development. *)
Class Header := {
  MOVE_U : Z; MOVE_U2 : Z; MOVE_UP : Z;
  MOVE_L : Z; MOVE_L2 : Z; MOVE_LP : Z;
  MOVE_F : Z; MOVE_F2 : Z; MOVE_FP : Z;
  MOVE_R : Z; MOVE_R2 : Z; MOVE_RP : Z;
  MOVE_B : Z; MOVE_B2 : Z; MOVE_BP : Z;
  MOVE_D : Z; MOVE_D2 : Z; MOVE_DP : Z;
  CORNER_URF : Z; CORNER_UFL : Z; CORNER_ULB : Z; CORNER_UBR : Z;
  CORNER_DFR : Z; CORNER_DLF : Z; CORNER_DBL : Z; CORNER_DRB : Z;
  EDGE_UR : Z; EDGE_UF : Z; EDGE_UL : Z; EDGE_UB : Z;
  EDGE_DR : Z; EDGE_DF : Z; EDGE_DL : Z; EDGE_DB : Z;
  EDGE_FR : Z; EDGE_FL : Z; EDGE_BL : Z; EDGE_BR : Z;
  TWIST_NONE : Z; TWIST_CW : Z; TWIST_CCW : Z;
  FLIP_NONE : Z; FLIP_FLIP : Z
}.

(** Modelled from the spec: the values of the constants of [cube.h], which
    is missing, for the concrete evaluations.  The specification lists the 18
    moves in this order and makes the piece identifiers the indices of the
    vectors; the order of the pieces is the one of Kociemba's cubie level,
    and a counter-clockwise twist is stored as the residue 2. *)
Definition reference_header : Header := {|
  MOVE_U := 0; MOVE_U2 := 1; MOVE_UP := 2;
  MOVE_L := 3; MOVE_L2 := 4; MOVE_LP := 5;
  MOVE_F := 6; MOVE_F2 := 7; MOVE_FP := 8;
  MOVE_R := 9; MOVE_R2 := 10; MOVE_RP := 11;
  MOVE_B := 12; MOVE_B2 := 13; MOVE_BP := 14;
  MOVE_D := 15; MOVE_D2 := 16; MOVE_DP := 17;
  CORNER_URF := 0; CORNER_UFL := 1; CORNER_ULB := 2; CORNER_UBR := 3;
  CORNER_DFR := 4; CORNER_DLF := 5; CORNER_DBL := 6; CORNER_DRB := 7;
  EDGE_UR := 0; EDGE_UF := 1; EDGE_UL := 2; EDGE_UB := 3;
  EDGE_DR := 4; EDGE_DF := 5; EDGE_DL := 6; EDGE_DB := 7;
  EDGE_FR := 8; EDGE_FL := 9; EDGE_BL := 10; EDGE_BR := 11;
  TWIST_NONE := 0; TWIST_CW := 1; TWIST_CCW := 2;
  FLIP_NONE := 0; FLIP_FLIP := 1
|}.

(** ** The cube *)

Record Cube := mkCube {
  corner_permutation : vec;
  corner_orientation : vec;
  edge_permutation : vec;
  edge_orientation : vec
}.

(** [Cube::Cube()] *)
Definition solved : Cube :=
  mkCube [0; 1; 2; 3; 4; 5; 6; 7] [0; 0; 0; 0; 0; 0; 0; 0]
         [0; 1; 2; 3; 4; 5; 6; 7; 8; 9; 10; 11]
         [0; 0; 0; 0; 0; 0; 0; 0; 0; 0; 0; 0].

(** [binom]: the two product loops and the truncating division. *)
Definition binom (n k : Z) : Z :=
  let num := foldl (λ num ii, num * (n - ii)) 1 (seqZ 0 k) in
  let denom := foldl (λ denom ii, denom * ii) 1 (seqZ 2 (k - 1)) in
  num `quot` denom.

(** The shape shared by the two ranking loops ([coord_corner_permutation],
    and the second loop of [coord_slice_sorted]): [ii] runs from the last
    index down to 0, so the tail is ranked before its head; [counts y x] is
    the test on [v[jj]] (as [y]) and [v[ii]] (as [x]); the result is
    [(ret, factorial)]. *)
Fixpoint rank_loop (counts : Z → Z → bool) (v : vec) : Z * Z :=
  match v with
  | [] => (0, 1)
  | x :: rest =>
      let '(ret, factorial) := rank_loop counts rest in
      let count := Z.of_nat (length (filter (λ y, counts y x = true) rest)) in
      (ret + count * factorial, factorial * (Z.of_nat (length rest) + 1))
  end.

(** The [while (n-- > 0)] loop of [coord_slice_sorted]: [n] is the counter
    before the test, [k] the running second argument of [binom].  The
    counter starts at the size of the vector, so [edge_perm[n]] is always
    inside its bounds. *)
Fixpoint slice_scan (edge_perm edges : vec) (n : nat) (k pos_rank : Z)
    (order : vec) : Z * vec :=
  match n with
  | O => (pos_rank, order)
  | S n' =>
      let curr_edge := edge_perm !!! n' in
      if bool_decide (curr_edge ∈ edges)
      then slice_scan edge_perm edges n' (k - 1)
             (pos_rank + binom (Z.of_nat n') k) (order ++ [curr_edge])
      else slice_scan edge_perm edges n' k pos_rank order
  end.

(** The three meta-coordinate calculations. *)
Definition edge_permutation_calc (rl_sorted fb_sorted : Z) : Z :=
  24 * rl_sorted + fb_sorted `rem` 24.
Definition ud_unsorted_calc (ud_sorted : Z) : Z := ud_sorted `quot` 24.
Definition ud_permutation_calc (ud_sorted : Z) : Z := ud_sorted `rem` 24.

(** ** Normal coordinates *)

(** [coord_corner_orientation].  The bound [size() - 1] is unsigned: on an
    empty vector it wraps around and [corner_orientation[0]] is read out of
    bounds. *)
Definition coord_corner_orientation (c : Cube) : option Z :=
  let co := corner_orientation c in
  if decide (co = []) then None
  else for_loop (λ ii ret, o ← vget co ii; Some (3 * ret + o))
                (seqZ 0 (Z.of_nat (length co) - 1)) 0.

(** [coord_edge_orientation], the same loop in base 2. *)
Definition coord_edge_orientation (c : Cube) : option Z :=
  let eo := edge_orientation c in
  if decide (eo = []) then None
  else for_loop (λ ii ret, o ← vget eo ii; Some (2 * ret + o))
                (seqZ 0 (Z.of_nat (length eo) - 1)) 0.

(** [coord_corner_permutation]: counts the [jj > ii] with
    [corner_permutation[jj] < corner_permutation[ii]]. *)
Definition coord_corner_permutation (c : Cube) : Z :=
  fst (rank_loop (λ y x, bool_decide (y < x)) (corner_permutation c)).

(** [coord_slice_sorted]: the scan from the last position down, then the
    rank of [order], counting the [jj > ii] with [order[jj] > order[ii]]. *)
Definition coord_slice_sorted (c : Cube) (edges : vec) : Z :=
  let n := length (edge_permutation c) in
  let k := Z.of_nat (length edges) in
  let '(pos_rank, order) := slice_scan (edge_permutation c) edges n k 0 [] in
  let perm_rank := fst (rank_loop (λ y x, bool_decide (y > x)) order) in
  24 * pos_rank + perm_rank.

(** ** Predicates of the data model *)

(** Sum of the entries of a vector. *)
Definition vsum (v : vec) : Z := foldr Z.add 0 v.

(** Number of pairs of positions out of order, and the parity of a
    permutation as the parity of that number. *)
Fixpoint inversions (v : vec) : nat :=
  match v with
  | [] => 0%nat
  | x :: rest => Nat.add (length (filter (λ y, y < x) rest)) (inversions rest)
  end.

Definition parity (v : vec) : bool := Nat.odd (inversions v).

(** The shape of a cube state: 8 corners and 12 edges, twists in {0,1,2},
    flips in {0,1}. *)
Record well_formed (c : Cube) : Prop := {
  wf_cp : length (corner_permutation c) = 8%nat;
  wf_co : length (corner_orientation c) = 8%nat;
  wf_ep : length (edge_permutation c) = 12%nat;
  wf_eo : length (edge_orientation c) = 12%nat;
  wf_twists : Forall (λ o, 0 ≤ o < 3) (corner_orientation c);
  wf_flips : Forall (λ o, 0 ≤ o < 2) (edge_orientation c)
}.

(** The invariants of the states of a real cube. *)
Record cube_invariant (c : Cube) : Prop := {
  inv_cp : corner_permutation c ≡ₚ seqZ 0 8;
  inv_ep : edge_permutation c ≡ₚ seqZ 0 12;
  inv_co_length : length (corner_orientation c) = 8%nat;
  inv_eo_length : length (edge_orientation c) = 12%nat;
  inv_twist : vsum (corner_orientation c) `mod` 3 = 0;
  inv_flip : vsum (edge_orientation c) `mod` 2 = 0;
  inv_parity : parity (corner_permutation c) = parity (edge_permutation c)
}.

(** The local variables of [perform_move] next to the object it is called
    on: the loops read [this] and write the four [new_] vectors. *)
Record frame := mkFrame {
  this : Cube;
  new_corner_permutation : vec;
  new_corner_orientation : vec;
  new_edge_permutation : vec;
  new_edge_orientation : vec
}.

(** The four vectors set by the first [switch]. *)
Record tables := mkTables {
  corners_moved : vec;
  edges_moved : vec;
  corner_twist : vec;
  edge_flip : vec
}.

(** The inner loop [for (jj = 0; jj < turn_amt; ++jj) acc += delta[(ii + jj) % size]]. *)
Definition sum_delta (delta : vec) (size ii turn_amt : Z) : option Z :=
  for_loop (λ jj acc, d ← vget delta ((ii + jj) `rem` size); Some (acc + d))
           (seqZ 0 turn_amt) 0.

(** Body of the corner loop; [turn_amt] is [None] while uninitialised. *)
Definition corner_body (t : tables) (turn_amt : option Z) (ii : Z) (f : frame)
  : option frame :=
  let size := Z.of_nat (length (corners_moved t)) in
  from ← vget (corners_moved t) ii;
  amt ← turn_amt;
  to ← vget (corners_moved t) ((ii + amt) `rem` size);
  p ← vget (corner_permutation (this f)) from;
  ncp ← vset (new_corner_permutation f) to p;
  twist ← sum_delta (corner_twist t) size ii amt;
  o ← vget (corner_orientation (this f)) from;
  nco ← vset (new_corner_orientation f) to ((o + twist) `rem` 3);
  Some (mkFrame (this f) ncp nco
          (new_edge_permutation f) (new_edge_orientation f)).

(** Body of the edge loop. *)
Definition edge_body (t : tables) (turn_amt : option Z) (ii : Z) (f : frame)
  : option frame :=
  let size := Z.of_nat (length (edges_moved t)) in
  from ← vget (edges_moved t) ii;
  amt ← turn_amt;
  to ← vget (edges_moved t) ((ii + amt) `rem` size);
  p ← vget (edge_permutation (this f)) from;
  nep ← vset (new_edge_permutation f) to p;
  flip ← sum_delta (edge_flip t) size ii amt;
  o ← vget (edge_orientation (this f)) from;
  neo ← vset (new_edge_orientation f) to ((o + flip) `rem` 2);
  Some (mkFrame (this f) (new_corner_permutation f) (new_corner_orientation f)
          nep neo).

(** ** Closed form of the update loops *)

Inductive face := FaceU | FaceL | FaceF | FaceR | FaceB | FaceD.
Inductive turn := Clockwise | HalfTurn | CounterClockwise.

Definition turn_amt_of (t : turn) : Z :=
  match t with Clockwise => 1 | HalfTurn => 2 | CounterClockwise => 3 end.

Definition all_faces : list face := [FaceU; FaceL; FaceF; FaceR; FaceB; FaceD].
Definition all_turns : list turn := [Clockwise; HalfTurn; CounterClockwise].

(** What the permutation loop leaves in the written vector: the entry at
    place [k] of the cycle goes [amt] places further. *)
Definition cycle_perm (cycle : list nat) (amt : nat) (old : vec) : vec :=
  foldl (λ acc k, <[cycle !!! ((k + amt) `mod` 4)%nat := old !!! (cycle !!! k)]> acc)
        old [0; 1; 2; 3]%nat.

(** The twist or flip gathered on the way: [delta] summed over [amt] places
    from place [k]. *)
Definition delta_total (delta : vec) (amt k : nat) : Z :=
  foldl (λ acc jj, acc + delta !!! ((k + jj) `mod` 4)%nat) 0 (seq 0 amt).

(** What the orientation loop leaves in the written vector. *)
Definition cycle_orient (modulus : Z) (cycle : list nat) (delta : vec)
    (amt : nat) (old : vec) : vec :=
  foldl (λ acc k, <[cycle !!! ((k + amt) `mod` 4)%nat :=
                      (old !!! (cycle !!! k) + delta_total delta amt k) `rem` modulus]> acc)
        old [0; 1; 2; 3]%nat.

(** Exchange of the entries at two positions. *)
Definition swap (i j : nat) (v : vec) : vec :=
  <[j := v !!! i]> (<[i := v !!! j]> v).

(** Counting for the inversions: entries below and above a value, and
    the pairs out of order between two vectors. *)
Definition count_below (x : Z) (v : vec) : nat :=
  length (filter (λ y, y < x) v).
Definition count_above (x : Z) (v : vec) : nat :=
  length (filter (λ y, x < y) v).
Fixpoint cross (a b : vec) : nat :=
  match a with
  | [] => 0%nat
  | x :: a' => Nat.add (count_below x b) (cross a' b)
  end.

(** A cycle of four distinct positions of a vector of length [n], and a
    table of four non-negative deltas whose sum vanishes modulo [modulus]. *)
Definition cycle_ok (n : Z) (l : vec) : Prop :=
  ∃ c0 c1 c2 c3, l = [c0; c1; c2; c3] ∧
    (0 ≤ c0 < n ∧ 0 ≤ c1 < n ∧ 0 ≤ c2 < n ∧ 0 ≤ c3 < n) ∧
    (c0 ≠ c1 ∧ c0 ≠ c2 ∧ c0 ≠ c3 ∧ c1 ≠ c2 ∧ c1 ≠ c3 ∧ c2 ≠ c3).

Definition delta_ok (modulus : Z) (l : vec) : Prop :=
  ∃ d0 d1 d2 d3, l = [d0; d1; d2; d3] ∧
    (0 ≤ d0 ∧ 0 ≤ d1 ∧ 0 ≤ d2 ∧ 0 ≤ d3) ∧
    (d0 + d1 + d2 + d3) `mod` modulus = 0.

(** The sizes of the four vectors of a cube. *)
Definition sized (c : Cube) : Prop :=
  length (corner_permutation c) = 8%nat ∧
  length (corner_orientation c) = 8%nat ∧
  length (edge_permutation c) = 12%nat ∧
  length (edge_orientation c) = 12%nat.

(** The first loop of [coord_slice_sorted] on the vector of the answers of
    [std::find]: the position rank and the final [k]. *)
Fixpoint mask_scan (mask : list bool) (n : nat) (k pos_rank : Z) : Z * Z :=
  match n with
  | O => (pos_rank, k)
  | S n' =>
      if (mask !!! n' : bool)
      then mask_scan mask n' (k - 1) (pos_rank + binom (Z.of_nat n') k)
      else mask_scan mask n' k pos_rank
  end.

(** All vectors of answers of a given length. *)
Fixpoint masks (n : nat) : list (list bool) :=
  match n with
  | O => [[]]
  | S n' => ((λ m, true :: m) <$> masks n') ++ ((λ m, false :: m) <$> masks n')
  end.

(** The check run on every vector of 12 answers: with four edges of the
    slice the position rank is at most 494, and at most 69 when they sit
    at the first eight positions. *)
Definition mask_check (mask : list bool) : bool :=
  let pos_rank := fst (mask_scan mask 12 4 0) in
  implb (bool_decide (length (filter (λ b, b = true) mask) = 4%nat))
        (bool_decide (0 ≤ pos_rank ≤ 494) &&
         implb (bool_decide (drop 8 mask = [false; false; false; false]))
               (bool_decide (pos_rank ≤ 69))).

(** The answers of [std::find] along the edge permutation. *)
Definition slice_mask (edges edge_perm : vec) : list bool :=
  (λ e, bool_decide (e ∈ edges)) <$> edge_perm.

(** A slice: four distinct edge identifiers. *)
Definition slice_ok (edges : vec) : Prop :=
  NoDup edges ∧ length edges = 4%nat ∧ Forall (λ e, 0 ≤ e < 12) edges.

(** A second check on every vector of 12 answers with four edges of the
    slice: an edge of the slice at the last position gives a position rank
    of at least 330, and a position rank of 0 needs one at the first. *)
Definition mask_check_low (mask : list bool) : bool :=
  let pos_rank := fst (mask_scan mask 12 4 0) in
  implb (bool_decide (length (filter (λ b, b = true) mask) = 4%nat))
        (implb (mask !!! 11%nat) (bool_decide (330 ≤ pos_rank)) &&
         implb (bool_decide (pos_rank = 0)) (mask !!! 0%nat)).

(** Move sequences that bring the edge UF of the solved cube to each of the
    twelve positions, in the order of [all_edges]. *)
Definition bring_UF : list (list (face * turn)) :=
  [ [(FaceU, CounterClockwise)]; []; [(FaceU, Clockwise)];
    [(FaceU, HalfTurn)];
    [(FaceF, HalfTurn); (FaceD, Clockwise)]; [(FaceF, HalfTurn)];
    [(FaceF, HalfTurn); (FaceD, CounterClockwise)];
    [(FaceF, HalfTurn); (FaceD, HalfTurn)];
    [(FaceF, Clockwise)]; [(FaceF, CounterClockwise)];
    [(FaceU, Clockwise); (FaceL, CounterClockwise)];
    [(FaceU, CounterClockwise); (FaceR, Clockwise)] ].

Section WithHeader.
Context `{Header}.

Definition all_moves : vec :=
  [MOVE_U; MOVE_U2; MOVE_UP; MOVE_L; MOVE_L2; MOVE_LP;
   MOVE_F; MOVE_F2; MOVE_FP; MOVE_R; MOVE_R2; MOVE_RP;
   MOVE_B; MOVE_B2; MOVE_BP; MOVE_D; MOVE_D2; MOVE_DP].

Definition all_corners : vec :=
  [CORNER_URF; CORNER_UFL; CORNER_ULB; CORNER_UBR;
   CORNER_DFR; CORNER_DLF; CORNER_DBL; CORNER_DRB].

Definition all_edges : vec :=
  [EDGE_UR; EDGE_UF; EDGE_UL; EDGE_UB; EDGE_DR; EDGE_DF; EDGE_DL; EDGE_DB;
   EDGE_FR; EDGE_FL; EDGE_BL; EDGE_BR].

(** What the development assumes of [cube.h]: the case labels of a
    [switch] are distinct, the piece identifiers index the vectors of the
    solved cube, and twists and flips are stored as residues. *)
Record header_ok : Prop := {
  moves_distinct : NoDup all_moves;
  corners_indices : all_corners ≡ₚ seqZ 0 8;
  edges_indices : all_edges ≡ₚ seqZ 0 12;
  twist_none : TWIST_NONE = 0;
  twist_cw : TWIST_CW = 1;
  twist_ccw : TWIST_CCW = 2;
  flip_none : FLIP_NONE = 0;
  flip_flip : FLIP_FLIP = 1
}.

(** The first [switch] of [perform_move]; with no matching label the four
    vectors stay empty. *)
Definition move_tables (move : Z) : tables :=
  if decide (move = MOVE_U ∨ move = MOVE_U2 ∨ move = MOVE_UP) then
    mkTables [CORNER_URF; CORNER_UFL; CORNER_ULB; CORNER_UBR]
             [EDGE_UF; EDGE_UL; EDGE_UB; EDGE_UR]
             [TWIST_NONE; TWIST_NONE; TWIST_NONE; TWIST_NONE]
             [FLIP_NONE; FLIP_NONE; FLIP_NONE; FLIP_NONE]
  else if decide (move = MOVE_L ∨ move = MOVE_L2 ∨ move = MOVE_LP) then
    mkTables [CORNER_UFL; CORNER_DLF; CORNER_DBL; CORNER_ULB]
             [EDGE_UL; EDGE_FL; EDGE_DL; EDGE_BL]
             [TWIST_CCW; TWIST_CW; TWIST_CCW; TWIST_CW]
             [FLIP_NONE; FLIP_NONE; FLIP_NONE; FLIP_NONE]
  else if decide (move = MOVE_F ∨ move = MOVE_F2 ∨ move = MOVE_FP) then
    mkTables [CORNER_URF; CORNER_DFR; CORNER_DLF; CORNER_UFL]
             [EDGE_UF; EDGE_FR; EDGE_DF; EDGE_FL]
             [TWIST_CCW; TWIST_CW; TWIST_CCW; TWIST_CW]
             [FLIP_FLIP; FLIP_FLIP; FLIP_FLIP; FLIP_FLIP]
  else if decide (move = MOVE_R ∨ move = MOVE_R2 ∨ move = MOVE_RP) then
    mkTables [CORNER_URF; CORNER_UBR; CORNER_DRB; CORNER_DFR]
             [EDGE_UR; EDGE_BR; EDGE_DR; EDGE_FR]
             [TWIST_CW; TWIST_CCW; TWIST_CW; TWIST_CCW]
             [FLIP_NONE; FLIP_NONE; FLIP_NONE; FLIP_NONE]
  else if decide (move = MOVE_B ∨ move = MOVE_B2 ∨ move = MOVE_BP) then
    mkTables [CORNER_UBR; CORNER_ULB; CORNER_DBL; CORNER_DRB]
             [EDGE_UB; EDGE_BL; EDGE_DB; EDGE_BR]
             [TWIST_CW; TWIST_CCW; TWIST_CW; TWIST_CCW]
             [FLIP_FLIP; FLIP_FLIP; FLIP_FLIP; FLIP_FLIP]
  else if decide (move = MOVE_D ∨ move = MOVE_D2 ∨ move = MOVE_DP) then
    mkTables [CORNER_DFR; CORNER_DRB; CORNER_DBL; CORNER_DLF]
             [EDGE_DF; EDGE_DR; EDGE_DB; EDGE_DL]
             [TWIST_NONE; TWIST_NONE; TWIST_NONE; TWIST_NONE]
             [FLIP_NONE; FLIP_NONE; FLIP_NONE; FLIP_NONE]
  else mkTables [] [] [] [].

(** The second [switch]: [turn_amt], not initialised when no label
    matches. *)
Definition turn_amount (move : Z) : option Z :=
  if decide (move = MOVE_U ∨ move = MOVE_L ∨ move = MOVE_F
             ∨ move = MOVE_R ∨ move = MOVE_B ∨ move = MOVE_D) then Some 1
  else if decide (move = MOVE_U2 ∨ move = MOVE_L2 ∨ move = MOVE_F2
                  ∨ move = MOVE_R2 ∨ move = MOVE_B2 ∨ move = MOVE_D2)
  then Some 2
  else if decide (move = MOVE_UP ∨ move = MOVE_LP ∨ move = MOVE_FP
                  ∨ move = MOVE_RP ∨ move = MOVE_BP ∨ move = MOVE_DP)
  then Some 3
  else None.

(** [Cube::perform_move] as a method: from the object and the argument to
    the returned cube and the object after the call. *)
Definition perform_move_method (c : Cube) (move : Z) : option (Cube * Cube) :=
  let f0 := mkFrame c (corner_permutation c) (corner_orientation c)
                    (edge_permutation c) (edge_orientation c) in
  let t := move_tables move in
  let turn_amt := turn_amount move in
  f1 ← for_loop (corner_body t turn_amt)
                (seqZ 0 (Z.of_nat (length (corners_moved t)))) f0;
  f2 ← for_loop (edge_body t turn_amt)
                (seqZ 0 (Z.of_nat (length (edges_moved t)))) f1;
  Some (mkCube (new_corner_permutation f2) (new_corner_orientation f2)
               (new_edge_permutation f2) (new_edge_orientation f2),
        this f2).

(** The value [perform_move] returns. *)
Definition perform_move (c : Cube) (move : Z) : option Cube :=
  fst <$> perform_move_method c move.

(** A sequence of moves, stopping at the first undefined one. *)
Fixpoint perform_moves (c : Cube) (moves : list Z) : option Cube :=
  match moves with
  | [] => Some c
  | m :: rest => c' ← perform_move c m; perform_moves c' rest
  end.

(** The three slices and the meta coordinates. *)
Definition coord_ud_sorted (c : Cube) : Z :=
  coord_slice_sorted c [EDGE_FR; EDGE_FL; EDGE_BL; EDGE_BR].
Definition coord_rl_sorted (c : Cube) : Z :=
  coord_slice_sorted c [EDGE_UF; EDGE_UB; EDGE_DB; EDGE_DF].
Definition coord_fb_sorted (c : Cube) : Z :=
  coord_slice_sorted c [EDGE_UR; EDGE_UL; EDGE_DL; EDGE_DR].

Definition coord_edge_permutation (c : Cube) : Z :=
  edge_permutation_calc (coord_rl_sorted c) (coord_fb_sorted c).
Definition coord_ud_unsorted (c : Cube) : Z :=
  ud_unsorted_calc (coord_ud_sorted c).
Definition coord_ud_permutation (c : Cube) : Z :=
  ud_permutation_calc (coord_ud_sorted c).

(** The states reached from the solved cube by the 18 moves. *)
Inductive reachable : Cube → Prop :=
  | reachable_solved : reachable solved
  | reachable_move c move c' :
      reachable c → move ∈ all_moves → perform_move c move = Some c' →
      reachable c'.

(** The wording of the specification for the edge permutation coordinate:
    the lexicographic rank, computed as for the corner permutation, of the
    sequence of the 8 edges that do not belong to the UD slice. *)
Definition spec_edge_permutation_rank (c : Cube) : Z :=
  fst (rank_loop (λ y x, bool_decide (y < x))
         (filter (λ e, e ∉ [EDGE_FR; EDGE_FL; EDGE_BL; EDGE_BR])
                 (edge_permutation c))).

(** ** The moves by face and amount *)

(** The face and the amount a move identifier stands for. *)
Definition move_id (f : face) (t : turn) : Z :=
  match f, t with
  | FaceU, Clockwise => MOVE_U | FaceU, HalfTurn => MOVE_U2
  | FaceU, CounterClockwise => MOVE_UP
  | FaceL, Clockwise => MOVE_L | FaceL, HalfTurn => MOVE_L2
  | FaceL, CounterClockwise => MOVE_LP
  | FaceF, Clockwise => MOVE_F | FaceF, HalfTurn => MOVE_F2
  | FaceF, CounterClockwise => MOVE_FP
  | FaceR, Clockwise => MOVE_R | FaceR, HalfTurn => MOVE_R2
  | FaceR, CounterClockwise => MOVE_RP
  | FaceB, Clockwise => MOVE_B | FaceB, HalfTurn => MOVE_B2
  | FaceB, CounterClockwise => MOVE_BP
  | FaceD, Clockwise => MOVE_D | FaceD, HalfTurn => MOVE_D2
  | FaceD, CounterClockwise => MOVE_DP
  end.

(** The arm of the first [switch] for each face. *)
Definition face_tables (f : face) : tables :=
  match f with
  | FaceU => mkTables [CORNER_URF; CORNER_UFL; CORNER_ULB; CORNER_UBR]
               [EDGE_UF; EDGE_UL; EDGE_UB; EDGE_UR]
               [TWIST_NONE; TWIST_NONE; TWIST_NONE; TWIST_NONE]
               [FLIP_NONE; FLIP_NONE; FLIP_NONE; FLIP_NONE]
  | FaceL => mkTables [CORNER_UFL; CORNER_DLF; CORNER_DBL; CORNER_ULB]
               [EDGE_UL; EDGE_FL; EDGE_DL; EDGE_BL]
               [TWIST_CCW; TWIST_CW; TWIST_CCW; TWIST_CW]
               [FLIP_NONE; FLIP_NONE; FLIP_NONE; FLIP_NONE]
  | FaceF => mkTables [CORNER_URF; CORNER_DFR; CORNER_DLF; CORNER_UFL]
               [EDGE_UF; EDGE_FR; EDGE_DF; EDGE_FL]
               [TWIST_CCW; TWIST_CW; TWIST_CCW; TWIST_CW]
               [FLIP_FLIP; FLIP_FLIP; FLIP_FLIP; FLIP_FLIP]
  | FaceR => mkTables [CORNER_URF; CORNER_UBR; CORNER_DRB; CORNER_DFR]
               [EDGE_UR; EDGE_BR; EDGE_DR; EDGE_FR]
               [TWIST_CW; TWIST_CCW; TWIST_CW; TWIST_CCW]
               [FLIP_NONE; FLIP_NONE; FLIP_NONE; FLIP_NONE]
  | FaceB => mkTables [CORNER_UBR; CORNER_ULB; CORNER_DBL; CORNER_DRB]
               [EDGE_UB; EDGE_BL; EDGE_DB; EDGE_BR]
               [TWIST_CW; TWIST_CCW; TWIST_CW; TWIST_CCW]
               [FLIP_FLIP; FLIP_FLIP; FLIP_FLIP; FLIP_FLIP]
  | FaceD => mkTables [CORNER_DFR; CORNER_DRB; CORNER_DBL; CORNER_DLF]
               [EDGE_DF; EDGE_DR; EDGE_DB; EDGE_DL]
               [TWIST_NONE; TWIST_NONE; TWIST_NONE; TWIST_NONE]
               [FLIP_NONE; FLIP_NONE; FLIP_NONE; FLIP_NONE]
  end.

(** The cube seen through the names of the positions: entry [i] is the
    entry at the position the header gives the [i]-th name. *)
Definition view_of (names v : vec) : vec := (λ c, v !!! Z.to_nat c) <$> names.

Definition view (c : Cube) : Cube :=
  mkCube (view_of all_corners (corner_permutation c))
         (view_of all_corners (corner_orientation c))
         (view_of all_edges (edge_permutation c))
         (view_of all_edges (edge_orientation c)).

(** The cube [perform_move] returns for a face and an amount, in closed
    form. *)
Definition moved (f : face) (tn : turn) (c : Cube) : Cube :=
  let t := face_tables f in
  let amt := Z.to_nat (turn_amt_of tn) in
  mkCube
    (cycle_perm (Z.to_nat <$> corners_moved t) amt (corner_permutation c))
    (cycle_orient 3 (Z.to_nat <$> corners_moved t) (corner_twist t) amt
       (corner_orientation c))
    (cycle_perm (Z.to_nat <$> edges_moved t) amt (edge_permutation c))
    (cycle_orient 2 (Z.to_nat <$> edges_moved t) (edge_flip t) amt
       (edge_orientation c)).

(** A sequence of moves in closed form. *)
Definition moved_all (fts : list (face * turn)) (c : Cube) : Cube :=
  foldl (λ c ft, moved ft.1 ft.2 c) c fts.

(** The UD-slice edges are in the UD slice: the four positions of the
    slice hold its four edges. *)
Definition ud_in_slice (c : Cube) : Prop :=
  Forall (λ p, edge_permutation c !!! Z.to_nat p
               ∈ [EDGE_FR; EDGE_FL; EDGE_BL; EDGE_BR])
         [EDGE_FR; EDGE_FL; EDGE_BL; EDGE_BR].

End WithHeader.




(** The cube after the move F on the solved cube, under the reference
    header. *)
Definition solved_after_F : Cube :=
  mkCube [1; 5; 2; 3; 0; 4; 6; 7] [1; 2; 0; 0; 2; 1; 0; 0]
         [0; 9; 2; 3; 4; 8; 6; 7; 1; 5; 10; 11]
         [0; 1; 0; 0; 0; 1; 0; 0; 1; 1; 0; 0].

(** A header that stores the counter-clockwise twist as -1, and a cube
    outside the data model (a twist of 5). *)
Definition signed_twist_header : Header := {|
  MOVE_U := 0; MOVE_U2 := 1; MOVE_UP := 2;
  MOVE_L := 3; MOVE_L2 := 4; MOVE_LP := 5;
  MOVE_F := 6; MOVE_F2 := 7; MOVE_FP := 8;
  MOVE_R := 9; MOVE_R2 := 10; MOVE_RP := 11;
  MOVE_B := 12; MOVE_B2 := 13; MOVE_BP := 14;
  MOVE_D := 15; MOVE_D2 := 16; MOVE_DP := 17;
  CORNER_URF := 0; CORNER_UFL := 1; CORNER_ULB := 2; CORNER_UBR := 3;
  CORNER_DFR := 4; CORNER_DLF := 5; CORNER_DBL := 6; CORNER_DRB := 7;
  EDGE_UR := 0; EDGE_UF := 1; EDGE_UL := 2; EDGE_UB := 3;
  EDGE_DR := 4; EDGE_DF := 5; EDGE_DL := 6; EDGE_DB := 7;
  EDGE_FR := 8; EDGE_FL := 9; EDGE_BL := 10; EDGE_BR := 11;
  TWIST_NONE := 0; TWIST_CW := 1; TWIST_CCW := -1;
  FLIP_NONE := 0; FLIP_FLIP := 1
|}.

Definition overtwisted : Cube :=
  mkCube [0; 1; 2; 3; 4; 5; 6; 7] [5; 0; 0; 0; 0; 0; 0; 0]
         [0; 1; 2; 3; 4; 5; 6; 7; 8; 9; 10; 11]
         [0; 0; 0; 0; 0; 0; 0; 0; 0; 0; 0; 0].

(** ** Notions for the further properties *)

(** The face opposite to a face. *)
Definition opposite (f : face) : face :=
  match f with
  | FaceU => FaceD | FaceD => FaceU
  | FaceL => FaceR | FaceR => FaceL
  | FaceF => FaceB | FaceB => FaceF
  end.

(** The amount of two turns of one face in a row, when they do not cancel. *)
Definition turn_sum (t1 t2 : turn) : option turn :=
  match (turn_amt_of t1 + turn_amt_of t2) `mod` 4 with
  | 1 => Some Clockwise
  | 2 => Some HalfTurn
  | 3 => Some CounterClockwise
  | _ => None
  end.

(** The binomial coefficients by Pascal's rule. *)
Fixpoint choose (n k : nat) {struct n} : nat :=
  match n, k with
  | _, O => 1%nat
  | O, S _ => 0%nat
  | S n', S k' => Nat.add (choose n' k') (choose n' (S k'))
  end.

(** What a slice coordinate sees of the edge permutation: the edges of
    the slice at their positions, the other positions blank. *)
Definition slice_places (edges edge_perm : vec) : list (option Z) :=
  (λ e, if bool_decide (e ∈ edges) then Some e else None) <$> edge_perm.

(** The vectors of 12 answers with four edges of the slice, and their
    position ranks. *)
Definition four_masks : list (list bool) :=
  filter (λ m, length (filter (λ b, b = true) m) = 4%nat) (masks 12).

Definition four_ranks : list Z :=
  (λ m, (mask_scan m 12 4 0).1) <$> four_masks.

(** * Properties *)

(** ** Vectors and loops *)

Lemma vget_Some (v : vec) (i : Z) :
  0 ≤ i < Z.of_nat (length v) → vget v i = Some (v !!! Z.to_nat i).
Proof.
  intros Hi. unfold vget. rewrite decide_True by lia.
  apply list_lookup_lookup_total_lt. lia.
Qed.

Lemma vset_Some (v : vec) (i x : Z) :
  0 ≤ i < Z.of_nat (length v) → vset v i x = Some (<[Z.to_nat i := x]> v).
Proof. intros Hi. unfold vset. by rewrite decide_True. Qed.

(** The pairwise inequalities of a duplicate-free literal list. *)
Ltac nodup_facts H :=
  repeat (let Hx := fresh in
          apply NoDup_cons in H; destruct H as [Hx H]);
  repeat match goal with
         | Hn : _ ∉ _ :: _ |- _ =>
             let Hx := fresh in
             apply not_elem_of_cons in Hn; destruct Hn as [Hx Hn]
         end.

Section HeaderFacts.
Context `{Header} (Hok : header_ok).

Lemma corners_NoDup : NoDup all_corners.
Proof. rewrite (corners_indices Hok). apply NoDup_seqZ. Qed.

Lemma edges_NoDup : NoDup all_edges.
Proof. rewrite (edges_indices Hok). apply NoDup_seqZ. Qed.

Lemma corner_range c : c ∈ all_corners → 0 ≤ c < 8.
Proof. rewrite (corners_indices Hok), elem_of_seqZ. lia. Qed.

Lemma edge_range e : e ∈ all_edges → 0 ≤ e < 12.
Proof. rewrite (edges_indices Hok), elem_of_seqZ. lia. Qed.

Lemma moves_pairwise_distinct :
  ∀ i j m, all_moves !! i = Some m → all_moves !! j = Some m → i = j.
Proof. intros i j m. apply NoDup_lookup, (moves_distinct Hok). Qed.

Lemma move_id_index f t :
  ∃ i, all_moves !! i = Some (move_id f t) ∧
       all_faces !! (i `div` 3)%nat = Some f ∧
       all_turns !! (i `mod` 3)%nat = Some t.
Proof.
  destruct f, t;
    [exists 0%nat|exists 1%nat|exists 2%nat|exists 3%nat|exists 4%nat
    |exists 5%nat|exists 6%nat|exists 7%nat|exists 8%nat|exists 9%nat
    |exists 10%nat|exists 11%nat|exists 12%nat|exists 13%nat|exists 14%nat
    |exists 15%nat|exists 16%nat|exists 17%nat]; done.
Qed.

Lemma move_id_inj f t f' t' : move_id f t = move_id f' t' → f = f' ∧ t = t'.
Proof.
  intros E.
  destruct (move_id_index f t) as (i & Hi & Hf & Ht).
  destruct (move_id_index f' t') as (j & Hj & Hf' & Ht').
  rewrite <- E in Hj. pose proof (moves_pairwise_distinct _ _ _ Hi Hj) as ->.
  split; congruence.
Qed.

(** In a hypothesis [Hd] that equates [move_id f t] with one of the 18
    constants, find the face and the amount of that constant. *)
Ltac name_move Hinj Hd :=
  first [ apply (Hinj FaceU Clockwise) in Hd
            | apply (Hinj FaceU HalfTurn) in Hd
            | apply (Hinj FaceU CounterClockwise) in Hd
            | apply (Hinj FaceL Clockwise) in Hd
            | apply (Hinj FaceL HalfTurn) in Hd
            | apply (Hinj FaceL CounterClockwise) in Hd
            | apply (Hinj FaceF Clockwise) in Hd
            | apply (Hinj FaceF HalfTurn) in Hd
            | apply (Hinj FaceF CounterClockwise) in Hd
            | apply (Hinj FaceR Clockwise) in Hd
            | apply (Hinj FaceR HalfTurn) in Hd
            | apply (Hinj FaceR CounterClockwise) in Hd
            | apply (Hinj FaceB Clockwise) in Hd
            | apply (Hinj FaceB HalfTurn) in Hd
            | apply (Hinj FaceB CounterClockwise) in Hd
            | apply (Hinj FaceD Clockwise) in Hd
            | apply (Hinj FaceD HalfTurn) in Hd
            | apply (Hinj FaceD CounterClockwise) in Hd ].

Lemma move_tables_id f t : move_tables (move_id f t) = face_tables f.
Proof.
  assert (∀ f' t', move_id f t = move_id f' t' → f = f') as Hinj.
  { intros f' t' E. by apply move_id_inj in E as [-> _]. }
  unfold move_tables.
  repeat (case_decide as Hd;
          [ destruct Hd as [Hd|[Hd|Hd]]; name_move Hinj Hd; by subst f
          | revert Hd ]).
  intros. exfalso.
  destruct f, t; simpl in *;
    match goal with Hn : ¬ _ |- _ => solve [apply Hn; auto] end.
Qed.

Lemma turn_amount_id f t : turn_amount (move_id f t) = Some (turn_amt_of t).
Proof.
  assert (∀ f' t', move_id f t = move_id f' t' → t = t') as Hinj.
  { intros f' t' E. by apply move_id_inj in E as [_ ->]. }
  unfold turn_amount.
  repeat (case_decide as Hd;
          [ destruct Hd as [Hd|[Hd|[Hd|[Hd|[Hd|Hd]]]]]; name_move Hinj Hd;
            by subst t
          | revert Hd ]).
  intros. exfalso.
  destruct f, t; simpl in *;
    match goal with Hn : ¬ _ |- _ => solve [apply Hn; auto 7] end.
Qed.

Lemma all_moves_id move :
  move ∈ all_moves ↔ ∃ f t, move = move_id f t.
Proof.
  split.
  - unfold all_moves. rewrite !elem_of_cons, elem_of_nil.
    intros Hm.
    repeat (destruct Hm as [->|Hm];
            [first [ by exists FaceU, Clockwise | by exists FaceU, HalfTurn
                   | by exists FaceU, CounterClockwise
                   | by exists FaceL, Clockwise | by exists FaceL, HalfTurn
                   | by exists FaceL, CounterClockwise
                   | by exists FaceF, Clockwise | by exists FaceF, HalfTurn
                   | by exists FaceF, CounterClockwise
                   | by exists FaceR, Clockwise | by exists FaceR, HalfTurn
                   | by exists FaceR, CounterClockwise
                   | by exists FaceB, Clockwise | by exists FaceB, HalfTurn
                   | by exists FaceB, CounterClockwise
                   | by exists FaceD, Clockwise | by exists FaceD, HalfTurn
                   | by exists FaceD, CounterClockwise ]|]).
    done.
  - intros (f & t & ->). unfold all_moves.
    destruct f, t; simpl; repeat first [apply list_elem_of_here | apply list_elem_of_further].
Qed.

End HeaderFacts.

(** ** The update loops in closed form *)

Lemma corner_body_eq t amt ii f from to tw :
  vget (corners_moved t) ii = Some from →
  vget (corners_moved t)
       ((ii + amt) `rem` Z.of_nat (length (corners_moved t))) = Some to →
  sum_delta (corner_twist t) (Z.of_nat (length (corners_moved t))) ii amt
    = Some tw →
  0 ≤ from < Z.of_nat (length (corner_permutation (this f))) →
  0 ≤ from < Z.of_nat (length (corner_orientation (this f))) →
  0 ≤ to < Z.of_nat (length (new_corner_permutation f)) →
  0 ≤ to < Z.of_nat (length (new_corner_orientation f)) →
  corner_body t (Some amt) ii f =
    Some (mkFrame (this f)
            (<[Z.to_nat to := corner_permutation (this f) !!! Z.to_nat from]>
               (new_corner_permutation f))
            (<[Z.to_nat to :=
                 (corner_orientation (this f) !!! Z.to_nat from + tw) `rem` 3]>
               (new_corner_orientation f))
            (new_edge_permutation f) (new_edge_orientation f)).
Proof.
  intros Hfrom Hto Htw ? ? ? ?. unfold corner_body.
  rewrite Hfrom. simpl. rewrite Hto. simpl.
  rewrite (vget_Some (corner_permutation (this f))) by done. simpl.
  rewrite vset_Some by done. simpl. rewrite Htw. simpl.
  rewrite (vget_Some (corner_orientation (this f))) by done. simpl.
  by rewrite vset_Some by done.
Qed.

Lemma edge_body_eq t amt ii f from to fl :
  vget (edges_moved t) ii = Some from →
  vget (edges_moved t)
       ((ii + amt) `rem` Z.of_nat (length (edges_moved t))) = Some to →
  sum_delta (edge_flip t) (Z.of_nat (length (edges_moved t))) ii amt
    = Some fl →
  0 ≤ from < Z.of_nat (length (edge_permutation (this f))) →
  0 ≤ from < Z.of_nat (length (edge_orientation (this f))) →
  0 ≤ to < Z.of_nat (length (new_edge_permutation f)) →
  0 ≤ to < Z.of_nat (length (new_edge_orientation f)) →
  edge_body t (Some amt) ii f =
    Some (mkFrame (this f)
            (new_corner_permutation f) (new_corner_orientation f)
            (<[Z.to_nat to := edge_permutation (this f) !!! Z.to_nat from]>
               (new_edge_permutation f))
            (<[Z.to_nat to :=
                 (edge_orientation (this f) !!! Z.to_nat from + fl) `rem` 2]>
               (new_edge_orientation f))).
Proof.
  intros Hfrom Hto Hfl ? ? ? ?. unfold edge_body.
  rewrite Hfrom. simpl. rewrite Hto. simpl.
  rewrite (vget_Some (edge_permutation (this f))) by done. simpl.
  rewrite vset_Some by done. simpl. rewrite Hfl. simpl.
  rewrite (vget_Some (edge_orientation (this f))) by done. simpl.
  by rewrite vset_Some by done.
Qed.

(** One iteration of an update loop whose tables are literal. *)
Ltac loop_step lem :=
  erewrite lem;
  [ cbn [mbind option_bind for_loop this new_corner_permutation
         new_corner_orientation new_edge_permutation new_edge_orientation]
  | reflexivity | reflexivity | reflexivity
  | cbn; rewrite ?length_insert; lia | cbn; rewrite ?length_insert; lia
  | cbn; rewrite ?length_insert; lia | cbn; rewrite ?length_insert; lia ].

Lemma corner_loop_closed c0 c1 c2 c3 d0 d1 d2 d3 em ef tn c nep neo n :
  length (corner_permutation c) = n → length (corner_orientation c) = n →
  0 ≤ c0 < Z.of_nat n → 0 ≤ c1 < Z.of_nat n →
  0 ≤ c2 < Z.of_nat n → 0 ≤ c3 < Z.of_nat n →
  for_loop (corner_body (mkTables [c0; c1; c2; c3] em [d0; d1; d2; d3] ef)
                        (Some (turn_amt_of tn)))
           (seqZ 0 4)
           (mkFrame c (corner_permutation c) (corner_orientation c) nep neo)
  = Some (mkFrame c
            (cycle_perm (Z.to_nat <$> [c0; c1; c2; c3])
               (Z.to_nat (turn_amt_of tn)) (corner_permutation c))
            (cycle_orient 3 (Z.to_nat <$> [c0; c1; c2; c3]) [d0; d1; d2; d3]
               (Z.to_nat (turn_amt_of tn)) (corner_orientation c))
            nep neo).
Proof.
  intros Hcp Hco ? ? ? ?.
  change (seqZ 0 4) with [0; 1; 2; 3].
  destruct tn; cbn [for_loop turn_amt_of].
  all: do 4 (loop_step corner_body_eq); reflexivity.
Qed.

Lemma edge_loop_closed e0 e1 e2 e3 g0 g1 g2 g3 cm ct tn c ncp nco n :
  length (edge_permutation c) = n → length (edge_orientation c) = n →
  0 ≤ e0 < Z.of_nat n → 0 ≤ e1 < Z.of_nat n →
  0 ≤ e2 < Z.of_nat n → 0 ≤ e3 < Z.of_nat n →
  for_loop (edge_body (mkTables cm [e0; e1; e2; e3] ct [g0; g1; g2; g3])
                      (Some (turn_amt_of tn)))
           (seqZ 0 4)
           (mkFrame c ncp nco (edge_permutation c) (edge_orientation c))
  = Some (mkFrame c ncp nco
            (cycle_perm (Z.to_nat <$> [e0; e1; e2; e3])
               (Z.to_nat (turn_amt_of tn)) (edge_permutation c))
            (cycle_orient 2 (Z.to_nat <$> [e0; e1; e2; e3]) [g0; g1; g2; g3]
               (Z.to_nat (turn_amt_of tn)) (edge_orientation c))).
Proof.
  intros Hep Heo ? ? ? ?.
  change (seqZ 0 4) with [0; 1; 2; 3].
  destruct tn; cbn [for_loop turn_amt_of].
  all: do 4 (loop_step edge_body_eq); reflexivity.
Qed.

Section MoveClosedForm.
Context `{Header} (Hok : header_ok).

Lemma face_corners_range f :
  Forall (λ c, 0 ≤ c < 8) (corners_moved (face_tables f)).
Proof.
  apply Forall_forall. intros c Hc. apply (corner_range Hok).
  unfold all_corners.
  destruct f; simpl in Hc; rewrite !elem_of_cons, elem_of_nil in Hc;
    destruct Hc as [->|[->|[->|[->|[]]]]];
    repeat first [apply list_elem_of_here | apply list_elem_of_further].
Qed.

Lemma face_edges_range f :
  Forall (λ e, 0 ≤ e < 12) (edges_moved (face_tables f)).
Proof.
  apply Forall_forall. intros e He. apply (edge_range Hok).
  unfold all_edges.
  destruct f; simpl in He; rewrite !elem_of_cons, elem_of_nil in He;
    destruct He as [->|[->|[->|[->|[]]]]];
    repeat first [apply list_elem_of_here | apply list_elem_of_further].
Qed.

Lemma perform_move_method_closed c f tn :
  length (corner_permutation c) = 8%nat →
  length (corner_orientation c) = 8%nat →
  length (edge_permutation c) = 12%nat →
  length (edge_orientation c) = 12%nat →
  perform_move_method c (move_id f tn) = Some (moved f tn c, c).
Proof.
  intros Hcp Hco Hep Heo. unfold perform_move_method.
  rewrite (move_tables_id Hok), (turn_amount_id Hok).
  pose proof (face_corners_range f) as Hc.
  pose proof (face_edges_range f) as He.
  unfold moved.
  destruct f; cbn [face_tables corners_moved edges_moved length] in *;
    change (Z.of_nat 4) with 4;
    rewrite !Forall_cons in Hc; rewrite !Forall_cons in He;
    destruct Hc as (? & ? & ? & ? & _); destruct He as (? & ? & ? & ? & _).
  all: erewrite corner_loop_closed by (done || lia).
  all: cbn [mbind option_bind].
  all: erewrite edge_loop_closed by (done || lia).
  all: reflexivity.
Qed.

End MoveClosedForm.

(** ** Inversions under the exchange of two entries *)

Section Inversions.
Local Open Scope nat_scope.

Lemma count_below_app x a b :
  count_below x (a ++ b) = count_below x a + count_below x b.
Proof. unfold count_below. by rewrite filter_app, length_app. Qed.

Lemma count_below_perm x a b : a ≡ₚ b → count_below x a = count_below x b.
Proof. intros Hp. unfold count_below. by rewrite Hp. Qed.

Lemma inversions_cons x v :
  inversions (x :: v) = count_below x v + inversions v.
Proof. reflexivity. Qed.

Lemma inversions_app a b :
  inversions (a ++ b) = inversions a + cross a b + inversions b.
Proof.
  induction a as [|x a IH]; [done|].
  rewrite <- app_comm_cons, !inversions_cons, count_below_app, IH. simpl. lia.
Qed.

Lemma cross_perm a b b' : b ≡ₚ b' → cross a b = cross a b'.
Proof.
  intros Hp. induction a as [|x a IH]; [done|].
  simpl. by rewrite IH, (count_below_perm x b b').
Qed.

Lemma cross_cons_r a y b : cross a (y :: b) = count_above y a + cross a b.
Proof.
  induction a as [|x a IH]; [done|].
  simpl. rewrite IH. unfold count_below, count_above.
  rewrite !filter_cons. repeat case_decide; simpl; lia.
Qed.

Lemma count_split x v :
  x ∉ v → count_below x v + count_above x v = length v.
Proof.
  unfold count_below, count_above.
  induction v as [|y v IH]; [done|].
  rewrite not_elem_of_cons. intros [Hne Hv]. specialize (IH Hv).
  rewrite !filter_cons. repeat case_decide; simpl; lia.
Qed.

Lemma count_below_pair (x y : Z) :
  x ≠ y → count_below x [y] + count_below y [x] = 1.
Proof.
  intros Hne. unfold count_below. rewrite !filter_cons, !filter_nil.
  repeat case_decide; simpl; lia.
Qed.

Lemma odd_of_odd_sum n1 n2 k :
  n1 + n2 = 2 * k + 1 → Nat.odd n1 = negb (Nat.odd n2).
Proof.
  intros E.
  assert (Nat.odd (n1 + n2) = true) as Ho.
  { rewrite E. rewrite Nat.odd_spec. by exists k. }
  rewrite Nat.odd_add in Ho. by destruct (Nat.odd n1), (Nat.odd n2).
Qed.

Lemma parity_exchange a x m y b :
  x ≠ y → x ∉ m → y ∉ m →
  parity (a ++ y :: m ++ x :: b) = negb (parity (a ++ x :: m ++ y :: b)).
Proof.
  intros Hne Hx Hy. unfold parity.
  apply (odd_of_odd_sum _ _
    (inversions a + cross a (x :: m ++ y :: b) + inversions m + cross m b
     + inversions b + count_below x b + count_below y b + length m)).
  rewrite !inversions_app.
  rewrite (cross_perm a (y :: m ++ x :: b) (x :: m ++ y :: b)).
  2:{ rewrite <- !Permutation_middle. apply Permutation_swap. }
  rewrite !inversions_cons, !inversions_app, !inversions_cons.
  rewrite !cross_cons_r.
  change (x :: b) with ([x] ++ b). change (y :: b) with ([y] ++ b).
  rewrite !count_below_app.
  pose proof (count_split x m Hx). pose proof (count_split y m Hy).
  pose proof (count_below_pair x y Hne).
  lia.
Qed.

Lemma swap_middle a x m y b :
  swap (length a) (length a + S (length m)) (a ++ x :: m ++ y :: b)
  = a ++ y :: m ++ x :: b.
Proof.
  unfold swap.
  assert ((a ++ x :: m ++ y :: b) !!! (length a + S (length m)) = y) as ->.
  { rewrite lookup_total_app_r by lia.
    replace (length a + S (length m) - length a) with (S (length m)) by lia.
    simpl. by apply list_lookup_total_middle. }
  rewrite list_lookup_total_middle by done.
  rewrite (insert_app_r_alt a) by lia.
  replace (length a - length a) with 0 by lia. simpl.
  rewrite (insert_app_r_alt a) by lia.
  replace (length a + S (length m) - length a) with (S (length m)) by lia.
  simpl. rewrite (insert_app_r_alt m) by lia.
  replace (length m - length m) with 0 by lia. done.
Qed.

Lemma vec_split (v : vec) i j :
  i < j < length v →
  v = take i v ++ v !!! i :: take (j - S i) (drop (S i) v)
        ++ v !!! j :: drop (S j) v.
Proof.
  intros Hij.
  rewrite <- (take_drop_middle v i (v !!! i)) at 1
    by (apply list_lookup_lookup_total_lt; lia).
  f_equal. f_equal.
  rewrite <- (take_drop_middle (drop (S i) v) (j - S i) (v !!! j)) at 1.
  2:{ rewrite lookup_drop. replace (S i + (j - S i)) with j by lia.
      apply list_lookup_lookup_total_lt; lia. }
  f_equal. f_equal. rewrite drop_drop. f_equal. lia.
Qed.

Lemma swap_split (v : vec) i j :
  i < j < length v →
  swap i j v = take i v ++ v !!! j :: take (j - S i) (drop (S i) v)
                 ++ v !!! i :: drop (S j) v.
Proof.
  intros Hij. rewrite (vec_split v i j Hij) at 1.
  pose proof (swap_middle (take i v) (v !!! i)
                (take (j - S i) (drop (S i) v)) (v !!! j) (drop (S j) v))
    as Hs.
  rewrite !length_take_le in Hs by (rewrite ?length_drop; lia).
  by replace (i + S (j - S i)) with j in Hs by lia.
Qed.

Lemma swap_comm (v : vec) i j : i ≠ j → swap i j v = swap j i v.
Proof. intros Hne. unfold swap. by rewrite list_insert_insert_ne. Qed.

Lemma swap_perm (v : vec) i j :
  i < length v → j < length v → i ≠ j → swap i j v ≡ₚ v.
Proof.
  assert (∀ i j, i < j < length v → swap i j v ≡ₚ v) as Hlt.
  { clear. intros i j Hij. rewrite (swap_split v i j Hij).
    transitivity (take i v ++ v !!! i :: take (j - S i) (drop (S i) v)
                    ++ v !!! j :: drop (S j) v);
      [|by rewrite <- vec_split].
    apply Permutation_app_head. rewrite <- !Permutation_middle.
    apply Permutation_swap. }
  intros Hi Hj Hne. destruct (decide (i < j)).
  - apply Hlt. lia.
  - rewrite swap_comm by done. apply Hlt. lia.
Qed.

Lemma swap_parity (v : vec) i j :
  NoDup v → i < length v → j < length v → i ≠ j →
  parity (swap i j v) = negb (parity v).
Proof.
  assert (∀ i j, NoDup v → i < j < length v →
                 parity (swap i j v) = negb (parity v)) as Hlt.
  { clear. intros i j Hnd' Hij. rewrite (swap_split v i j Hij).
    assert (NoDup (take i v ++ v !!! i :: take (j - S i) (drop (S i) v)
                     ++ v !!! j :: drop (S j) v)) as Hnd
      by (by rewrite <- vec_split).
    replace (parity v)
      with (parity (take i v ++ v !!! i :: take (j - S i) (drop (S i) v)
                      ++ v !!! j :: drop (S j) v))
      by (by rewrite <- vec_split).
    apply NoDup_app in Hnd as (_ & _ & Hnd).
    apply NoDup_cons in Hnd as [Hx Hnd].
    apply NoDup_app in Hnd as (_ & Hm & Hnd).
    apply NoDup_cons in Hnd as [Hy _].
    apply parity_exchange.
    - intros E. apply Hx, elem_of_app. right. rewrite E. left.
    - intros Hin. apply Hx, elem_of_app. by left.
    - intros Hin. apply (Hm _ Hin). left. }
  intros Hnd Hi Hj Hne. destruct (decide (i < j)).
  - apply Hlt; [done|lia].
  - rewrite swap_comm by done. apply Hlt; [done|lia].
Qed.

Lemma length_swap (v : vec) i j : length (swap i j v) = length v.
Proof. unfold swap. by rewrite !length_insert. Qed.

End Inversions.

(** ** A cycle of four distinct positions *)

Lemma vec_ext (l1 l2 : vec) :
  length l1 = length l2 →
  (∀ p, (p < length l1)%nat → l1 !!! p = l2 !!! p) → l1 = l2.
Proof.
  intros Hlen Hp. apply list_eq. intros p.
  destruct (decide (p < length l1)%nat) as [Hlt|Hge].
  - rewrite !list_lookup_lookup_total_lt by lia. f_equal. by apply Hp.
  - rewrite !lookup_ge_None_2 by lia. done.
Qed.

Lemma vsum_insert (v : vec) (i : nat) (x : Z) :
  (i < length v)%nat → vsum (<[i := x]> v) = vsum v - v !!! i + x.
Proof.
  revert i. induction v as [|y v IH]; intros i Hi; simpl in Hi; [lia|].
  destruct i as [|i]; simpl.
  - unfold vsum. simpl. lia.
  - unfold vsum in *. simpl. rewrite IH by lia. simpl. lia.
Qed.

(** Lookups through updates at positions known to be equal or distinct. *)
Ltac lk :=
  repeat first
    [ rewrite list_lookup_total_insert_eq
        by (rewrite ?length_insert; first [assumption | lia])
    | rewrite list_lookup_total_insert_ne
        by (first [assumption | apply not_eq_sym; assumption]) ].

Section Cycle.
Context (i0 i1 i2 i3 : nat).
Context (H01 : i0 ≠ i1) (H02 : i0 ≠ i2) (H03 : i0 ≠ i3)
        (H12 : i1 ≠ i2) (H13 : i1 ≠ i3) (H23 : i2 ≠ i3).
Context (v : vec).
Context (L0 : (i0 < length v)%nat) (L1 : (i1 < length v)%nat)
        (L2 : (i2 < length v)%nat) (L3 : (i3 < length v)%nat).

Lemma length_cycle_perm tn :
  length (cycle_perm [i0; i1; i2; i3] (Z.to_nat (turn_amt_of tn)) v)
  = length v.
Proof. destruct tn; unfold cycle_perm; simpl; by rewrite !length_insert. Qed.

Lemma length_cycle_orient modulus delta tn :
  length (cycle_orient modulus [i0; i1; i2; i3] delta
            (Z.to_nat (turn_amt_of tn)) v) = length v.
Proof. destruct tn; unfold cycle_orient; simpl; by rewrite !length_insert. Qed.

Lemma cycle_perm_frame tn p :
  p ≠ i0 → p ≠ i1 → p ≠ i2 → p ≠ i3 →
  cycle_perm [i0; i1; i2; i3] (Z.to_nat (turn_amt_of tn)) v !!! p = v !!! p.
Proof. intros. destruct tn; unfold cycle_perm; simpl; by lk. Qed.

Lemma cycle_orient_frame modulus delta tn p :
  p ≠ i0 → p ≠ i1 → p ≠ i2 → p ≠ i3 →
  cycle_orient modulus [i0; i1; i2; i3] delta
    (Z.to_nat (turn_amt_of tn)) v !!! p = v !!! p.
Proof. intros. destruct tn; unfold cycle_orient; simpl; by lk. Qed.

(** A quarter turn is three exchanges, a half turn two. *)
Lemma cycle_perm_swaps tn :
  cycle_perm [i0; i1; i2; i3] (Z.to_nat (turn_amt_of tn)) v =
  match tn with
  | Clockwise => swap i0 i3 (swap i0 i2 (swap i0 i1 v))
  | HalfTurn => swap i1 i3 (swap i0 i2 v)
  | CounterClockwise => swap i0 i1 (swap i0 i2 (swap i0 i3 v))
  end.
Proof.
  destruct tn; unfold cycle_perm, swap; simpl.
  all: apply vec_ext; [by rewrite !length_insert|].
  all: intros p _.
  all: destruct (decide (p = i0)) as [->|];
    [|destruct (decide (p = i1)) as [->|];
      [|destruct (decide (p = i2)) as [->|];
        [|destruct (decide (p = i3)) as [->|]]]].
  all: by lk.
Qed.

Lemma cycle_perm_perm tn :
  cycle_perm [i0; i1; i2; i3] (Z.to_nat (turn_amt_of tn)) v ≡ₚ v.
Proof.
  rewrite cycle_perm_swaps.
  destruct tn; rewrite !swap_perm; rewrite ?length_swap; done.
Qed.

Lemma cycle_perm_parity tn :
  NoDup v →
  parity (cycle_perm [i0; i1; i2; i3] (Z.to_nat (turn_amt_of tn)) v) =
  match tn with HalfTurn => parity v | _ => negb (parity v) end.
Proof.
  intros Hnd. rewrite cycle_perm_swaps.
  assert (∀ i j w, w ≡ₚ v → (i < length v)%nat → (j < length v)%nat → i ≠ j →
            parity (swap i j w) = negb (parity w) ∧ swap i j w ≡ₚ v) as Hs.
  { intros i j w Hw Hi Hj Hne.
    assert (length w = length v) as Hl by (by rewrite Hw).
    split.
    - apply swap_parity; rewrite ?Hl; try done. by rewrite Hw.
    - rewrite swap_perm; rewrite ?Hl; done. }
  destruct tn.
  - destruct (Hs i0 i1 v) as [E1 P1]; try done.
    destruct (Hs i0 i2 _ P1) as [E2 P2]; try done.
    destruct (Hs i0 i3 _ P2) as [E3 P3]; try done.
    rewrite E3, E2, E1. by destruct (parity v).
  - destruct (Hs i0 i2 v) as [E1 P1]; try done.
    destruct (Hs i1 i3 _ P1) as [E2 P2]; try done.
    rewrite E2, E1. by destruct (parity v).
  - destruct (Hs i0 i3 v) as [E1 P1]; try done.
    destruct (Hs i0 i2 _ P1) as [E2 P2]; try done.
    destruct (Hs i0 i1 _ P2) as [E3 P3]; try done.
    rewrite E3, E2, E1. by destruct (parity v).
Qed.

Lemma cycle_orient_vsum modulus d0 d1 d2 d3 tn :
  modulus = 2 ∨ modulus = 3 →
  (d0 + d1 + d2 + d3) `mod` modulus = 0 →
  vsum (cycle_orient modulus [i0; i1; i2; i3] [d0; d1; d2; d3]
          (Z.to_nat (turn_amt_of tn)) v) `mod` modulus
  = vsum v `mod` modulus.
Proof.
  intros Hm Hd.
  destruct tn; unfold cycle_orient, delta_total; simpl.
  all: rewrite !vsum_insert by (rewrite ?length_insert; lia).
  all: lk.
  all: generalize (vsum v) (v !!! i0) (v !!! i1) (v !!! i2) (v !!! i3).
  all: intros s x0 x1 x2 x3.
  all: destruct Hm as [-> | ->]; Z.to_euclidean_division_equations; lia.
Qed.

Lemma cycle_orient_range modulus d0 d1 d2 d3 tn :
  0 < modulus → 0 ≤ d0 → 0 ≤ d1 → 0 ≤ d2 → 0 ≤ d3 →
  Forall (λ o, 0 ≤ o < modulus) v →
  Forall (λ o, 0 ≤ o < modulus)
    (cycle_orient modulus [i0; i1; i2; i3] [d0; d1; d2; d3]
       (Z.to_nat (turn_amt_of tn)) v).
Proof.
  intros Hm ? ? ? ? Hv.
  assert (∀ i, (i < length v)%nat → 0 ≤ v !!! i) as Hnn.
  { intros i Hi. rewrite Forall_lookup in Hv.
    apply (Hv i), list_lookup_lookup_total_lt. lia. }
  assert (∀ w i x, 0 ≤ x → Forall (λ o, 0 ≤ o < modulus) w →
            Forall (λ o, 0 ≤ o < modulus) (<[i := x `rem` modulus]> w)) as Hi.
  { intros w i x Hx Hw. apply Forall_insert; [done|].
    pose proof (Z.rem_bound_pos x modulus Hx Hm). lia. }
  pose proof (Hnn i0 L0). pose proof (Hnn i1 L1).
  pose proof (Hnn i2 L2). pose proof (Hnn i3 L3).
  destruct tn; unfold cycle_orient, delta_total; simpl.
  all: repeat (apply Hi; [lia|]); done.
Qed.

Lemma cycle_perm_four :
  cycle_perm [i0; i1; i2; i3] 1
    (cycle_perm [i0; i1; i2; i3] 1
       (cycle_perm [i0; i1; i2; i3] 1 (cycle_perm [i0; i1; i2; i3] 1 v)))
  = v.
Proof.
  unfold cycle_perm; simpl.
  apply vec_ext; [by rewrite !length_insert|].
  intros p _.
  destruct (decide (p = i0)) as [->|];
    [|destruct (decide (p = i1)) as [->|];
      [|destruct (decide (p = i2)) as [->|];
        [|destruct (decide (p = i3)) as [->|]]]].
  all: by lk.
Qed.

Lemma cycle_perm_inverse tn tn' :
  turn_amt_of tn + turn_amt_of tn' = 4 →
  cycle_perm [i0; i1; i2; i3] (Z.to_nat (turn_amt_of tn'))
    (cycle_perm [i0; i1; i2; i3] (Z.to_nat (turn_amt_of tn)) v) = v.
Proof.
  intros Hsum.
  destruct tn, tn'; try discriminate Hsum; unfold cycle_perm; simpl.
  all: apply vec_ext; [by rewrite !length_insert|].
  all: intros p _.
  all: destruct (decide (p = i0)) as [->|];
    [|destruct (decide (p = i1)) as [->|];
      [|destruct (decide (p = i2)) as [->|];
        [|destruct (decide (p = i3)) as [->|]]]].
  all: by lk.
Qed.

Section Orient.
Context (modulus d0 d1 d2 d3 : Z).
Context (Hm : modulus = 2 ∨ modulus = 3).
Context (Hd0 : 0 ≤ d0) (Hd1 : 0 ≤ d1) (Hd2 : 0 ≤ d2) (Hd3 : 0 ≤ d3).
Context (Hd : (d0 + d1 + d2 + d3) `mod` modulus = 0).
Context (Hv : Forall (λ o, 0 ≤ o < modulus) v).

Lemma cycle_orient_four :
  cycle_orient modulus [i0; i1; i2; i3] [d0; d1; d2; d3] 1
    (cycle_orient modulus [i0; i1; i2; i3] [d0; d1; d2; d3] 1
       (cycle_orient modulus [i0; i1; i2; i3] [d0; d1; d2; d3] 1
          (cycle_orient modulus [i0; i1; i2; i3] [d0; d1; d2; d3] 1 v)))
  = v.
Proof.
  assert (∀ i, (i < length v)%nat → 0 ≤ v !!! i < modulus) as Hr.
  { intros i Hi. rewrite Forall_lookup in Hv.
    apply (Hv i), list_lookup_lookup_total_lt. lia. }
  pose proof (Hr i0 L0). pose proof (Hr i1 L1).
  pose proof (Hr i2 L2). pose proof (Hr i3 L3).
  unfold cycle_orient, delta_total; simpl.
  apply vec_ext; [by rewrite !length_insert|].
  intros p _.
  destruct (decide (p = i0)) as [->|];
    [|destruct (decide (p = i1)) as [->|];
      [|destruct (decide (p = i2)) as [->|];
        [|destruct (decide (p = i3)) as [->|]]]].
  all: lk; try done.
  all: clear Hv Hr; revert Hd.
  all: generalize (v !!! i0) (v !!! i1) (v !!! i2) (v !!! i3) H H0 H1 H2.
  all: clear -Hm Hd0 Hd1 Hd2 Hd3; intros.
  all: destruct Hm as [-> | ->]; Z.to_euclidean_division_equations; lia.
Qed.

Lemma cycle_orient_inverse tn tn' :
  turn_amt_of tn + turn_amt_of tn' = 4 →
  cycle_orient modulus [i0; i1; i2; i3] [d0; d1; d2; d3]
    (Z.to_nat (turn_amt_of tn'))
    (cycle_orient modulus [i0; i1; i2; i3] [d0; d1; d2; d3]
       (Z.to_nat (turn_amt_of tn)) v) = v.
Proof.
  intros Hsum.
  assert (∀ i, (i < length v)%nat → 0 ≤ v !!! i < modulus) as Hr.
  { intros i Hi. rewrite Forall_lookup in Hv.
    apply (Hv i), list_lookup_lookup_total_lt. lia. }
  pose proof (Hr i0 L0). pose proof (Hr i1 L1).
  pose proof (Hr i2 L2). pose proof (Hr i3 L3).
  destruct tn, tn'; try discriminate Hsum;
    unfold cycle_orient, delta_total; simpl.
  all: apply vec_ext; [by rewrite !length_insert|].
  all: intros p _.
  all: destruct (decide (p = i0)) as [->|];
    [|destruct (decide (p = i1)) as [->|];
      [|destruct (decide (p = i2)) as [->|];
        [|destruct (decide (p = i3)) as [->|]]]].
  all: lk; try done.
  all: clear Hv Hr Hsum; revert Hd.
  all: generalize (v !!! i0) (v !!! i1) (v !!! i2) (v !!! i3) H H0 H1 H2.
  all: clear -Hm Hd0 Hd1 Hd2 Hd3; intros.
  all: destruct Hm as [-> | ->]; Z.to_euclidean_division_equations; lia.
Qed.

End Orient.

End Cycle.

(** ** The same facts for a cycle given by a table *)

Section CycleTable.
Context (l : vec) (v : vec).
Context (Hl : cycle_ok (Z.of_nat (length v)) l).

Ltac open_cycle :=
  destruct Hl as (c0 & c1 & c2 & c3 & -> & (? & ? & ? & ?)
                  & (? & ? & ? & ? & ? & ?));
  cbn [fmap list_fmap].

Lemma table_perm_length tn :
  length (cycle_perm (Z.to_nat <$> l) (Z.to_nat (turn_amt_of tn)) v)
  = length v.
Proof. open_cycle. apply length_cycle_perm. Qed.

Lemma table_orient_length modulus delta tn :
  length (cycle_orient modulus (Z.to_nat <$> l) delta
            (Z.to_nat (turn_amt_of tn)) v) = length v.
Proof. open_cycle. apply length_cycle_orient. Qed.

Lemma table_perm_frame tn (p : nat) :
  Z.of_nat p ∉ l →
  cycle_perm (Z.to_nat <$> l) (Z.to_nat (turn_amt_of tn)) v !! p = v !! p.
Proof.
  intros Hp. open_cycle.
  rewrite !not_elem_of_cons in Hp. destruct Hp as (? & ? & ? & ? & _).
  destruct (decide (p < length v)%nat).
  - rewrite !list_lookup_lookup_total_lt
      by (rewrite ?length_cycle_perm; lia).
    f_equal. apply cycle_perm_frame; lia.
  - rewrite !lookup_ge_None_2 by (rewrite ?length_cycle_perm; lia). done.
Qed.

Lemma table_orient_frame modulus delta tn (p : nat) :
  Z.of_nat p ∉ l →
  cycle_orient modulus (Z.to_nat <$> l) delta
    (Z.to_nat (turn_amt_of tn)) v !! p = v !! p.
Proof.
  intros Hp. open_cycle.
  rewrite !not_elem_of_cons in Hp. destruct Hp as (? & ? & ? & ? & _).
  destruct (decide (p < length v)%nat).
  - rewrite !list_lookup_lookup_total_lt
      by (rewrite ?length_cycle_orient; lia).
    f_equal. apply cycle_orient_frame; lia.
  - rewrite !lookup_ge_None_2 by (rewrite ?length_cycle_orient; lia). done.
Qed.

Lemma table_perm_perm tn :
  cycle_perm (Z.to_nat <$> l) (Z.to_nat (turn_amt_of tn)) v ≡ₚ v.
Proof. open_cycle. apply cycle_perm_perm; lia. Qed.

Lemma table_perm_parity tn :
  NoDup v →
  parity (cycle_perm (Z.to_nat <$> l) (Z.to_nat (turn_amt_of tn)) v) =
  match tn with HalfTurn => parity v | _ => negb (parity v) end.
Proof. intros. open_cycle. apply cycle_perm_parity; (done || lia). Qed.

Lemma table_perm_four :
  cycle_perm (Z.to_nat <$> l) 1
    (cycle_perm (Z.to_nat <$> l) 1
       (cycle_perm (Z.to_nat <$> l) 1 (cycle_perm (Z.to_nat <$> l) 1 v)))
  = v.
Proof. open_cycle. apply cycle_perm_four; lia. Qed.

Lemma table_perm_inverse tn tn' :
  turn_amt_of tn + turn_amt_of tn' = 4 →
  cycle_perm (Z.to_nat <$> l) (Z.to_nat (turn_amt_of tn'))
    (cycle_perm (Z.to_nat <$> l) (Z.to_nat (turn_amt_of tn)) v) = v.
Proof. intros. open_cycle. apply cycle_perm_inverse; (done || lia). Qed.

Section Delta.
Context (modulus : Z) (delta : vec).
Context (Hm : modulus = 2 ∨ modulus = 3).
Context (Hdelta : delta_ok modulus delta).

Ltac open_delta :=
  destruct Hdelta as (d0 & d1 & d2 & d3 & -> & (? & ? & ? & ?) & ?).

Lemma table_orient_vsum tn :
  vsum (cycle_orient modulus (Z.to_nat <$> l) delta
          (Z.to_nat (turn_amt_of tn)) v) `mod` modulus
  = vsum v `mod` modulus.
Proof. open_cycle. open_delta. apply cycle_orient_vsum; (done || lia). Qed.

Lemma table_orient_range tn :
  Forall (λ o, 0 ≤ o < modulus) v →
  Forall (λ o, 0 ≤ o < modulus)
    (cycle_orient modulus (Z.to_nat <$> l) delta
       (Z.to_nat (turn_amt_of tn)) v).
Proof.
  intros. open_cycle. open_delta.
  apply cycle_orient_range; (done || lia).
Qed.

Lemma table_orient_four :
  Forall (λ o, 0 ≤ o < modulus) v →
  cycle_orient modulus (Z.to_nat <$> l) delta 1
    (cycle_orient modulus (Z.to_nat <$> l) delta 1
       (cycle_orient modulus (Z.to_nat <$> l) delta 1
          (cycle_orient modulus (Z.to_nat <$> l) delta 1 v))) = v.
Proof.
  intros. open_cycle. open_delta. apply cycle_orient_four; (done || lia).
Qed.

Lemma table_orient_inverse tn tn' :
  Forall (λ o, 0 ≤ o < modulus) v →
  turn_amt_of tn + turn_amt_of tn' = 4 →
  cycle_orient modulus (Z.to_nat <$> l) delta (Z.to_nat (turn_amt_of tn'))
    (cycle_orient modulus (Z.to_nat <$> l) delta
       (Z.to_nat (turn_amt_of tn)) v) = v.
Proof.
  intros. open_cycle. open_delta. apply cycle_orient_inverse; (done || lia).
Qed.

End Delta.
End CycleTable.

(** ** The reference header *)

Lemma reference_header_ok : @header_ok reference_header.
Proof.
  split; try reflexivity.
  apply (bool_decide_unpack _). by vm_compute.
Qed.

(** Why [header_ok] asks for residues: with the counter-clockwise twist
    stored as -1 the remainder of C++ leaves a twist of -1 after the move L
    on the solved cube. *)
Lemma signed_twist_leaves_range :
  corner_orientation <$> @perform_move signed_twist_header solved 3
  = Some [0; 1; -1; 0; 0; -1; 1; 0].
Proof. reflexivity. Qed.

(** Why the laws of the moves are stated on the data model: a twist
    outside {0,1,2} is reduced by the first turn and not restored. *)
Lemma overtwisted_not_restored :
  corner_orientation <$>
    @perform_moves reference_header overtwisted [0; 0; 0; 0]
  = Some [2; 0; 0; 0; 0; 0; 0; 0].
Proof. reflexivity. Qed.

(** ** The tables of the six faces *)

(** Membership in a literal list. *)
Ltac elem_of_literal :=
  repeat first [apply list_elem_of_here | apply list_elem_of_further].

Section Faces.
Context `{Header} (Hok : header_ok).

Lemma face_corners_ok f : cycle_ok 8 (corners_moved (face_tables f)).
Proof.
  pose proof corners_NoDup Hok as Hnd. unfold all_corners in Hnd.
  nodup_facts Hnd.
  destruct f; simpl; eexists _, _, _, _; (split; [reflexivity|]).
  all: split;
    [ repeat split; apply (corner_range Hok); unfold all_corners;
      elem_of_literal
    | repeat split; first [assumption | apply not_eq_sym; assumption] ].
Qed.

Lemma face_edges_ok f : cycle_ok 12 (edges_moved (face_tables f)).
Proof.
  pose proof edges_NoDup Hok as Hnd. unfold all_edges in Hnd.
  nodup_facts Hnd.
  destruct f; simpl; eexists _, _, _, _; (split; [reflexivity|]).
  all: split;
    [ repeat split; apply (edge_range Hok); unfold all_edges;
      elem_of_literal
    | repeat split; first [assumption | apply not_eq_sym; assumption] ].
Qed.

Lemma face_twist_ok f : delta_ok 3 (corner_twist (face_tables f)).
Proof.
  destruct f; simpl;
    rewrite ?(twist_none Hok), ?(twist_cw Hok), ?(twist_ccw Hok);
    eexists _, _, _, _; (split; [reflexivity|]); split; (lia || reflexivity).
Qed.

Lemma face_flip_ok f : delta_ok 2 (edge_flip (face_tables f)).
Proof.
  destruct f; simpl; rewrite ?(flip_none Hok), ?(flip_flip Hok);
    eexists _, _, _, _; (split; [reflexivity|]); split; (lia || reflexivity).
Qed.

End Faces.

(** ** One move on a cube *)

Lemma for_loop_this_corner t turn_amt iis f f' :
  for_loop (corner_body t turn_amt) iis f = Some f' → this f' = this f.
Proof.
  revert f. induction iis as [|ii iis IH]; intros f Hf; simpl in Hf.
  - by inversion Hf.
  - destruct (corner_body t turn_amt ii f) as [f1|] eqn:Hb; [|done].
    simpl in Hf. rewrite (IH _ Hf).
    unfold corner_body in Hb.
    repeat match type of Hb with
           | context [mbind _ ?m] =>
               let E := fresh in destruct m eqn:E; simpl in Hb; [|done]
           end.
    by inversion Hb.
Qed.

Lemma for_loop_this_edge t turn_amt iis f f' :
  for_loop (edge_body t turn_amt) iis f = Some f' → this f' = this f.
Proof.
  revert f. induction iis as [|ii iis IH]; intros f Hf; simpl in Hf.
  - by inversion Hf.
  - destruct (edge_body t turn_amt ii f) as [f1|] eqn:Hb; [|done].
    simpl in Hf. rewrite (IH _ Hf).
    unfold edge_body in Hb.
    repeat match type of Hb with
           | context [mbind _ ?m] =>
               let E := fresh in destruct m eqn:E; simpl in Hb; [|done]
           end.
    by inversion Hb.
Qed.

Section Moves.
Context `{Header}.

Lemma perform_move_method_this c move c' this' :
  perform_move_method c move = Some (c', this') → this' = c.
Proof.
  unfold perform_move_method. intros Hm.
  destruct (for_loop (corner_body _ _) _ _) as [f1|] eqn:H1; [|done].
  simpl in Hm.
  destruct (for_loop (edge_body _ _) _ _) as [f2|] eqn:H2; [|done].
  simpl in Hm. inversion Hm; subst.
  apply for_loop_this_edge in H2. apply for_loop_this_corner in H1.
  by rewrite H2, H1.
Qed.

Lemma move_tables_other move :
  move ∉ all_moves → move_tables move = mkTables [] [] [] [].
Proof.
  intros Hnot. unfold move_tables.
  repeat (case_decide as Hd;
          [ exfalso; apply Hnot; unfold all_moves;
            destruct Hd as [-> | [-> | ->]]; elem_of_literal
          | clear Hd ]).
  done.
Qed.

Lemma turn_amount_other move : move ∉ all_moves → turn_amount move = None.
Proof.
  intros Hnot. unfold turn_amount.
  repeat (case_decide as Hd;
          [ exfalso; apply Hnot; unfold all_moves;
            destruct Hd as [-> | [-> | [-> | [-> | [-> | ->]]]]];
            elem_of_literal
          | clear Hd ]).
  done.
Qed.

Lemma perform_move_method_other c move :
  move ∉ all_moves → perform_move_method c move = Some (c, c).
Proof.
  intros Hnot. unfold perform_move_method.
  rewrite (move_tables_other move Hnot). simpl. by destruct c.
Qed.

Context (Hok : header_ok).

Lemma perform_move_moved c f tn :
  sized c → perform_move c (move_id f tn) = Some (moved f tn c).
Proof.
  intros (? & ? & ? & ?). unfold perform_move.
  by rewrite (perform_move_method_closed Hok).
Qed.

Lemma moved_sized f tn c : sized c → sized (moved f tn c).
Proof.
  intros (Hcp & Hco & Hep & Heo). unfold sized, moved; simpl.
  pose proof (face_corners_ok Hok f) as Hc.
  pose proof (face_edges_ok Hok f) as He.
  rewrite table_perm_length by (by rewrite Hcp).
  rewrite table_orient_length by (by rewrite Hco).
  rewrite table_perm_length by (by rewrite Hep).
  rewrite table_orient_length by (by rewrite Heo).
  done.
Qed.

Lemma well_formed_sized c : well_formed c → sized c.
Proof. by intros []. Qed.

Lemma moved_well_formed f tn c : well_formed c → well_formed (moved f tn c).
Proof.
  intros Hwf. destruct (moved_sized f tn c (well_formed_sized c Hwf))
    as (? & ? & ? & ?).
  destruct Hwf as [Hcp Hco Hep Heo Htw Hfl].
  split; try done; unfold moved; simpl.
  - apply table_orient_range;
      [rewrite Hco; apply (face_corners_ok Hok)|by right
      |apply (face_twist_ok Hok)|done].
  - apply table_orient_range;
      [rewrite Heo; apply (face_edges_ok Hok)|by left
      |apply (face_flip_ok Hok)|done].
Qed.

Lemma moved_four f c :
  well_formed c →
  moved f Clockwise (moved f Clockwise (moved f Clockwise
    (moved f Clockwise c))) = c.
Proof.
  intros [Hcp Hco Hep Heo Htw Hfl]. destruct c as [cp co ep eo].
  simpl in *. unfold moved; simpl.
  change (Pos.to_nat 1) with 1%nat.
  f_equal.
  - apply table_perm_four. rewrite Hcp. apply (face_corners_ok Hok).
  - apply table_orient_four;
      [rewrite Hco; apply (face_corners_ok Hok)|by right
      |apply (face_twist_ok Hok)|done].
  - apply table_perm_four. rewrite Hep. apply (face_edges_ok Hok).
  - apply table_orient_four;
      [rewrite Heo; apply (face_edges_ok Hok)|by left
      |apply (face_flip_ok Hok)|done].
Qed.

Lemma moved_inverse f tn tn' c :
  well_formed c → turn_amt_of tn + turn_amt_of tn' = 4 →
  moved f tn' (moved f tn c) = c.
Proof.
  intros [Hcp Hco Hep Heo Htw Hfl] Hsum. destruct c as [cp co ep eo].
  simpl in *. unfold moved; simpl.
  f_equal.
  - apply table_perm_inverse; [|done].
    rewrite Hcp. apply (face_corners_ok Hok).
  - apply table_orient_inverse;
      [rewrite Hco; apply (face_corners_ok Hok)|by right
      |apply (face_twist_ok Hok)|done|done].
  - apply table_perm_inverse; [|done].
    rewrite Hep. apply (face_edges_ok Hok).
  - apply table_orient_inverse;
      [rewrite Heo; apply (face_edges_ok Hok)|by left
      |apply (face_flip_ok Hok)|done|done].
Qed.

Lemma perform_moves_cancel f tn tn' c :
  well_formed c → turn_amt_of tn + turn_amt_of tn' = 4 →
  perform_moves c [move_id f tn; move_id f tn'] = Some c.
Proof.
  intros Hwf Hsum. pose proof (well_formed_sized c Hwf) as Hs.
  cbn [perform_moves].
  rewrite perform_move_moved by done. cbn [mbind option_bind].
  rewrite perform_move_moved by (by apply moved_sized).
  cbn [mbind option_bind]. f_equal. by apply moved_inverse.
Qed.

End Moves.

(** ** The invariants of the cube *)

Lemma solved_well_formed : well_formed solved.
Proof. split; try reflexivity; simpl; repeat constructor; lia. Qed.

Lemma solved_invariant : cube_invariant solved.
Proof. split; reflexivity. Qed.

Lemma invariant_sized c : cube_invariant c → sized c.
Proof.
  intros [Hcp Hep ? ? _ _ _]. repeat split; try done.
  - by rewrite Hcp.
  - by rewrite Hep.
Qed.

Section Invariant.
Context `{Header} (Hok : header_ok).

Lemma moved_invariant f tn c :
  cube_invariant c → cube_invariant (moved f tn c).
Proof.
  intros Hinv. pose proof (invariant_sized c Hinv) as (Lcp & Lco & Lep & Leo).
  destruct Hinv as [Hcp Hep _ _ Htw Hfl Hpar].
  assert (cycle_ok (Z.of_nat (length (corner_permutation c)))
            (corners_moved (face_tables f))) as Ccp
    by (rewrite Lcp; apply (face_corners_ok Hok)).
  assert (cycle_ok (Z.of_nat (length (corner_orientation c)))
            (corners_moved (face_tables f))) as Cco
    by (rewrite Lco; apply (face_corners_ok Hok)).
  assert (cycle_ok (Z.of_nat (length (edge_permutation c)))
            (edges_moved (face_tables f))) as Cep
    by (rewrite Lep; apply (face_edges_ok Hok)).
  assert (cycle_ok (Z.of_nat (length (edge_orientation c)))
            (edges_moved (face_tables f))) as Ceo
    by (rewrite Leo; apply (face_edges_ok Hok)).
  split; unfold moved; simpl.
  - by rewrite table_perm_perm.
  - by rewrite table_perm_perm.
  - by rewrite table_orient_length.
  - by rewrite table_orient_length.
  - rewrite table_orient_vsum;
      [done|done|by right|apply (face_twist_ok Hok)].
  - rewrite table_orient_vsum;
      [done|done|by left|apply (face_flip_ok Hok)].
  - rewrite !table_perm_parity; try done.
    + by destruct tn; rewrite Hpar.
    + rewrite Hep. apply NoDup_seqZ.
    + rewrite Hcp. apply NoDup_seqZ.
Qed.

Lemma perform_move_invariant c move :
  cube_invariant c → move ∈ all_moves →
  ∃ c', perform_move c move = Some c' ∧ cube_invariant c'.
Proof.
  intros Hinv Hm. apply all_moves_id in Hm as (f & tn & ->).
  exists (moved f tn c). split.
  - apply (perform_move_moved Hok), invariant_sized, Hinv.
  - by apply moved_invariant.
Qed.

Lemma perform_move_well_formed c move c' :
  well_formed c → move ∈ all_moves → perform_move c move = Some c' →
  well_formed c'.
Proof.
  intros Hwf Hm Hc'. apply all_moves_id in Hm as (f & tn & ->).
  rewrite (perform_move_moved Hok) in Hc' by by apply well_formed_sized.
  inversion Hc'; subst. by apply moved_well_formed.
Qed.

Lemma reachable_invariant c : reachable c → cube_invariant c.
Proof.
  induction 1 as [|c move c' _ IH Hm Hc'].
  - apply solved_invariant.
  - destruct (perform_move_invariant c move IH Hm) as (c'' & E & Hinv).
    rewrite E in Hc'. by inversion Hc'; subst.
Qed.

Lemma reachable_well_formed c : reachable c → well_formed c.
Proof.
  induction 1 as [|c move c' _ IH Hm Hc'].
  - apply solved_well_formed.
  - by apply (perform_move_well_formed c move c').
Qed.

End Invariant.

(** ** Bounds of the coordinates *)

Lemma rank_loop_bound counts v :
  0 ≤ (rank_loop counts v).1 < (rank_loop counts v).2 ∧
  (rank_loop counts v).2 = Z.of_nat (fact (length v)).
Proof.
  induction v as [|x rest [IHb IHf]]; [done|].
  cbn [rank_loop]. destruct (rank_loop counts rest) as [ret f].
  cbn [fst snd length] in *.
  pose proof (length_filter (λ y, counts y x = true) rest) as Hc.
  set (cnt := length (filter (λ y, counts y x = true) rest)) in *.
  change (fact (S (length rest))) with (S (length rest) * fact (length rest))%nat.
  rewrite Nat2Z.inj_mul. split; [|lia]. nia.
Qed.

Lemma for_loop_digits (base : Z) (digits : vec) (acc : Z) (k : nat) :
  for_loop (λ ii ret, o ← vget digits ii; Some (base * ret + o))
           (seqZ (Z.of_nat k) (Z.of_nat (length digits) - Z.of_nat k - 1)) acc
  = Some (foldl (λ ret o, base * ret + o) acc
            (take (length digits - k - 1) (drop k digits))).
Proof.
  remember (length digits - k - 1)%nat as n eqn:Hn.
  revert k acc Hn. induction n as [|n IH]; intros k acc Hn.
  - rewrite seqZ_nil by lia. done.
  - rewrite seqZ_cons by lia. cbn [for_loop].
    rewrite vget_Some by lia. cbn [mbind option_bind].
    rewrite Nat2Z.id.
    replace (Z.succ (Z.of_nat k)) with (Z.of_nat (S k)) by lia.
    replace (Z.pred (Z.of_nat (length digits) - Z.of_nat k - 1))
      with (Z.of_nat (length digits) - Z.of_nat (S k) - 1) by lia.
    rewrite IH by lia.
    rewrite (drop_S digits (digits !!! k) k)
      by (apply list_lookup_lookup_total_lt; lia).
    done.
Qed.

Lemma digits_bound (base : Z) (digits : vec) :
  0 < base → Forall (λ o, 0 ≤ o < base) digits →
  0 ≤ foldl (λ ret o, base * ret + o) 0 digits < base ^ Z.of_nat (length digits).
Proof.
  intros Hb. induction digits as [|o digits IH] using rev_ind; [done|].
  rewrite Forall_app, Forall_singleton. intros [Hd Ho].
  rewrite foldl_app, length_app. cbn [foldl length].
  specialize (IH Hd).
  replace (Z.of_nat (length digits + 1)) with (Z.succ (Z.of_nat (length digits)))
    by lia.
  rewrite Z.pow_succ_r by lia. nia.
Qed.

Lemma coord_corner_orientation_bound c :
  well_formed c →
  ∃ x, coord_corner_orientation c = Some x ∧ 0 ≤ x ≤ 2186.
Proof.
  intros [_ Hco _ _ Htw _]. unfold coord_corner_orientation.
  rewrite decide_False by (intros E; by rewrite E in Hco).
  pose proof (for_loop_digits 3 (corner_orientation c) 0 0) as Hl.
  change (Z.of_nat 0) with 0 in Hl. rewrite Z.sub_0_r in Hl.
  rewrite Hco in Hl at 2.
  change (take (8 - 0 - 1) (drop 0 (corner_orientation c)))
    with (take 7 (corner_orientation c)) in Hl.
  rewrite Hl. eexists; split; [reflexivity|].
  pose proof (digits_bound 3 (take 7 (corner_orientation c))) as Hb.
  rewrite length_take_le in Hb by lia.
  specialize (Hb ltac:(lia) (Forall_take _ _ _ Htw)).
  change (3 ^ Z.of_nat 7) with 2187 in Hb. lia.
Qed.

Lemma coord_edge_orientation_bound c :
  well_formed c →
  ∃ x, coord_edge_orientation c = Some x ∧ 0 ≤ x ≤ 2047.
Proof.
  intros [_ _ _ Heo _ Hfl]. unfold coord_edge_orientation.
  rewrite decide_False by (intros E; by rewrite E in Heo).
  pose proof (for_loop_digits 2 (edge_orientation c) 0 0) as Hl.
  change (Z.of_nat 0) with 0 in Hl. rewrite Z.sub_0_r in Hl.
  rewrite Heo in Hl at 2.
  change (take (12 - 0 - 1) (drop 0 (edge_orientation c)))
    with (take 11 (edge_orientation c)) in Hl.
  rewrite Hl. eexists; split; [reflexivity|].
  pose proof (digits_bound 2 (take 11 (edge_orientation c))) as Hb.
  rewrite length_take_le in Hb by lia.
  specialize (Hb ltac:(lia) (Forall_take _ _ _ Hfl)).
  change (2 ^ Z.of_nat 11) with 2048 in Hb. lia.
Qed.

Lemma coord_corner_permutation_bound c :
  length (corner_permutation c) = 8%nat →
  0 ≤ coord_corner_permutation c ≤ 40319.
Proof.
  intros Hcp. unfold coord_corner_permutation.
  destruct (rank_loop_bound (λ y x, bool_decide (y < x))
              (corner_permutation c)) as [Hb Hf].
  rewrite Hcp in Hf. change (Z.of_nat (fact 8)) with 40320 in Hf. lia.
Qed.

Lemma slice_scan_spec edge_perm edges n k pos_rank order :
  (n ≤ length edge_perm)%nat →
  slice_scan edge_perm edges n k pos_rank order =
  ((mask_scan (slice_mask edges edge_perm) n k pos_rank).1,
   order ++ reverse (filter (λ e, e ∈ edges) (take n edge_perm))).
Proof.
  revert k pos_rank order.
  induction n as [|n IH]; intros k pos_rank order Hn.
  - simpl. by rewrite app_nil_r.
  - cbn [slice_scan mask_scan]. unfold slice_mask at 1.
    rewrite (list_lookup_total_fmap (λ e, bool_decide (e ∈ edges))
               edge_perm n) by lia.
    rewrite (take_S_r edge_perm n (edge_perm !!! n))
      by (apply list_lookup_lookup_total_lt; lia).
    rewrite filter_app, reverse_app.
    case_bool_decide as Hin.
    + rewrite filter_cons_True by done. rewrite filter_nil, reverse_singleton.
      rewrite IH by lia. by rewrite <- app_assoc.
    + rewrite filter_cons_False by done. rewrite filter_nil.
      rewrite IH by lia. done.
Qed.

Lemma masks_complete (mask : list bool) : mask ∈ masks (length mask).
Proof.
  induction mask as [|b mask IH]; [by left|].
  cbn [length masks]. apply elem_of_app.
  destruct b; [left|right]; by apply list_elem_of_fmap_2.
Qed.

Lemma mask_check_all : forallb mask_check (masks 12) = true.
Proof. by vm_compute. Qed.

Lemma mask_check_ok (mask : list bool) :
  length mask = 12%nat → mask_check mask = true.
Proof.
  intros Hlen. pose proof mask_check_all as Hall.
  rewrite forallb_forall in Hall. apply Hall.
  apply list_elem_of_In. rewrite <- Hlen. apply masks_complete.
Qed.

Lemma slice_mask_count edges edge_perm :
  length (filter (λ b, b = true) (slice_mask edges edge_perm))
  = length (filter (λ e, e ∈ edges) edge_perm).
Proof.
  unfold slice_mask. induction edge_perm as [|e l IH]; [done|].
  rewrite fmap_cons, !filter_cons.
  case_bool_decide; repeat case_decide; try done; simpl; by rewrite IH.
Qed.

Lemma slice_members edges edge_perm :
  slice_ok edges → edge_perm ≡ₚ seqZ 0 12 →
  length (filter (λ e, e ∈ edges) edge_perm) = 4%nat.
Proof.
  intros (Hnd & Hlen & Hr) Hp. rewrite Hp, <- Hlen.
  apply Permutation_length, NoDup_Permutation.
  - apply NoDup_filter, NoDup_seqZ.
  - done.
  - intros x. rewrite list_elem_of_filter, elem_of_seqZ.
    rewrite Forall_forall in Hr. split; [by intros []|].
    intros Hx. split; [done|]. specialize (Hr x Hx). lia.
Qed.

Lemma coord_slice_sorted_bound c edges :
  slice_ok edges → edge_permutation c ≡ₚ seqZ 0 12 →
  0 ≤ coord_slice_sorted c edges ≤ 11879 ∧
  0 ≤ coord_slice_sorted c edges `rem` 24 ≤ 23 ∧
  0 ≤ coord_slice_sorted c edges `quot` 24 ≤ 494 ∧
  (Forall (λ e, e ∉ edges) (drop 8 (edge_permutation c)) →
   coord_slice_sorted c edges ≤ 1679).
Proof.
  intros Hs Hp. pose proof (slice_members _ _ Hs Hp) as Hcount.
  assert (length (edge_permutation c) = 12%nat) as Hlen by (by rewrite Hp).
  unfold coord_slice_sorted.
  rewrite slice_scan_spec by lia. rewrite Hlen, <- Hlen, firstn_all.
  destruct Hs as (_ & -> & _). cbn [app].
  destruct (rank_loop_bound (λ y x, bool_decide (y > x))
     (reverse (filter (λ e, e ∈ edges) (edge_permutation c)))) as [Hb Hf].
  rewrite length_reverse, Hcount in Hf.
  change (Z.of_nat (fact 4)) with 24 in Hf.
  set (perm_rank := (rank_loop _ _).1) in *.
  pose proof (mask_check_ok (slice_mask edges (edge_permutation c))) as Hm.
  unfold slice_mask in Hm at 1. rewrite length_fmap in Hm.
  specialize (Hm Hlen). unfold mask_check in Hm.
  rewrite slice_mask_count, Hcount in Hm.
  rewrite bool_decide_eq_true_2 in Hm by done. cbn [implb] in Hm.
  apply andb_prop in Hm as [Hpos Hlow]. apply bool_decide_eq_true in Hpos.
  rewrite Hlen.
  set (pos_rank := (mask_scan _ 12 _ 0).1) in *.
  repeat split; try (Z.to_euclidean_division_equations; lia).
  intros Hfree.
  assert (drop 8 (slice_mask edges (edge_permutation c))
          = [false; false; false; false]) as Hd.
  { unfold slice_mask. rewrite <- fmap_drop.
    assert (length (drop 8 (edge_permutation c)) = 4%nat) as Hl4
      by (rewrite length_drop; lia).
    destruct (drop 8 (edge_permutation c)) as [|e0 [|e1 [|e2 [|e3 [|]]]]];
      try discriminate Hl4.
    rewrite !Forall_cons in Hfree. destruct Hfree as (? & ? & ? & ? & _).
    simpl. by rewrite !bool_decide_eq_false_2. }
  rewrite Hd in Hlow. rewrite bool_decide_eq_true_2 in Hlow by done.
  cbn [implb] in Hlow. apply bool_decide_eq_true in Hlow. lia.
Qed.

(** ** The cube seen through the names of its positions *)

Lemma view_of_inj names (v w : vec) n :
  Z.to_nat <$> names ≡ₚ seq 0 n → length v = n → length w = n →
  view_of names v = view_of names w → v = w.
Proof.
  intros Hp Hv Hw Hvw. apply vec_ext; [congruence|].
  intros p Hlt.
  assert (p ∈ Z.to_nat <$> names) as Hin.
  { rewrite Hp. apply elem_of_seq. lia. }
  apply list_elem_of_fmap in Hin as (c & -> & Hc).
  clear -Hvw Hc. unfold view_of in Hvw.
  induction names as [|x names IH]; [by apply elem_of_nil in Hc|].
  rewrite !fmap_cons in Hvw. inversion Hvw as [[Hx Hrest]].
  apply elem_of_cons in Hc as [->|Hc]; [done|by apply IH].
Qed.

Section View.
Context `{Header} (Hok : header_ok).

Lemma corner_positions : Z.to_nat <$> all_corners ≡ₚ seq 0 8.
Proof. by rewrite (corners_indices Hok). Qed.

Lemma edge_positions : Z.to_nat <$> all_edges ≡ₚ seq 0 12.
Proof. by rewrite (edges_indices Hok). Qed.

(** The facts [lk] needs about the positions of the corners. *)
Ltac corner_facts v Hlen :=
  let Hnd := fresh "Hnd" in
  let Hr := fresh "Hr" in
  assert (NoDup (Z.to_nat <$> all_corners)) as Hnd
    by (rewrite corner_positions; apply NoDup_seq);
  assert (Forall (λ p, (p < length v)%nat) (Z.to_nat <$> all_corners)) as Hr
    by (rewrite corner_positions, Hlen; by apply (bool_decide_unpack _));
  unfold all_corners in Hnd, Hr; cbn [fmap list_fmap] in Hnd, Hr;
  nodup_facts Hnd; rewrite !Forall_cons in Hr;
  destruct Hr as (? & ? & ? & ? & ? & ? & ? & ? & _).

Ltac edge_facts v Hlen :=
  let Hnd := fresh "Hnd" in
  let Hr := fresh "Hr" in
  assert (NoDup (Z.to_nat <$> all_edges)) as Hnd
    by (rewrite edge_positions; apply NoDup_seq);
  assert (Forall (λ p, (p < length v)%nat) (Z.to_nat <$> all_edges)) as Hr
    by (rewrite edge_positions, Hlen; by apply (bool_decide_unpack _));
  unfold all_edges in Hnd, Hr; cbn [fmap list_fmap] in Hnd, Hr;
  nodup_facts Hnd; rewrite !Forall_cons in Hr;
  destruct Hr as (? & ? & ? & ? & ? & ? & ? & ? & ? & ? & ? & ? & _).

Lemma view_of_cycle_perm_corners f tn v :
  length v = 8%nat →
  view_of all_corners
    (cycle_perm (Z.to_nat <$> corners_moved (face_tables f))
       (Z.to_nat (turn_amt_of tn)) v)
  = cycle_perm (Z.to_nat <$> corners_moved (@face_tables reference_header f))
      (Z.to_nat (turn_amt_of tn)) (view_of all_corners v).
Proof.
  intros Hlen. corner_facts v Hlen.
  destruct f, tn; unfold view_of, all_corners, cycle_perm; simpl; by lk.
Qed.

Lemma view_of_cycle_perm_edges f tn v :
  length v = 12%nat →
  view_of all_edges
    (cycle_perm (Z.to_nat <$> edges_moved (face_tables f))
       (Z.to_nat (turn_amt_of tn)) v)
  = cycle_perm (Z.to_nat <$> edges_moved (@face_tables reference_header f))
      (Z.to_nat (turn_amt_of tn)) (view_of all_edges v).
Proof.
  intros Hlen. edge_facts v Hlen.
  destruct f, tn; unfold view_of, all_edges, cycle_perm; simpl; by lk.
Qed.

Lemma view_of_cycle_orient_corners f tn v :
  length v = 8%nat →
  view_of all_corners
    (cycle_orient 3 (Z.to_nat <$> corners_moved (face_tables f))
       (corner_twist (face_tables f)) (Z.to_nat (turn_amt_of tn)) v)
  = cycle_orient 3
      (Z.to_nat <$> corners_moved (@face_tables reference_header f))
      (corner_twist (@face_tables reference_header f))
      (Z.to_nat (turn_amt_of tn)) (view_of all_corners v).
Proof.
  intros Hlen. corner_facts v Hlen.
  destruct f, tn; unfold view_of, all_corners, cycle_orient, delta_total;
    cbn [face_tables corner_twist];
    rewrite ?(twist_none Hok), ?(twist_cw Hok), ?(twist_ccw Hok);
    simpl; by lk.
Qed.

Lemma view_of_cycle_orient_edges f tn v :
  length v = 12%nat →
  view_of all_edges
    (cycle_orient 2 (Z.to_nat <$> edges_moved (face_tables f))
       (edge_flip (face_tables f)) (Z.to_nat (turn_amt_of tn)) v)
  = cycle_orient 2
      (Z.to_nat <$> edges_moved (@face_tables reference_header f))
      (edge_flip (@face_tables reference_header f))
      (Z.to_nat (turn_amt_of tn)) (view_of all_edges v).
Proof.
  intros Hlen. edge_facts v Hlen.
  destruct f, tn; unfold view_of, all_edges, cycle_orient, delta_total;
    cbn [face_tables edge_flip];
    rewrite ?(flip_none Hok), ?(flip_flip Hok);
    simpl; by lk.
Qed.

Lemma view_moved f tn c :
  sized c → view (moved f tn c) = @moved reference_header f tn (view c).
Proof.
  intros (Hcp & Hco & Hep & Heo). unfold view, moved.
  cbn [corner_permutation corner_orientation edge_permutation
       edge_orientation].
  by rewrite view_of_cycle_perm_corners, view_of_cycle_orient_corners,
    view_of_cycle_perm_edges, view_of_cycle_orient_edges.
Qed.

Lemma moved_all_sized fts c : sized c → sized (moved_all fts c).
Proof.
  revert c. induction fts as [|[f tn] fts IH]; intros c Hs; [done|].
  apply IH. by apply (moved_sized Hok).
Qed.

Lemma view_moved_all fts c :
  sized c → view (moved_all fts c) = @moved_all reference_header fts (view c).
Proof.
  revert c. induction fts as [|[f tn] fts IH]; intros c Hs; [done|].
  unfold moved_all; simpl. fold (moved_all fts (moved f tn c)).
  rewrite IH by (by apply (moved_sized Hok)).
  by rewrite view_moved.
Qed.

Lemma perform_moves_moved_all fts c :
  sized c →
  perform_moves c ((λ ft, move_id ft.1 ft.2) <$> fts)
  = Some (moved_all fts c).
Proof.
  revert c. induction fts as [|[f tn] fts IH]; intros c Hs; [done|].
  rewrite fmap_cons. cbn [perform_moves fst snd].
  rewrite (perform_move_moved Hok) by done. cbn [mbind option_bind].
  by rewrite IH by (by apply (moved_sized Hok)).
Qed.

Lemma view_inj c c' : sized c → sized c' → view c = view c' → c = c'.
Proof.
  intros (? & ? & ? & ?) (? & ? & ? & ?) Hv.
  pose proof (f_equal corner_permutation Hv) as E1.
  pose proof (f_equal corner_orientation Hv) as E2.
  pose proof (f_equal edge_permutation Hv) as E3.
  pose proof (f_equal edge_orientation Hv) as E4.
  destruct c, c'.
  cbn [view corner_permutation corner_orientation edge_permutation
       edge_orientation] in *.
  f_equal.
  - by apply (view_of_inj all_corners _ _ 8 corner_positions).
  - by apply (view_of_inj all_corners _ _ 8 corner_positions).
  - by apply (view_of_inj all_edges _ _ 12 edge_positions).
  - by apply (view_of_inj all_edges _ _ 12 edge_positions).
Qed.

Lemma view_solved :
  view solved = mkCube all_corners [0; 0; 0; 0; 0; 0; 0; 0]
                       all_edges [0; 0; 0; 0; 0; 0; 0; 0; 0; 0; 0; 0].
Proof.
  assert (∀ n names v, Forall (λ c, 0 ≤ c < n) names →
            (∀ i, (i < Z.to_nat n)%nat → v !!! i = 0) →
            view_of names v = (λ _, 0) <$> names) as Hzero.
  { intros n names v Hr Hv. unfold view_of. apply list_fmap_ext.
    intros i c Hc. apply Hv. rewrite Forall_lookup in Hr.
    specialize (Hr i c Hc). lia. }
  assert (∀ n names, Forall (λ c, 0 ≤ c < n) names →
            view_of names (seqZ 0 n) = names) as Hid.
  { intros n names Hr. unfold view_of. rewrite <- (list_fmap_id names) at 2.
    apply list_fmap_ext. intros i c Hc. rewrite Forall_lookup in Hr.
    specialize (Hr i c Hc). rewrite lookup_total_seqZ_lt by lia.
    unfold id. lia. }
  unfold view, solved. cbn [corner_permutation corner_orientation
                            edge_permutation edge_orientation].
  f_equal.
  - apply (Hid 8). apply Forall_forall, (corner_range Hok).
  - by rewrite (Hzero 8);
      [|apply Forall_forall, (corner_range Hok)
       |intros i Hi; do 8 (destruct i as [|i]; [done|]); simpl in Hi; lia].
  - apply (Hid 12). apply Forall_forall, (edge_range Hok).
  - by rewrite (Hzero 12);
      [|apply Forall_forall, (edge_range Hok)
       |intros i Hi; do 12 (destruct i as [|i]; [done|]); simpl in Hi; lia].
Qed.

End View.

(** * The claims about the move engine *)

Section MoveClaims.
Context `{Header}.

(** C1.  On every cube state (vectors of 8 and 12 entries, twists in
    {0,1,2}, flips in {0,1}) and for each of the six faces, four
    applications of the quarter clockwise move of the face by
    [perform_move] return exactly the state they started from. *)
Theorem quarter_turn_four_times (Hok : header_ok) (c : Cube) (move : Z) :
  well_formed c →
  move ∈ [MOVE_U; MOVE_L; MOVE_F; MOVE_R; MOVE_B; MOVE_D] →
  perform_moves c [move; move; move; move] = Some c.
Proof.
  intros Hwf Hm.
  assert (∃ f, move = move_id f Clockwise) as [f ->].
  { rewrite !elem_of_cons, elem_of_nil in Hm.
    destruct Hm as [->|[->|[->|[->|[->|[->|[]]]]]]];
      [by exists FaceU|by exists FaceL|by exists FaceF
      |by exists FaceR|by exists FaceB|by exists FaceD]. }
  pose proof (well_formed_sized c Hwf) as Hs.
  cbn [perform_moves].
  rewrite (perform_move_moved Hok) by done. cbn [mbind option_bind].
  rewrite (perform_move_moved Hok) by (by apply (moved_sized Hok)).
  cbn [mbind option_bind].
  rewrite (perform_move_moved Hok) by (by do 2 apply (moved_sized Hok)).
  cbn [mbind option_bind].
  rewrite (perform_move_moved Hok) by (by do 3 apply (moved_sized Hok)).
  cbn [mbind option_bind].
  f_equal. by apply (moved_four Hok).
Qed.

(** C6.  On every cube state and for each of the six faces, the quarter
    clockwise move followed by the quarter counter-clockwise move of the
    face, and the two in the other order, return exactly the state they
    started from. *)
Theorem quarter_turn_inverse (Hok : header_ok) (c : Cube) (cw ccw : Z) :
  well_formed c →
  (cw, ccw) ∈ [(MOVE_U, MOVE_UP); (MOVE_L, MOVE_LP); (MOVE_F, MOVE_FP);
               (MOVE_R, MOVE_RP); (MOVE_B, MOVE_BP); (MOVE_D, MOVE_DP)] →
  perform_moves c [cw; ccw] = Some c ∧ perform_moves c [ccw; cw] = Some c.
Proof.
  intros Hwf Hm.
  assert (∃ f, cw = move_id f Clockwise ∧ ccw = move_id f CounterClockwise)
    as (f & -> & ->).
  { rewrite !elem_of_cons, elem_of_nil in Hm.
    destruct Hm as [E|[E|[E|[E|[E|[E|[]]]]]]]; inversion E; subst;
      [by exists FaceU|by exists FaceL|by exists FaceF
      |by exists FaceR|by exists FaceB|by exists FaceD]. }
  split; by apply (perform_moves_cancel Hok).
Qed.


(** C9.  A call of [perform_move] leaves the object it is called on as it
    was; on a cube of the right sizes it is defined and, at every corner and
    edge position outside the cycles of the move, the returned cube holds
    the permutation and orientation entries of the input. *)
Theorem perform_move_frame (Hok : header_ok) (c : Cube) (move : Z) :
  sized c →
  (∀ c' this', perform_move_method c move = Some (c', this') → this' = c) ∧
  ∃ c', perform_move_method c move = Some (c', c) ∧
    (∀ p : nat, Z.of_nat p ∉ corners_moved (move_tables move) →
       corner_permutation c' !! p = corner_permutation c !! p ∧
       corner_orientation c' !! p = corner_orientation c !! p) ∧
    (∀ p : nat, Z.of_nat p ∉ edges_moved (move_tables move) →
       edge_permutation c' !! p = edge_permutation c !! p ∧
       edge_orientation c' !! p = edge_orientation c !! p).
Proof.
  intros Hs. split; [intros c' this'; apply perform_move_method_this|].
  destruct (decide (move ∈ all_moves)) as [Hm|Hm].
  - apply all_moves_id in Hm as (f & tn & ->).
    destruct Hs as (Hcp & Hco & Hep & Heo).
    exists (moved f tn c). split; [by apply (perform_move_method_closed Hok)|].
    rewrite (move_tables_id Hok). unfold moved; simpl. split.
    + intros p Hp. split.
      * apply table_perm_frame; [|done].
        rewrite Hcp. apply (face_corners_ok Hok).
      * apply table_orient_frame; [|done].
        rewrite Hco. apply (face_corners_ok Hok).
    + intros p Hp. split.
      * apply table_perm_frame; [|done].
        rewrite Hep. apply (face_edges_ok Hok).
      * apply table_orient_frame; [|done].
        rewrite Heo. apply (face_edges_ok Hok).
  - exists c. split; [by apply perform_move_method_other|done].
Qed.

(** C10.  For a move value that is none of the 18 constants the four
    vectors of the first switch stay empty, each update loop runs over an
    empty range, and [perform_move] returns a cube equal to its input,
    whatever the input and without any error. *)
Theorem unknown_move_returns_input (c : Cube) (move : Z) :
  move ∉ all_moves →
  move_tables move = mkTables [] [] [] [] ∧
  seqZ 0 (Z.of_nat (length (corners_moved (move_tables move)))) = [] ∧
  seqZ 0 (Z.of_nat (length (edges_moved (move_tables move)))) = [] ∧
  perform_move c move = Some c.
Proof.
  intros Hm. rewrite (move_tables_other move Hm). repeat split.
  unfold perform_move. by rewrite perform_move_method_other.
Qed.

(** C4, as the code has it.  A move value outside the 18 constants is not
    reported: the turn amount stays uninitialised and is never read, and
    [perform_move] returns a cube for every input. *)
Theorem unknown_move_not_reported (c : Cube) (move : Z) :
  move ∉ all_moves →
  turn_amount move = None ∧ is_Some (perform_move c move).
Proof.
  intros Hm. split; [by apply turn_amount_other|].
  unfold perform_move. rewrite perform_move_method_other by done. by eexists.
Qed.

(** C7.  From the solved cube, the sequence R, U, R', U' applied six
    times (24 calls of [perform_move]) returns exactly the solved cube. *)
Theorem commutator_six_times (Hok : header_ok) :
  perform_moves solved
    (concat (replicate 6 [MOVE_R; MOVE_U; MOVE_RP; MOVE_UP])) = Some solved.
Proof.
  change (concat (replicate 6 [MOVE_R; MOVE_U; MOVE_RP; MOVE_UP]))
    with ((λ ft, move_id ft.1 ft.2) <$>
            concat (replicate 6 [(FaceR, Clockwise); (FaceU, Clockwise);
                                 (FaceR, CounterClockwise);
                                 (FaceU, CounterClockwise)])).
  assert (sized solved) as Hs by (by repeat split).
  rewrite (perform_moves_moved_all Hok) by done. f_equal.
  apply (view_inj Hok); [by apply (moved_all_sized Hok)|done|].
  rewrite (view_moved_all Hok) by done. rewrite (view_solved Hok).
  unfold all_corners, all_edges. by vm_compute.
Qed.

End MoveClaims.

(** Witness of C1: four turns of U on the solved cube. *)
Lemma quarter_turn_four_times_witness :
  @perform_moves reference_header solved [0; 0; 0; 0] = Some solved.
Proof.
  apply (@quarter_turn_four_times reference_header reference_header_ok solved 0).
  - split; try reflexivity; simpl; repeat constructor; lia.
  - left.
Defined.

(** Witness of C6: R and R' on the solved cube, in both orders. *)
Lemma quarter_turn_inverse_witness :
  @perform_moves reference_header solved [9; 11] = Some solved ∧
  @perform_moves reference_header solved [11; 9] = Some solved.
Proof.
  apply (@quarter_turn_inverse reference_header reference_header_ok solved 9 11).
  - split; try reflexivity; simpl; repeat constructor; lia.
  - do 3 right. left.
Defined.


(** Witness of C9: the move L on the solved cube. *)
Lemma perform_move_frame_witness :
  ∃ c', @perform_move_method reference_header solved 3 = Some (c', solved) ∧
    (∀ p : nat, Z.of_nat p ∉ [1; 5; 6; 2] →
       corner_permutation c' !! p = corner_permutation solved !! p ∧
       corner_orientation c' !! p = corner_orientation solved !! p) ∧
    (∀ p : nat, Z.of_nat p ∉ [2; 9; 6; 10] →
       edge_permutation c' !! p = edge_permutation solved !! p ∧
       edge_orientation c' !! p = edge_orientation solved !! p).
Proof.
  apply (proj2 (@perform_move_frame reference_header reference_header_ok
                  solved 3 ltac:(repeat split))).
Defined.

(** Witness of C10: the value 18 on the solved cube. *)
Lemma unknown_move_returns_input_witness :
  @perform_move reference_header solved 18 = Some solved.
Proof.
  apply (@unknown_move_returns_input reference_header solved 18).
  apply (bool_decide_eq_false_1 _). reflexivity.
Defined.

(** Witness of C4 as amended: the value -1 on the solved cube. *)
Lemma unknown_move_not_reported_witness :
  is_Some (@perform_move reference_header solved (-1)).
Proof.
  apply (@unknown_move_not_reported reference_header solved (-1)).
  apply (bool_decide_eq_false_1 _). reflexivity.
Defined.

(** Counterexample to C4: the value 18 is none of the 18 constants of the
    reference header, and [perform_move] returns a cube all the same. *)
Lemma unknown_move_counterexample :
  (18 ∉ @all_moves reference_header) ∧
  @perform_move reference_header solved 18 = Some solved.
Proof.
  split; [|reflexivity]. apply (bool_decide_eq_false_1 _). reflexivity.
Qed.

(** Witness of C7: the sequence under the reference header. *)
Lemma commutator_six_times_witness :
  @perform_moves reference_header solved
    [9; 0; 11; 2; 9; 0; 11; 2; 9; 0; 11; 2;
     9; 0; 11; 2; 9; 0; 11; 2; 9; 0; 11; 2] = Some solved.
Proof.
  apply (@commutator_six_times reference_header reference_header_ok).
Defined.

Lemma slices_ok `{Header} (Hok : header_ok) :
  slice_ok [EDGE_FR; EDGE_FL; EDGE_BL; EDGE_BR] ∧
  slice_ok [EDGE_UF; EDGE_UB; EDGE_DB; EDGE_DF] ∧
  slice_ok [EDGE_UR; EDGE_UL; EDGE_DL; EDGE_DR].
Proof.
  pose proof edges_NoDup Hok as Hnd. unfold all_edges in Hnd.
  nodup_facts Hnd.
  repeat split.
  all: try (repeat (apply NoDup_cons; split;
                    [rewrite ?not_elem_of_cons; repeat split;
                     first [assumption | apply not_eq_sym; assumption
                           | apply not_elem_of_nil]|]);
            apply NoDup_nil_2).
  all: rewrite Forall_forall; intros e He; apply (edge_range Hok);
    unfold all_edges; rewrite !elem_of_cons, elem_of_nil in He;
    destruct He as [->|[->|[->|[->|[]]]]]; elem_of_literal.
Qed.

(** ** Where the position rank of a slice is small or large *)

Lemma mask_check_low_all : forallb mask_check_low (masks 12) = true.
Proof. by vm_compute. Qed.

Lemma mask_check_low_ok (mask : list bool) :
  length mask = 12%nat → mask_check_low mask = true.
Proof.
  intros Hlen. pose proof mask_check_low_all as Hall.
  rewrite forallb_forall in Hall. apply Hall.
  apply list_elem_of_In. rewrite <- Hlen. apply masks_complete.
Qed.

Lemma length_slice_mask edges edge_perm :
  length (slice_mask edges edge_perm) = length edge_perm.
Proof. unfold slice_mask. by rewrite length_fmap. Qed.

Lemma slice_mask_lookup edges edge_perm (i : nat) :
  (i < length edge_perm)%nat →
  slice_mask edges edge_perm !!! i = bool_decide (edge_perm !!! i ∈ edges).
Proof.
  intros Hi. unfold slice_mask.
  by rewrite (list_lookup_total_fmap (λ e, bool_decide (e ∈ edges))).
Qed.

Lemma coord_slice_sorted_low c edges :
  slice_ok edges → edge_permutation c ≡ₚ seqZ 0 12 →
  (edge_permutation c !!! 11%nat ∈ edges →
   7920 ≤ coord_slice_sorted c edges) ∧
  (coord_slice_sorted c edges `quot` 24 = 0 →
   edge_permutation c !!! 0%nat ∈ edges).
Proof.
  intros Hs Hp. pose proof (slice_members _ _ Hs Hp) as Hcount.
  assert (length (edge_permutation c) = 12%nat) as Hlen by (by rewrite Hp).
  unfold coord_slice_sorted.
  rewrite slice_scan_spec by lia. rewrite Hlen, <- Hlen, firstn_all.
  destruct Hs as (_ & -> & _). cbn [app].
  destruct (rank_loop_bound (λ y x, bool_decide (y > x))
     (reverse (filter (λ e, e ∈ edges) (edge_permutation c)))) as [Hb Hf].
  rewrite length_reverse, Hcount in Hf.
  change (Z.of_nat (fact 4)) with 24 in Hf.
  set (perm_rank := (rank_loop _ _).1) in *.
  pose proof (mask_check_low_ok (slice_mask edges (edge_permutation c))) as Hm.
  pose proof (mask_check_ok (slice_mask edges (edge_permutation c))) as Hm'.
  rewrite length_slice_mask in Hm, Hm'.
  specialize (Hm Hlen). specialize (Hm' Hlen).
  unfold mask_check_low in Hm. unfold mask_check in Hm'.
  rewrite slice_mask_count, Hcount in Hm, Hm'.
  rewrite bool_decide_eq_true_2 in Hm, Hm' by done. cbn [implb] in Hm, Hm'.
  apply andb_prop in Hm as [Hhigh Hzero].
  apply andb_prop in Hm' as [Hpos _]. apply bool_decide_eq_true in Hpos.
  rewrite slice_mask_lookup in Hhigh, Hzero by lia.
  rewrite Hlen.
  set (pos_rank := (mask_scan _ 12 _ 0).1) in *.
  split.
  - intros Hin. rewrite bool_decide_eq_true_2 in Hhigh by done.
    cbn [implb] in Hhigh. apply bool_decide_eq_true in Hhigh. lia.
  - intros Hq.
    assert (pos_rank = 0) as E by (Z.to_euclidean_division_equations; lia).
    rewrite bool_decide_eq_true_2 in Hzero by done. cbn [implb] in Hzero.
    by apply bool_decide_eq_true in Hzero.
Qed.

Section FarStates.
Context `{Header} (Hok : header_ok).

Lemma reachable_moved_all fts c : reachable c → reachable (moved_all fts c).
Proof.
  revert c. induction fts as [|[f tn] fts IH]; intros c Hr; [done|].
  apply IH. apply (reachable_move c (move_id f tn)); [done| |].
  - apply all_moves_id. by exists f, tn.
  - apply (perform_move_moved Hok), invariant_sized.
    by apply (reachable_invariant Hok).
Qed.

Lemma bring_UF_spec i fts e :
  bring_UF !! i = Some fts → all_edges !! i = Some e →
  edge_permutation (moved_all fts solved) !!! Z.to_nat e = EDGE_UF.
Proof.
  intros Hfts He.
  assert (sized solved) as Hs by (by repeat split).
  pose proof (f_equal edge_permutation (view_moved_all Hok fts solved Hs))
    as Hv.
  rewrite (view_solved Hok) in Hv.
  assert (view_of all_edges (edge_permutation (moved_all fts solved)) !! i
          = Some (edge_permutation (moved_all fts solved) !!! Z.to_nat e))
    as Hat by (unfold view_of; by rewrite list_lookup_fmap, He).
  change (edge_permutation (view (moved_all fts solved)))
    with (view_of all_edges (edge_permutation (moved_all fts solved))) in Hv.
  rewrite Hv in Hat. clear Hv He. unfold all_corners, all_edges in Hat.
  do 12 (destruct i as [|i];
         [ cbn in Hfts; inversion Hfts; subst; clear Hfts;
           match type of Hat with
           | ?l = _ => let r := eval vm_compute in l in
                       change l with r in Hat
           end;
           by inversion Hat |]).
  done.
Qed.

(** Under every header some reachable cube has an edge permutation
    coordinate above 40319. *)
Lemma edge_permutation_far :
  ∃ c, reachable c ∧ 40319 < coord_edge_permutation c.
Proof.
  assert (11 ∈ all_edges) as Hin.
  { rewrite (edges_indices Hok). apply elem_of_seqZ. lia. }
  apply list_elem_of_lookup in Hin as [i Hi].
  assert (∃ fts, bring_UF !! i = Some fts) as [fts Hfts].
  { apply lookup_lt_is_Some. apply lookup_lt_Some in Hi.
    unfold all_edges in Hi. simpl in *. lia. }
  exists (moved_all fts solved).
  assert (reachable (moved_all fts solved)) as Hr
    by (apply reachable_moved_all; constructor).
  split; [done|].
  pose proof (bring_UF_spec i fts 11 Hfts Hi) as Hat.
  change (Z.to_nat 11) with 11%nat in Hat.
  pose proof (reachable_invariant Hok _ Hr) as Hinv.
  destruct (slices_ok Hok) as (Hud & Hrl & Hfb).
  pose proof (coord_slice_sorted_low _ _ Hrl (inv_ep _ Hinv)) as [Hhigh _].
  pose proof (coord_slice_sorted_bound _ _ Hfb (inv_ep _ Hinv))
    as (_ & Pfb & _ & _).
  unfold coord_edge_permutation, edge_permutation_calc, coord_rl_sorted,
    coord_fb_sorted.
  assert (7920 ≤ coord_slice_sorted (moved_all fts solved)
                    [EDGE_UF; EDGE_UB; EDGE_DB; EDGE_DF]) as Hge.
  { apply Hhigh. rewrite Hat. left. }
  lia.
Qed.

(** Under every header the edge permutation coordinate and the unsorted UD
    coordinate of the solved cube are not both 0: two slices cannot both
    hold the edge numbered 0. *)
Lemma solved_slices_not_zero :
  ¬ (coord_edge_permutation solved = 0 ∧ coord_ud_unsorted solved = 0).
Proof.
  intros [Hep Hud0].
  destruct (slices_ok Hok) as (Hud & Hrl & Hfb).
  pose proof (solved_invariant) as Hinv.
  pose proof (coord_slice_sorted_low _ _ Hrl (inv_ep _ Hinv)) as [_ Hrl0].
  pose proof (coord_slice_sorted_low _ _ Hud (inv_ep _ Hinv)) as [_ Hud0'].
  pose proof (coord_slice_sorted_bound _ _ Hrl (inv_ep _ Hinv))
    as (Brl & _ & _ & _).
  pose proof (coord_slice_sorted_bound _ _ Hfb (inv_ep _ Hinv))
    as (_ & Pfb & _ & _).
  unfold coord_edge_permutation, edge_permutation_calc, coord_rl_sorted,
    coord_fb_sorted, coord_ud_unsorted, ud_unsorted_calc, coord_ud_sorted
    in *.
  assert (coord_slice_sorted solved [EDGE_UF; EDGE_UB; EDGE_DB; EDGE_DF] = 0)
    as E by lia.
  rewrite E in Hrl0. specialize (Hrl0 eq_refl). specialize (Hud0' Hud0).
  change (edge_permutation solved !!! 0%nat) with 0 in Hrl0, Hud0'.
  pose proof edges_NoDup Hok as Hnd. unfold all_edges in Hnd.
  nodup_facts Hnd.
  rewrite !elem_of_cons, elem_of_nil in Hrl0, Hud0'.
  destruct Hrl0 as [E1|[E1|[E1|[E1|[]]]]];
    destruct Hud0' as [E2|[E2|[E2|[E2|[]]]]];
    rewrite E1 in E2; first [done | by symmetry in E2].
Qed.

(** Under every header the composed edge permutation coordinate and the
    lexicographic rank of the 8 edges outside the UD slice differ on some
    reachable cube. *)
Lemma composed_is_not_rank :
  ∃ c, reachable c ∧ coord_edge_permutation c ≠ spec_edge_permutation_rank c.
Proof.
  destruct edge_permutation_far as (c & Hr & Hfar).
  exists c. split; [done|].
  pose proof (reachable_invariant Hok _ Hr) as Hinv.
  destruct (slices_ok Hok) as (Hud & _ & _).
  unfold spec_edge_permutation_rank.
  destruct (rank_loop_bound (λ y x, bool_decide (y < x))
     (filter (λ e, e ∉ [EDGE_FR; EDGE_FL; EDGE_BL; EDGE_BR])
             (edge_permutation c))) as [Hb Hf].
  assert (length (filter (λ e, e ∉ [EDGE_FR; EDGE_FL; EDGE_BL; EDGE_BR])
                         (edge_permutation c)) = 8%nat) as Hlen.
  { pose proof (slice_members _ _ Hud (inv_ep _ Hinv)) as Hcount.
    pose proof (filter_app_complement
                  (λ e, e ∈ [EDGE_FR; EDGE_FL; EDGE_BL; EDGE_BR])
                  (edge_permutation c)) as Hp.
    apply Permutation_length in Hp. rewrite length_app, Hcount in Hp.
    rewrite (inv_ep _ Hinv) in Hp at 2. rewrite length_seqZ in Hp.
    change (Z.to_nat 12) with 12%nat in Hp. lia. }
  rewrite Hlen in Hf. change (Z.of_nat (fact 8)) with 40320 in Hf. lia.
Qed.

(** With the UD-slice edges numbered 8 to 11 and sitting in the UD slice,
    no edge of the RL slice is at one of the positions 8 to 11. *)
Lemma ud_in_slice_frees_rl c :
  [EDGE_FR; EDGE_FL; EDGE_BL; EDGE_BR] ≡ₚ [8; 9; 10; 11] →
  length (edge_permutation c) = 12%nat → ud_in_slice c →
  Forall (λ e, e ∉ [EDGE_UF; EDGE_UB; EDGE_DB; EDGE_DF])
         (drop 8 (edge_permutation c)).
Proof.
  intros Hp Hlen Hin.
  assert (∀ e, e ∈ [EDGE_FR; EDGE_FL; EDGE_BL; EDGE_BR] →
               e ∉ [EDGE_UF; EDGE_UB; EDGE_DB; EDGE_DF]) as Hdisj.
  { pose proof edges_NoDup Hok as Hnd. unfold all_edges in Hnd.
    nodup_facts Hnd. intros e. rewrite !elem_of_cons, !elem_of_nil.
    intros [->|[->|[->|[->|[]]]]] [E|[E|[E|[E|[]]]]];
      first [done | by symmetry in E]. }
  assert (∀ p, p ∈ [8; 9; 10; 11] →
            edge_permutation c !!! Z.to_nat p
            ∉ [EDGE_UF; EDGE_UB; EDGE_DB; EDGE_DF]) as Hfree.
  { intros p Hp8. apply Hdisj. rewrite <- Hp in Hp8.
    unfold ud_in_slice in Hin. rewrite Forall_forall in Hin. by apply Hin. }
  destruct (edge_permutation c)
    as [|e0 [|e1 [|e2 [|e3 [|e4 [|e5 [|e6 [|e7 [|e8 [|e9 [|e10 [|e11 [|]]]]]]]]]]]]];
    try discriminate Hlen.
  cbn [drop]. repeat apply Forall_cons_2; [..|apply Forall_nil_2].
  - apply (Hfree 8). elem_of_literal.
  - apply (Hfree 9). elem_of_literal.
  - apply (Hfree 10). elem_of_literal.
  - apply (Hfree 11). elem_of_literal.
Qed.

End FarStates.

(** ** The order rank of the solved cube *)

Lemma filter_none (P : Z → Prop) `{∀ x, Decision (P x)} (l : vec) :
  Forall (λ y, ¬ P y) l → filter P l = [].
Proof.
  induction l as [|x l IH]; [done|]. rewrite Forall_cons. intros [Hx Hl].
  rewrite filter_cons, decide_False by done. by apply IH.
Qed.

Lemma rank_loop_sorted counts (v : vec) :
  StronglySorted (λ x y, counts y x = false) v → (rank_loop counts v).1 = 0.
Proof.
  induction v as [|x rest IH]; [done|].
  rewrite StronglySorted_cons. intros [Hx Hrest]. specialize (IH Hrest).
  cbn [rank_loop]. destruct (rank_loop counts rest) as [ret f].
  cbn [fst] in *. subst ret.
  rewrite filter_none; [done|].
  eapply Forall_impl; [exact Hx|]. cbv beta. intros y ->. done.
Qed.

Lemma sorted_filter (R : relation Z) (P : Z → Prop) `{∀ x, Decision (P x)}
    (l : vec) :
  StronglySorted R l → StronglySorted R (filter P l).
Proof.
  induction l as [|x l IH]; [done|].
  rewrite StronglySorted_cons. intros [Hx Hl]. specialize (IH Hl).
  rewrite filter_cons. case_decide; [|done].
  apply StronglySorted_cons. split; [|done].
  rewrite Forall_forall in Hx. apply Forall_forall. intros y Hy.
  apply list_elem_of_filter in Hy as [_ Hy]. by apply Hx.
Qed.

Lemma sorted_reverse (R : relation Z) (l : vec) :
  StronglySorted R l → StronglySorted (λ x y, R y x) (reverse l).
Proof.
  induction l as [|x l IH]; [constructor|].
  rewrite StronglySorted_cons. intros [Hx Hl]. specialize (IH Hl).
  rewrite reverse_cons. apply StronglySorted_app. split; [|split].
  - intros x1 x2 H1 H2. apply list_elem_of_singleton in H2 as ->.
    rewrite elem_of_reverse in H1. rewrite Forall_forall in Hx. by apply Hx.
  - done.
  - apply StronglySorted_cons. split; constructor.
Qed.

Lemma sorted_impl (R R' : relation Z) (l : vec) :
  (∀ x y, R x y → R' x y) → StronglySorted R l → StronglySorted R' l.
Proof.
  intros HR. induction l as [|x l IH]; [constructor|].
  rewrite !StronglySorted_cons. intros [Hx Hl]. split; [|by apply IH].
  eapply Forall_impl; [exact Hx|]. apply HR.
Qed.

Lemma solved_order_rank (edges : vec) :
  coord_slice_sorted solved edges `rem` 24 = 0.
Proof.
  unfold coord_slice_sorted.
  rewrite slice_scan_spec by done. cbn [app].
  change (length (edge_permutation solved)) with 12%nat.
  change (take 12 (edge_permutation solved)) with (edge_permutation solved).
  rewrite rank_loop_sorted.
  - rewrite Z.add_0_r, Z.mul_comm. by apply Z.rem_mul.
  - apply (sorted_impl (λ x y, y < x)).
    + intros x y Hxy. apply bool_decide_eq_false. lia.
    + apply (sorted_reverse Z.lt), sorted_filter.
      repeat (apply StronglySorted_cons; split; [repeat constructor|]).
      constructor.
Qed.

(** * The claims about the coordinates *)

Section CoordinateClaims.
Context `{Header}.

(** C2, as the code has it.  On every cube reached from the solved cube by
    the 18 moves the corner orientation coordinate is in [0,2186], the edge
    orientation coordinate in [0,2047], the corner permutation coordinate in
    [0,40319], each of the three sorted slice coordinates in [0,11879], the
    unsorted UD coordinate in [0,494] and the UD permutation coordinate in
    [0,23]; the edge permutation coordinate is in [0,285119], and in
    [0,40319] when no edge of the RL slice sits at one of the positions
    8 to 11, as is the case when the header numbers the UD-slice edges 8
    to 11 and the UD-slice edges are in the UD slice. *)
Theorem coordinate_ranges (Hok : header_ok) (c : Cube) :
  reachable c →
  (∃ x, coord_corner_orientation c = Some x ∧ 0 ≤ x ≤ 2186) ∧
  (∃ x, coord_edge_orientation c = Some x ∧ 0 ≤ x ≤ 2047) ∧
  0 ≤ coord_corner_permutation c ≤ 40319 ∧
  0 ≤ coord_ud_sorted c ≤ 11879 ∧
  0 ≤ coord_rl_sorted c ≤ 11879 ∧
  0 ≤ coord_fb_sorted c ≤ 11879 ∧
  0 ≤ coord_ud_unsorted c ≤ 494 ∧
  0 ≤ coord_ud_permutation c ≤ 23 ∧
  0 ≤ coord_edge_permutation c ≤ 285119 ∧
  (Forall (λ e, e ∉ [EDGE_UF; EDGE_UB; EDGE_DB; EDGE_DF])
          (drop 8 (edge_permutation c)) →
   0 ≤ coord_edge_permutation c ≤ 40319) ∧
  ([EDGE_FR; EDGE_FL; EDGE_BL; EDGE_BR] ≡ₚ [8; 9; 10; 11] → ud_in_slice c →
   0 ≤ coord_edge_permutation c ≤ 40319).
Proof.
  intros Hr.
  pose proof (reachable_well_formed Hok c Hr) as Hwf.
  pose proof (reachable_invariant Hok c Hr) as Hinv.
  destruct (slices_ok Hok) as (Hud & Hrl & Hfb).
  pose proof (coord_slice_sorted_bound c _ Hud (inv_ep c Hinv))
    as (Bud & Pud & Uud & _).
  pose proof (coord_slice_sorted_bound c _ Hrl (inv_ep c Hinv))
    as (Brl & _ & _ & Lrl).
  pose proof (coord_slice_sorted_bound c _ Hfb (inv_ep c Hinv))
    as (Bfb & Pfb & _ & _).
  split; [by apply coord_corner_orientation_bound|].
  split; [by apply coord_edge_orientation_bound|].
  split; [apply coord_corner_permutation_bound, Hwf|].
  unfold coord_edge_permutation, coord_ud_unsorted, coord_ud_permutation,
    edge_permutation_calc, ud_unsorted_calc, ud_permutation_calc,
    coord_ud_sorted, coord_rl_sorted, coord_fb_sorted.
  split; [done|]. split; [done|]. split; [done|]. split; [done|].
  split; [done|]. split; [lia|].
  assert (Forall (λ e, e ∉ [EDGE_UF; EDGE_UB; EDGE_DB; EDGE_DF])
                 (drop 8 (edge_permutation c)) →
          0 ≤ 24 * coord_slice_sorted c [EDGE_UF; EDGE_UB; EDGE_DB; EDGE_DF]
              + coord_slice_sorted c [EDGE_UR; EDGE_UL; EDGE_DL; EDGE_DR]
                `rem` 24 ≤ 40319) as Hlow.
  { intros Hfree. specialize (Lrl Hfree). lia. }
  split; [done|]. intros Hnum Hin. apply Hlow.
  apply (ud_in_slice_frees_rl Hok); [done|apply Hwf|done].
Qed.

(** C3, as the code has it.  The corner permutation, corner orientation,
    edge orientation and UD permutation coordinates of the solved cube
    are 0; the move U followed by the move U' on the solved cube returns
    the solved cube, on which these four coordinates are 0; the edge
    permutation coordinate and the unsorted UD coordinate of the solved cube
    are not both 0. *)
Theorem solved_coordinates (Hok : header_ok) :
  coord_corner_permutation solved = 0 ∧
  coord_corner_orientation solved = Some 0 ∧
  coord_edge_orientation solved = Some 0 ∧
  coord_ud_permutation solved = 0 ∧
  (∃ c, perform_moves solved [MOVE_U; MOVE_UP] = Some c ∧ c = solved ∧
        coord_corner_permutation c = 0 ∧
        coord_corner_orientation c = Some 0 ∧
        coord_edge_orientation c = Some 0 ∧
        coord_ud_permutation c = 0) ∧
  ¬ (coord_edge_permutation solved = 0 ∧ coord_ud_unsorted solved = 0).
Proof.
  assert (coord_ud_permutation solved = 0) as Hperm
    by apply solved_order_rank.
  split; [done|]. split; [done|]. split; [done|]. split; [done|].
  split; [|by apply solved_slices_not_zero].
  exists solved. split; [|done].
  apply (perform_moves_cancel Hok FaceU Clockwise CounterClockwise);
    [apply solved_well_formed|done].
Qed.

(** C5, as the code has it.  On every cube the edge permutation coordinate
    is 24 times the sorted RL coordinate plus the remainder modulo 24 of the
    sorted FB coordinate, and 24 times the unsorted UD coordinate plus the UD
    permutation coordinate is the sorted UD coordinate; on some reachable
    cube the edge permutation coordinate differs from the lexicographic rank
    of the 8 edges outside the UD slice. *)
Theorem meta_coordinates_consistent (Hok : header_ok) :
  (∀ c, coord_edge_permutation c
          = 24 * coord_rl_sorted c + coord_fb_sorted c `rem` 24 ∧
        24 * coord_ud_unsorted c + coord_ud_permutation c
          = coord_ud_sorted c) ∧
  (∃ c, reachable c ∧
        coord_edge_permutation c ≠ spec_edge_permutation_rank c).
Proof.
  split; [|by apply composed_is_not_rank].
  intros c. split; [reflexivity|].
  unfold coord_ud_unsorted, coord_ud_permutation, ud_unsorted_calc,
    ud_permutation_calc.
  symmetry. apply Z.quot_rem'.
Qed.

End CoordinateClaims.

(** Witness of C2 as amended: the solved cube under the reference header. *)
Lemma coordinate_ranges_witness :
  0 ≤ @coord_edge_permutation reference_header solved ≤ 40319.
Proof.
  apply (proj1 (proj2 (proj2 (proj2 (proj2 (proj2 (proj2 (proj2 (proj2 (proj2
           (@coordinate_ranges reference_header reference_header_ok solved
              (@reachable_solved reference_header)))))))))))).
  apply (bool_decide_unpack _). reflexivity.
Defined.

(** Counterexample to C2: the cube after the move F on the solved cube is
    reachable, and its edge permutation coordinate is 118896. *)
Lemma coordinate_ranges_counterexample :
  @perform_move reference_header solved 6 = Some solved_after_F ∧
  @reachable reference_header solved_after_F ∧
  @coord_edge_permutation reference_header solved_after_F = 118896 ∧
  40319 < 118896.
Proof.
  split; [reflexivity|]. split; [|split; [reflexivity|lia]].
  apply (@reachable_move reference_header solved 6); [constructor| |reflexivity].
  unfold all_moves; simpl. elem_of_literal.
Qed.

(** Witness of C3 as amended: the reference header. *)
Lemma solved_coordinates_witness :
  ∃ c, @perform_moves reference_header solved [0; 2] = Some c ∧ c = solved ∧
       coord_corner_permutation c = 0 ∧
       coord_corner_orientation c = Some 0 ∧
       coord_edge_orientation c = Some 0 ∧
       @coord_ud_permutation reference_header c = 0.
Proof.
  apply (proj1 (proj2 (proj2 (proj2 (proj2
           (@solved_coordinates reference_header reference_header_ok)))))).
Defined.

(** Witness of C5 as amended: the cube after F under the reference
    header. *)
Lemma meta_coordinates_consistent_witness :
  @coord_edge_permutation reference_header solved_after_F
    = 24 * @coord_rl_sorted reference_header solved_after_F
      + @coord_fb_sorted reference_header solved_after_F `rem` 24 ∧
  24 * @coord_ud_unsorted reference_header solved_after_F
    + @coord_ud_permutation reference_header solved_after_F
    = @coord_ud_sorted reference_header solved_after_F.
Proof.
  apply (proj1 (@meta_coordinates_consistent reference_header
                  reference_header_ok)).
Defined.

(** Counterexample to C3: under the reference header the edge permutation
    coordinate of the solved cube is 28224, and its three sorted slice
    coordinates are 11856, 1176 and 480. *)
Lemma solved_coordinates_counterexample :
  @coord_edge_permutation reference_header solved = 28224 ∧
  @coord_ud_sorted reference_header solved = 11856 ∧
  @coord_rl_sorted reference_header solved = 1176 ∧
  @coord_fb_sorted reference_header solved = 480 ∧
  @coord_ud_unsorted reference_header solved = 494.
Proof. repeat split. Qed.

(** Counterexample to C5: on the solved cube, under the reference header,
    the lexicographic rank of the 8 edges outside the UD slice is 0 and the
    composed edge permutation coordinate is 28224. *)
Lemma meta_coordinates_counterexample :
  @spec_edge_permutation_rank reference_header solved = 0 ∧
  @coord_edge_permutation reference_header solved = 28224.
Proof. split; reflexivity. Qed.

(** * Further properties of the move engine *)

(** ** Turns of one face in a row *)

Section CycleCompose.
Context (i0 i1 i2 i3 : nat).
Context (H01 : i0 ≠ i1) (H02 : i0 ≠ i2) (H03 : i0 ≠ i3)
        (H12 : i1 ≠ i2) (H13 : i1 ≠ i3) (H23 : i2 ≠ i3).
Context (v : vec).
Context (L0 : (i0 < length v)%nat) (L1 : (i1 < length v)%nat)
        (L2 : (i2 < length v)%nat) (L3 : (i3 < length v)%nat).

Lemma cycle_perm_compose t1 t2 t3 :
  turn_sum t1 t2 = Some t3 →
  cycle_perm [i0; i1; i2; i3] (Z.to_nat (turn_amt_of t2))
    (cycle_perm [i0; i1; i2; i3] (Z.to_nat (turn_amt_of t1)) v)
  = cycle_perm [i0; i1; i2; i3] (Z.to_nat (turn_amt_of t3)) v.
Proof.
  intros Hsum.
  destruct t1, t2; try discriminate Hsum; injection Hsum as <-;
    unfold cycle_perm; simpl.
  all: apply vec_ext; [by rewrite !length_insert|].
  all: intros p _.
  all: destruct (decide (p = i0)) as [->|];
    [|destruct (decide (p = i1)) as [->|];
      [|destruct (decide (p = i2)) as [->|];
        [|destruct (decide (p = i3)) as [->|]]]].
  all: by lk.
Qed.

Context (modulus d0 d1 d2 d3 : Z).
Context (Hm : modulus = 2 ∨ modulus = 3).
Context (Hd0 : 0 ≤ d0) (Hd1 : 0 ≤ d1) (Hd2 : 0 ≤ d2) (Hd3 : 0 ≤ d3).
Context (Hd : (d0 + d1 + d2 + d3) `mod` modulus = 0).
Context (Hv : Forall (λ o, 0 ≤ o < modulus) v).

Lemma cycle_orient_compose t1 t2 t3 :
  turn_sum t1 t2 = Some t3 →
  cycle_orient modulus [i0; i1; i2; i3] [d0; d1; d2; d3]
    (Z.to_nat (turn_amt_of t2))
    (cycle_orient modulus [i0; i1; i2; i3] [d0; d1; d2; d3]
       (Z.to_nat (turn_amt_of t1)) v)
  = cycle_orient modulus [i0; i1; i2; i3] [d0; d1; d2; d3]
      (Z.to_nat (turn_amt_of t3)) v.
Proof.
  intros Hsum.
  assert (∀ i, (i < length v)%nat → 0 ≤ v !!! i < modulus) as Hr.
  { intros i Hi. rewrite Forall_lookup in Hv.
    apply (Hv i), list_lookup_lookup_total_lt. lia. }
  pose proof (Hr i0 L0). pose proof (Hr i1 L1).
  pose proof (Hr i2 L2). pose proof (Hr i3 L3).
  destruct t1, t2; try discriminate Hsum; injection Hsum as <-;
    unfold cycle_orient, delta_total; simpl.
  all: apply vec_ext; [by rewrite !length_insert|].
  all: intros p _.
  all: destruct (decide (p = i0)) as [->|];
    [|destruct (decide (p = i1)) as [->|];
      [|destruct (decide (p = i2)) as [->|];
        [|destruct (decide (p = i3)) as [->|]]]].
  all: lk; try done.
  all: clear Hv Hr; revert Hd.
  all: generalize (v !!! i0) (v !!! i1) (v !!! i2) (v !!! i3) H H0 H1 H2.
  all: clear -Hm Hd0 Hd1 Hd2 Hd3; intros.
  all: destruct Hm as [-> | ->]; Z.to_euclidean_division_equations; lia.
Qed.

End CycleCompose.

Lemma table_perm_compose l v t1 t2 t3 :
  cycle_ok (Z.of_nat (length v)) l → turn_sum t1 t2 = Some t3 →
  cycle_perm (Z.to_nat <$> l) (Z.to_nat (turn_amt_of t2))
    (cycle_perm (Z.to_nat <$> l) (Z.to_nat (turn_amt_of t1)) v)
  = cycle_perm (Z.to_nat <$> l) (Z.to_nat (turn_amt_of t3)) v.
Proof.
  intros (c0 & c1 & c2 & c3 & -> & (? & ? & ? & ?)
          & (? & ? & ? & ? & ? & ?)) Hsum.
  cbn [fmap list_fmap]. apply cycle_perm_compose; (done || lia).
Qed.

Lemma table_orient_compose modulus delta l v t1 t2 t3 :
  cycle_ok (Z.of_nat (length v)) l → modulus = 2 ∨ modulus = 3 →
  delta_ok modulus delta → Forall (λ o, 0 ≤ o < modulus) v →
  turn_sum t1 t2 = Some t3 →
  cycle_orient modulus (Z.to_nat <$> l) delta (Z.to_nat (turn_amt_of t2))
    (cycle_orient modulus (Z.to_nat <$> l) delta
       (Z.to_nat (turn_amt_of t1)) v)
  = cycle_orient modulus (Z.to_nat <$> l) delta
      (Z.to_nat (turn_amt_of t3)) v.
Proof.
  intros (c0 & c1 & c2 & c3 & -> & (? & ? & ? & ?)
          & (? & ? & ? & ? & ? & ?)) Hm
         (d0 & d1 & d2 & d3 & -> & (? & ? & ? & ?) & ?) Hv Hsum.
  cbn [fmap list_fmap]. apply cycle_orient_compose; (done || lia).
Qed.

Section TurnsInARow.
Context `{Header} (Hok : header_ok).

Lemma moved_compose f t1 t2 t3 c :
  well_formed c → turn_sum t1 t2 = Some t3 →
  moved f t2 (moved f t1 c) = moved f t3 c.
Proof.
  intros [Hcp Hco Hep Heo Htw Hfl] Hsum. destruct c as [cp co ep eo].
  simpl in *. unfold moved; simpl.
  f_equal.
  - apply table_perm_compose; [|done].
    rewrite Hcp. apply (face_corners_ok Hok).
  - apply table_orient_compose;
      [rewrite Hco; apply (face_corners_ok Hok)|by right
      |apply (face_twist_ok Hok)|done|done].
  - apply table_perm_compose; [|done].
    rewrite Hep. apply (face_edges_ok Hok).
  - apply table_orient_compose;
      [rewrite Heo; apply (face_edges_ok Hok)|by left
      |apply (face_flip_ok Hok)|done|done].
Qed.

(** X1.  On every cube state, two turns of one face in a row whose
    amounts do not add up to a full turn are the single turn of the added
    amount: two quarter turns are the half turn, a quarter and a half turn
    the opposite quarter turn, and so on. *)
Theorem turns_of_a_face_add (f : face) (t1 t2 t3 : turn) (c : Cube) :
  well_formed c → turn_sum t1 t2 = Some t3 →
  perform_moves c [move_id f t1; move_id f t2]
  = perform_move c (move_id f t3).
Proof.
  intros Hwf Hsum. pose proof (well_formed_sized c Hwf) as Hs.
  cbn [perform_moves].
  rewrite !(perform_move_moved Hok) by done. cbn [mbind option_bind].
  rewrite (perform_move_moved Hok) by (by apply (moved_sized Hok)).
  cbn [mbind option_bind]. f_equal. by apply moved_compose.
Qed.

(** X2.  On every cube state a half turn of a face applied twice returns
    exactly the state it started from. *)
Theorem half_turn_twice (c : Cube) (move : Z) :
  well_formed c →
  move ∈ [MOVE_U2; MOVE_L2; MOVE_F2; MOVE_R2; MOVE_B2; MOVE_D2] →
  perform_moves c [move; move] = Some c.
Proof.
  intros Hwf Hm.
  assert (∃ f, move = move_id f HalfTurn) as [f ->].
  { rewrite !elem_of_cons, elem_of_nil in Hm.
    destruct Hm as [->|[->|[->|[->|[->|[->|[]]]]]]];
      [by exists FaceU|by exists FaceL|by exists FaceF
      |by exists FaceR|by exists FaceB|by exists FaceD]. }
  by apply (perform_moves_cancel Hok).
Qed.

(** X3.  A quarter turn is an odd permutation of the corners and of the
    edges, a half turn an even one: on a cube that satisfies the invariants
    a quarter turn changes the parity of both permutations and a half turn
    keeps it. *)
Theorem turn_parity (f : face) (tn : turn) (c : Cube) :
  cube_invariant c →
  ∃ c', perform_move c (move_id f tn) = Some c' ∧
    parity (corner_permutation c')
      = xorb (parity (corner_permutation c))
             (Z.odd (turn_amt_of tn)) ∧
    parity (edge_permutation c')
      = xorb (parity (edge_permutation c)) (Z.odd (turn_amt_of tn)).
Proof.
  intros Hinv. pose proof (invariant_sized c Hinv) as (Lcp & Lco & Lep & Leo).
  exists (moved f tn c). split.
  { apply (perform_move_moved Hok). by repeat split. }
  unfold moved; simpl. rewrite !table_perm_parity.
  - by destruct tn; simpl; destruct (parity _), (parity _).
  - rewrite Lep. apply (face_edges_ok Hok).
  - rewrite (inv_ep c Hinv). apply NoDup_seqZ.
  - rewrite Lcp. apply (face_corners_ok Hok).
  - rewrite (inv_cp c Hinv). apply NoDup_seqZ.
Qed.

End TurnsInARow.

(** ** Turns of opposite faces *)

(** A vector of known length as a literal list. *)
Ltac literal_vec v Hlen :=
  repeat (let x := fresh "x" in destruct v as [|x v]; [discriminate Hlen|]);
  destruct v; [|discriminate Hlen]; clear Hlen.

Lemma reference_opposite_commute f t t' d :
  sized d →
  @moved reference_header f t (@moved reference_header (opposite f) t' d)
  = @moved reference_header (opposite f) t' (@moved reference_header f t d).
Proof.
  intros (Hcp & Hco & Hep & Heo). destruct d as [cp co ep eo].
  cbn [corner_permutation corner_orientation edge_permutation
       edge_orientation] in *.
  literal_vec cp Hcp. literal_vec co Hco.
  literal_vec ep Hep. literal_vec eo Heo.
  destruct f, t, t'; vm_compute; reflexivity.
Qed.

Section OppositeFaces.
Context `{Header} (Hok : header_ok).

Lemma view_sized c : sized (view c).
Proof. by repeat split. Qed.

(** X4.  Turns of opposite faces commute: on a cube with vectors of 8 and
    12 entries, a turn of a face followed by a turn of the opposite face
    returns the same cube as the two turns in the other order. *)
Theorem opposite_faces_commute (f : face) (t t' : turn) (c : Cube) :
  sized c →
  perform_moves c [move_id f t; move_id (opposite f) t']
  = perform_moves c [move_id (opposite f) t'; move_id f t].
Proof.
  intros Hs.
  pose proof (perform_moves_moved_all Hok [(f, t); (opposite f, t')] c Hs)
    as E1.
  pose proof (perform_moves_moved_all Hok [(opposite f, t'); (f, t)] c Hs)
    as E2.
  cbn [fmap list_fmap fst snd] in E1, E2. rewrite E1, E2. f_equal.
  apply (view_inj Hok); [by apply (moved_all_sized Hok)..|].
  rewrite !(view_moved_all Hok) by done.
  unfold moved_all; cbn [foldl fst snd]. symmetry.
  apply reference_opposite_commute, view_sized.
Qed.

End OppositeFaces.

(** * Further properties of the coordinates *)

(** ** The binomial coefficient *)

Lemma choose_0_r n : choose n 0 = 1%nat.
Proof. by destruct n. Qed.

Lemma choose_lt n k : (n < k)%nat → choose n k = 0%nat.
Proof.
  revert k. induction n as [|n IH]; intros [|k] Hlt; try done; try lia.
  simpl. rewrite !IH by lia. done.
Qed.

Lemma choose_absorb n k :
  (Z.of_nat k + 1) * Z.of_nat (choose n (S k))
  = (Z.of_nat n - Z.of_nat k) * Z.of_nat (choose n k).
Proof.
  revert k. induction n as [|n IH]; intros k.
  - destruct k; simpl; lia.
  - destruct k as [|k].
    + pose proof (IH 0%nat) as H0. rewrite choose_0_r in *.
      cbn [choose]. rewrite choose_0_r. lia.
    + pose proof (IH k) as Hk. pose proof (IH (S k)) as HSk.
      cbn [choose]. cbn [choose] in Hk, HSk.
      rewrite !Nat2Z.inj_add. rewrite !Nat2Z.inj_succ in *. nia.
Qed.

Lemma binom_num n k :
  foldl (λ num ii, num * (Z.of_nat n - ii)) 1 (seqZ 0 (Z.of_nat k))
  = Z.of_nat (choose n k) * Z.of_nat (fact k).
Proof.
  induction k as [|k IH].
  - rewrite choose_0_r. done.
  - replace (Z.of_nat (S k)) with (Z.of_nat k + 1) by lia.
    rewrite seqZ_app by lia. rewrite foldl_app, IH.
    change (seqZ (0 + Z.of_nat k) 1) with [0 + Z.of_nat k]. cbn [foldl].
    pose proof (choose_absorb n k) as Ha.
    change (fact (S k)) with (S k * fact k)%nat.
    rewrite Nat2Z.inj_mul, Nat2Z.inj_succ. nia.
Qed.

Lemma binom_denom k :
  foldl (λ denom ii, denom * ii) 1 (seqZ 2 (Z.of_nat k - 1))
  = Z.of_nat (fact k).
Proof.
  induction k as [|k IH]; [done|].
  destruct k as [|k]; [done|].
  replace (Z.of_nat (S (S k)) - 1) with ((Z.of_nat (S k) - 1) + 1) by lia.
  rewrite seqZ_app by lia. rewrite foldl_app, IH.
  change (seqZ (2 + (Z.of_nat (S k) - 1)) 1)
    with [2 + (Z.of_nat (S k) - 1)]. cbn [foldl].
  change (fact (S (S k))) with (S (S k) * fact (S k))%nat.
  rewrite Nat2Z.inj_mul. lia.
Qed.

Lemma binom_choose n k :
  binom (Z.of_nat n) (Z.of_nat k) = Z.of_nat (choose n k).
Proof.
  unfold binom. rewrite binom_num, binom_denom.
  apply Z.quot_mul. pose proof (fact_neq_0 k). lia.
Qed.

(** X5.  [binom] computes the binomial coefficient of Pascal's triangle
    for arguments from 0 to 12 (where the two products fit an [int]), it is
    0 when [k] exceeds [n], and it is 1 for every [k] that is 0 or
    negative. *)
Theorem binom_is_binomial :
  (∀ n k : nat, (n ≤ 12)%nat → (k ≤ 12)%nat →
     binom (Z.of_nat n) (Z.of_nat k) = Z.of_nat (choose n k) ∧
     ((n < k)%nat → binom (Z.of_nat n) (Z.of_nat k) = 0)) ∧
  (∀ n k : Z, k ≤ 0 → binom n k = 1).
Proof.
  split.
  - intros n k _ _. split; [apply binom_choose|].
    intros Hlt. by rewrite binom_choose, choose_lt.
  - intros n k Hk. unfold binom.
    by rewrite !seqZ_nil by lia.
Qed.

(** Witness of X5: the largest coefficient of the first scan, and a
    negative [k]. *)
Lemma binom_is_binomial_witness : binom 11 4 = 330 ∧ binom 5 (-1) = 1.
Proof.
  split.
  - apply (proj1 (proj1 binom_is_binomial 11%nat 4%nat
                    ltac:(lia) ltac:(lia))).
  - apply (proj2 binom_is_binomial). lia.
Defined.

(** ** The orientation coordinates *)

Lemma orientation_loop (base : Z) (init : vec) (last : Z) :
  for_loop (λ ii ret, o ← vget (init ++ [last]) ii; Some (base * ret + o))
           (seqZ 0 (Z.of_nat (length (init ++ [last])) - 1)) 0
  = Some (foldl (λ ret o, base * ret + o) 0 init).
Proof.
  pose proof (for_loop_digits base (init ++ [last]) 0 0) as Hl.
  change (Z.of_nat 0) with 0 in Hl. rewrite Z.sub_0_r in Hl.
  rewrite Hl. f_equal. f_equal.
  change (drop 0 (init ++ [last])) with (init ++ [last]).
  rewrite length_app. cbn [length].
  replace (length init + 1 - 0 - 1)%nat with (length init) by lia.
  by rewrite take_app_length.
Qed.

Lemma digits_inj (base : Z) (l l' : vec) (acc acc' : Z) :
  0 < base → length l = length l' →
  Forall (λ o, 0 ≤ o < base) l → Forall (λ o, 0 ≤ o < base) l' →
  foldl (λ ret o, base * ret + o) acc l
  = foldl (λ ret o, base * ret + o) acc' l' →
  acc = acc' ∧ l = l'.
Proof.
  intros Hb. revert l' acc acc'.
  induction l as [|o l IH]; intros [|o' l'] acc acc' Hlen Hl Hl' Heq;
    try discriminate Hlen; [done|].
  apply Forall_cons in Hl as [Ho Hl]. apply Forall_cons in Hl' as [Ho' Hl'].
  cbn [foldl] in Heq.
  destruct (IH l' _ _ ltac:(by injection Hlen) Hl Hl' Heq) as [Hacc ->].
  assert (acc = acc') as -> by nia.
  split; [done|]. f_equal. lia.
Qed.

Lemma vec_snoc (l : vec) (n : nat) :
  length l = S n → l = take n l ++ [l !!! n].
Proof.
  intros Hlen. rewrite <- (take_S_r l n (l !!! n))
    by (apply list_lookup_lookup_total_lt; lia).
  by rewrite take_ge by lia.
Qed.

Lemma vsum_app (a b : vec) : vsum (a ++ b) = vsum a + vsum b.
Proof. unfold vsum. induction a as [|x a IH]; simpl; lia. Qed.

Lemma last_determined (modulus s x x' : Z) :
  modulus = 2 ∨ modulus = 3 →
  0 ≤ x < modulus → 0 ≤ x' < modulus →
  (s + x) `mod` modulus = 0 → (s + x') `mod` modulus = 0 → x = x'.
Proof.
  intros [-> | ->] Hx Hx' Hs Hs'; Z.to_euclidean_division_equations; lia.
Qed.

Lemma orientation_determined (modulus : Z) (i i' : vec) (x x' : Z) :
  modulus = 2 ∨ modulus = 3 →
  length i = length i' →
  Forall (λ o, 0 ≤ o < modulus) (i ++ [x]) →
  Forall (λ o, 0 ≤ o < modulus) (i' ++ [x']) →
  vsum (i ++ [x]) `mod` modulus = 0 → vsum (i' ++ [x']) `mod` modulus = 0 →
  foldl (λ ret o, modulus * ret + o) 0 i
  = foldl (λ ret o, modulus * ret + o) 0 i' →
  i ++ [x] = i' ++ [x'].
Proof.
  intros Hm Hlen Hl Hl' Hs Hs' Heq.
  apply Forall_app in Hl as [Hi Hx]. apply Forall_app in Hl' as [Hi' Hx'].
  rewrite Forall_singleton in Hx, Hx'.
  destruct (digits_inj modulus i i' 0 0) as [_ <-]; [lia|done..|].
  rewrite !vsum_app in Hs, Hs'. unfold vsum in Hs, Hs'. simpl in Hs, Hs'.
  rewrite Z.add_0_r in Hs, Hs'.
  f_equal. f_equal. by apply (last_determined modulus (foldr Z.add 0 i)).
Qed.

Lemma digits_fit (base : Z) (n : nat) (digits : vec) (k : nat) :
  0 < base → (length digits ≤ n)%nat → Forall (λ o, 0 ≤ o < base) digits →
  0 ≤ foldl (λ ret o, base * ret + o) 0 (take k digits)
    ≤ base ^ Z.of_nat n - 1.
Proof.
  intros Hb Hn Hd.
  pose proof (digits_bound base (take k digits) Hb) as Hk.
  specialize (Hk ltac:(by apply Forall_take)).
  assert (base ^ Z.of_nat (length (take k digits)) ≤ base ^ Z.of_nat n)
    as Hpow.
  { apply Z.pow_le_mono_r; [done|]. rewrite length_take. lia. }
  lia.
Qed.

(** X6.  The two orientation coordinates read every entry but the last.
    On an empty vector they are undefined (the unsigned bound wraps around
    and entry 0 is read).  On a vector [init ++ [last]] where [init] has
    at most 19 twists in {0,1,2}, respectively at most 31 flips in {0,1},
    they are the value of [init] in base 3, respectively base 2, whatever
    [last] is; the value after each step of the loop is between 0 and
    3^19 - 1, respectively 2^31 - 1, so that it fits the [int] of the
    code. *)
Theorem orientation_coordinates_skip_last (c : Cube) :
  (corner_orientation c = [] → coord_corner_orientation c = None) ∧
  (edge_orientation c = [] → coord_edge_orientation c = None) ∧
  (∀ init last, corner_orientation c = init ++ [last] →
     (length init ≤ 19)%nat → Forall (λ o, 0 ≤ o < 3) init →
     coord_corner_orientation c
     = Some (foldl (λ ret o, 3 * ret + o) 0 init) ∧
     ∀ k, 0 ≤ foldl (λ ret o, 3 * ret + o) 0 (take k init) ≤ 1162261466) ∧
  (∀ init last, edge_orientation c = init ++ [last] →
     (length init ≤ 31)%nat → Forall (λ o, 0 ≤ o < 2) init →
     coord_edge_orientation c
     = Some (foldl (λ ret o, 2 * ret + o) 0 init) ∧
     ∀ k, 0 ≤ foldl (λ ret o, 2 * ret + o) 0 (take k init) ≤ 2147483647).
Proof.
  unfold coord_corner_orientation, coord_edge_orientation.
  split; [by intros ->|]. split; [by intros ->|]. split.
  - intros init last -> Hlen Hr. split.
    + rewrite decide_False by (by destruct init). apply orientation_loop.
    + intros k. by apply (digits_fit 3 19 init k).
  - intros init last -> Hlen Hr. split.
    + rewrite decide_False by (by destruct init). apply orientation_loop.
    + intros k. by apply (digits_fit 2 31 init k).
Qed.

(** Witness of X6: a vector of three twists. *)
Lemma orientation_coordinates_skip_last_witness :
  coord_corner_orientation (mkCube [] [2; 1; 0] [] []) = Some 7 ∧
  ∀ k, 0 ≤ foldl (λ ret o, 3 * ret + o) 0 (take k [2; 1]) ≤ 1162261466.
Proof.
  apply (proj1 (proj2 (proj2 (orientation_coordinates_skip_last
                                (mkCube [] [2; 1; 0] [] []))))
           [2; 1] 0).
  - reflexivity.
  - simpl. lia.
  - repeat constructor; lia.
Defined.

Lemma orientation_coordinate_inj (modulus : Z) (n : nat) (l l' : vec) :
  modulus = 2 ∨ modulus = 3 →
  length l = S n → length l' = S n →
  Forall (λ o, 0 ≤ o < modulus) l → Forall (λ o, 0 ≤ o < modulus) l' →
  vsum l `mod` modulus = 0 → vsum l' `mod` modulus = 0 →
  for_loop (λ ii ret, o ← vget l ii; Some (modulus * ret + o))
           (seqZ 0 (Z.of_nat (length l) - 1)) 0
  = for_loop (λ ii ret, o ← vget l' ii; Some (modulus * ret + o))
             (seqZ 0 (Z.of_nat (length l') - 1)) 0 →
  l = l'.
Proof.
  intros Hm Hlen Hlen'.
  rewrite (vec_snoc l n Hlen), (vec_snoc l' n Hlen').
  generalize (l !!! n) (l' !!! n). intros x x'.
  assert (length (take n l) = length (take n l')) as Hl
    by (rewrite !length_take_le; lia).
  revert Hl. generalize (take n l) (take n l'). clear l l' Hlen Hlen'.
  intros i i' Hl Hr Hr' Hs Hs'. rewrite !orientation_loop.
  intros [= Heq]. by apply (orientation_determined modulus).
Qed.

(** X7.  The orientation coordinates determine the orientations: two
    well-formed cubes whose twists sum to 0 modulo 3 and which have the
    same corner orientation coordinate have the same corner orientation
    vector; likewise for the flips, modulo 2, and the edge orientation
    coordinate. *)
Theorem orientation_coordinates_injective (c c' : Cube) :
  well_formed c → well_formed c' →
  (vsum (corner_orientation c) `mod` 3 = 0 →
   vsum (corner_orientation c') `mod` 3 = 0 →
   coord_corner_orientation c = coord_corner_orientation c' →
   corner_orientation c = corner_orientation c') ∧
  (vsum (edge_orientation c) `mod` 2 = 0 →
   vsum (edge_orientation c') `mod` 2 = 0 →
   coord_edge_orientation c = coord_edge_orientation c' →
   edge_orientation c = edge_orientation c').
Proof.
  intros Hc Hc'. destruct Hc, Hc'.
  unfold coord_corner_orientation, coord_edge_orientation. split.
  - intros Hs Hs'.
    rewrite !decide_False by (intros E; rewrite E in *; discriminate).
    by apply (orientation_coordinate_inj 3 7); [right|..].
  - intros Hs Hs'.
    rewrite !decide_False by (intros E; rewrite E in *; discriminate).
    by apply (orientation_coordinate_inj 2 11); [left|..].
Qed.

(** ** The rank of a permutation *)

Lemma filter_length_le (P Q : Z → Prop) `{∀ x, Decision (P x)}
    `{∀ x, Decision (Q x)} (l : vec) :
  (∀ y, y ∈ l → P y → Q y) →
  (length (filter P l) ≤ length (filter Q l))%nat.
Proof.
  induction l as [|x l IH]; intros HPQ; [done|].
  rewrite !filter_cons.
  assert (length (filter P l) ≤ length (filter Q l))%nat as Hle
    by (apply IH; intros y Hy; apply HPQ; by right).
  destruct (decide (P x)) as [HP|HP].
  - rewrite decide_True by (apply HPQ; [by left|done]). simpl. lia.
  - destruct (decide (Q x)); simpl; lia.
Qed.

Lemma filter_length_lt (P Q : Z → Prop) `{∀ x, Decision (P x)}
    `{∀ x, Decision (Q x)} (l : vec) (z : Z) :
  (∀ y, y ∈ l → P y → Q y) → z ∈ l → Q z → ¬ P z →
  (length (filter P l) < length (filter Q l))%nat.
Proof.
  induction l as [|x l IH]; intros HPQ Hz HQ HP; [by apply elem_of_nil in Hz|].
  rewrite !filter_cons.
  assert (∀ y, y ∈ l → P y → Q y) as HPQ'
    by (intros y Hy; apply HPQ; by right).
  apply elem_of_cons in Hz as [<- | Hz].
  - rewrite decide_False, decide_True by done. simpl.
    pose proof (filter_length_le P Q l HPQ'). lia.
  - specialize (IH HPQ' Hz HQ HP).
    destruct (decide (P x)) as [HPx|HPx].
    + rewrite decide_True by (apply HPQ; [by left|done]). simpl. lia.
    + destruct (decide (Q x)); simpl; lia.
Qed.

Section Rank.
Context (counts : Z → Z → bool).
Hypothesis counts_irrefl : ∀ x, counts x x = false.
Hypothesis counts_trans :
  ∀ x y z, counts x y = true → counts y z = true → counts x z = true.
Hypothesis counts_total : ∀ x y, x ≠ y → counts x y = true ∨ counts y x = true.

Lemma count_determines (l : vec) (x x' : Z) :
  x ∈ l → x' ∈ l →
  length (filter (λ y, counts y x = true) l)
  = length (filter (λ y, counts y x' = true) l) →
  x = x'.
Proof.
  intros Hx Hx' Heq. destruct (decide (x = x')) as [|Hne]; [done|].
  exfalso. destruct (counts_total x x' Hne) as [Hlt|Hlt].
  - pose proof (filter_length_lt (λ y, counts y x = true)
                  (λ y, counts y x' = true) l x) as Hl.
    cbv beta in Hl. rewrite counts_irrefl in Hl.
    specialize (Hl ltac:(eauto) Hx Hlt ltac:(done)). lia.
  - pose proof (filter_length_lt (λ y, counts y x' = true)
                  (λ y, counts y x = true) l x') as Hl.
    cbv beta in Hl. rewrite counts_irrefl in Hl.
    specialize (Hl ltac:(eauto) Hx' Hlt ltac:(done)). lia.
Qed.

Lemma rank_loop_inj (v v' : vec) :
  v ≡ₚ v' → (rank_loop counts v).1 = (rank_loop counts v').1 → v = v'.
Proof.
  revert v'. induction v as [|x rest IH]; intros v' Hp Heq.
  - apply Permutation_nil_l in Hp. by subst.
  - destruct v' as [|x' rest']; [by apply Permutation_nil_r in Hp|].
    assert (length rest = length rest') as Hlen
      by (apply Permutation_length in Hp; by injection Hp).
    pose proof (rank_loop_bound counts rest) as [Hb Hf].
    pose proof (rank_loop_bound counts rest') as [Hb' Hf'].
    cbn [rank_loop] in Heq. specialize (IH rest').
    destruct (rank_loop counts rest) as [ret f].
    destruct (rank_loop counts rest') as [ret' f'].
    cbn [fst snd] in *. rewrite Hlen in Hf. rewrite <- Hf' in Hf. subst f'.
    assert (length (filter (λ y, counts y x = true) (x :: rest))
            = length (filter (λ y, counts y x = true) rest)) as Hc
      by (rewrite filter_cons, decide_False; [done|by rewrite counts_irrefl]).
    assert (length (filter (λ y, counts y x' = true) (x' :: rest'))
            = length (filter (λ y, counts y x' = true) rest')) as Hc'
      by (rewrite filter_cons, decide_False; [done|by rewrite counts_irrefl]).
    rewrite <- Hp in Hc'.
    assert (length (filter (λ y, counts y x = true) rest)
            = length (filter (λ y, counts y x' = true) rest')
            ∧ ret = ret') as [Hcount Hret].
    { revert Heq.
      generalize (length (filter (λ y, counts y x = true) rest)).
      generalize (length (filter (λ y, counts y x' = true) rest')).
      intros a b Heq.
      destruct (Nat.lt_trichotomy a b) as [Hab | [-> | Hab]]; [nia|lia|nia]. }
    assert (x = x') as <-.
    { apply (count_determines (x :: rest)); [by left|by rewrite Hp; left|].
      by rewrite Hc, Hc'. }
    f_equal. apply IH; [by apply Permutation_cons_inv in Hp|done].
Qed.

End Rank.

Lemma rank_below_inj (v v' : vec) :
  v ≡ₚ v' →
  (rank_loop (λ y x, bool_decide (y < x)) v).1
  = (rank_loop (λ y x, bool_decide (y < x)) v').1 →
  v = v'.
Proof.
  apply rank_loop_inj.
  - intros x. apply bool_decide_eq_false. lia.
  - intros x y z. rewrite !bool_decide_eq_true. lia.
  - intros x y Hne. rewrite !bool_decide_eq_true. lia.
Qed.

Lemma rank_above_inj (v v' : vec) :
  v ≡ₚ v' →
  (rank_loop (λ y x, bool_decide (y > x)) v).1
  = (rank_loop (λ y x, bool_decide (y > x)) v').1 →
  v = v'.
Proof.
  apply rank_loop_inj.
  - intros x. apply bool_decide_eq_false. lia.
  - intros x y z. rewrite !bool_decide_eq_true. lia.
  - intros x y Hne. rewrite !bool_decide_eq_true. lia.
Qed.

Lemma fact_succ_Z (n : nat) :
  Z.of_nat (fact (S n)) = (Z.of_nat n + 1) * Z.of_nat (fact n).
Proof. change (fact (S n)) with (S n * fact n)%nat. lia. Qed.

Lemma fact_fits (n : nat) : (n ≤ 12)%nat → Z.of_nat (fact n) ≤ 479001600.
Proof.
  intros Hn. apply (fact_le n 12), Nat2Z.inj_le in Hn.
  revert Hn. generalize (Z.of_nat (fact n)). intros x.
  rewrite !fact_succ_Z. change (Z.of_nat (fact 0)) with 1. lia.
Qed.

(** X8.  The corner permutation coordinate tells apart the arrangements
    of the same corners: for two cubes whose corner permutation vectors
    hold the same entries, at most 12 of them, the coordinates are between
    0 and 12! - 1, so that they fit the [int] of the code, and if the
    cubes have the same corner permutation coordinate they have the same
    corner permutation vector. *)
Theorem corner_permutation_coordinate_injective (c c' : Cube) :
  (length (corner_permutation c) ≤ 12)%nat →
  corner_permutation c ≡ₚ corner_permutation c' →
  0 ≤ coord_corner_permutation c ≤ 479001599 ∧
  0 ≤ coord_corner_permutation c' ≤ 479001599 ∧
  (coord_corner_permutation c = coord_corner_permutation c' →
   corner_permutation c = corner_permutation c').
Proof.
  intros Hlen Hp.
  assert (∀ v : vec, (length v ≤ 12)%nat →
            0 ≤ (rank_loop (λ y x, bool_decide (y < x)) v).1 ≤ 479001599)
    as Hfit.
  { intros v Hv.
    destruct (rank_loop_bound (λ y x, bool_decide (y < x)) v) as [Hb Hf].
    pose proof (fact_fits (length v) Hv). lia. }
  split; [by apply Hfit|].
  split; [apply Hfit; by rewrite <- Hp|].
  by apply rank_below_inj.
Qed.

(** ** The slice coordinates *)

Lemma four_ranks_NoDup : NoDup four_ranks.
Proof. apply (bool_decide_unpack _). by vm_compute. Qed.

Lemma fmap_NoDup_inj {A B : Type} (f : A → B) (l : list A) (x y : A) :
  NoDup (f <$> l) → x ∈ l → y ∈ l → f x = f y → x = y.
Proof.
  induction l as [|a l IH]; intros Hnd Hx Hy Hf; [by apply elem_of_nil in Hx|].
  rewrite fmap_cons in Hnd. apply NoDup_cons in Hnd as [Ha Hnd].
  apply elem_of_cons in Hx as [-> | Hx]; apply elem_of_cons in Hy as [-> | Hy].
  - done.
  - exfalso. apply Ha. rewrite Hf. by apply list_elem_of_fmap_2.
  - exfalso. apply Ha. rewrite <- Hf. by apply list_elem_of_fmap_2.
  - by apply IH.
Qed.

Lemma mask_rank_inj (m m' : list bool) :
  length m = 12%nat → length m' = 12%nat →
  length (filter (λ b, b = true) m) = 4%nat →
  length (filter (λ b, b = true) m') = 4%nat →
  (mask_scan m 12 4 0).1 = (mask_scan m' 12 4 0).1 → m = m'.
Proof.
  intros Hl Hl' Hc Hc' Heq.
  apply (fmap_NoDup_inj (λ m, (mask_scan m 12 4 0).1) four_masks);
    [apply four_ranks_NoDup| | |done].
  - apply list_elem_of_filter. split; [done|]. rewrite <- Hl.
    apply masks_complete.
  - apply list_elem_of_filter. split; [done|]. rewrite <- Hl'.
    apply masks_complete.
Qed.

Lemma places_from_mask edges (v v' : vec) :
  slice_mask edges v = slice_mask edges v' →
  filter (λ e, e ∈ edges) v = filter (λ e, e ∈ edges) v' →
  slice_places edges v = slice_places edges v'.
Proof.
  unfold slice_mask, slice_places. revert v'.
  induction v as [|e v IH]; intros [|e' v'] Hm Hf; try discriminate Hm; [done|].
  rewrite !fmap_cons in Hm. injection Hm as Hb Hm.
  rewrite !filter_cons in Hf. rewrite !fmap_cons.
  destruct (bool_decide_reflect (e ∈ edges)) as [He|He];
    destruct (bool_decide_reflect (e' ∈ edges)) as [He'|He'];
    try discriminate Hb.
  - rewrite !decide_True in Hf by done. injection Hf as -> Hf.
    f_equal. by apply IH.
  - rewrite !decide_False in Hf by done. f_equal. by apply IH.
Qed.

Lemma mask_from_places edges (v v' : vec) :
  slice_places edges v = slice_places edges v' →
  slice_mask edges v = slice_mask edges v' ∧
  filter (λ e, e ∈ edges) v = filter (λ e, e ∈ edges) v'.
Proof.
  unfold slice_mask, slice_places. revert v'.
  induction v as [|e v IH]; intros [|e' v'] Hp; try discriminate Hp; [done|].
  rewrite !fmap_cons in Hp. injection Hp as Hh Hp.
  destruct (IH v' Hp) as [Hm Hf].
  rewrite !fmap_cons, !filter_cons, Hm, Hf.
  destruct (bool_decide_reflect (e ∈ edges)) as [He|He];
    destruct (bool_decide_reflect (e' ∈ edges)) as [He'|He'];
    try discriminate Hh.
  - injection Hh as ->. by rewrite !decide_True by done.
  - by rewrite !decide_False by done.
Qed.

Lemma coord_slice_sorted_parts c edges :
  slice_ok edges → edge_permutation c ≡ₚ seqZ 0 12 →
  coord_slice_sorted c edges
  = 24 * (mask_scan (slice_mask edges (edge_permutation c)) 12 4 0).1
    + (rank_loop (λ y x, bool_decide (y > x))
         (reverse (filter (λ e, e ∈ edges) (edge_permutation c)))).1 ∧
  0 ≤ (rank_loop (λ y x, bool_decide (y > x))
         (reverse (filter (λ e, e ∈ edges) (edge_permutation c)))).1 < 24 ∧
  0 ≤ (mask_scan (slice_mask edges (edge_permutation c)) 12 4 0).1.
Proof.
  intros Hs Hp. pose proof (slice_members _ _ Hs Hp) as Hcount.
  assert (length (edge_permutation c) = 12%nat) as Hlen by (by rewrite Hp).
  unfold coord_slice_sorted.
  rewrite slice_scan_spec by lia. rewrite Hlen, <- Hlen, firstn_all.
  destruct Hs as (_ & -> & _). cbn [app].
  destruct (rank_loop_bound (λ y x, bool_decide (y > x))
     (reverse (filter (λ e, e ∈ edges) (edge_permutation c)))) as [Hb Hf].
  rewrite length_reverse, Hcount in Hf.
  change (Z.of_nat (fact 4)) with 24 in Hf.
  pose proof (mask_check_ok (slice_mask edges (edge_permutation c))) as Hm.
  unfold slice_mask in Hm at 1. rewrite length_fmap in Hm.
  specialize (Hm Hlen). unfold mask_check in Hm.
  rewrite slice_mask_count, Hcount in Hm.
  rewrite bool_decide_eq_true_2 in Hm by done. cbn [implb] in Hm.
  apply andb_prop in Hm as [Hpos _]. apply bool_decide_eq_true in Hpos.
  rewrite Hlen. split; [done|]. split; lia.
Qed.

Lemma coord_slice_sorted_inj c c' edges :
  slice_ok edges →
  edge_permutation c ≡ₚ seqZ 0 12 → edge_permutation c' ≡ₚ seqZ 0 12 →
  coord_slice_sorted c edges = coord_slice_sorted c' edges →
  slice_mask edges (edge_permutation c) = slice_mask edges (edge_permutation c')
  ∧ filter (λ e, e ∈ edges) (edge_permutation c)
    = filter (λ e, e ∈ edges) (edge_permutation c').
Proof.
  intros Hs Hp Hp' Heq.
  destruct (coord_slice_sorted_parts c edges Hs Hp) as (E & Hb & Hpos).
  destruct (coord_slice_sorted_parts c' edges Hs Hp') as (E' & Hb' & Hpos').
  rewrite E, E' in Heq.
  assert (length (edge_permutation c) = 12%nat) as Hlen by (by rewrite Hp).
  assert (length (edge_permutation c') = 12%nat) as Hlen' by (by rewrite Hp').
  split.
  - apply mask_rank_inj; [by rewrite length_slice_mask..| | |lia].
    + rewrite slice_mask_count. by apply slice_members.
    + rewrite slice_mask_count. by apply slice_members.
  - apply (inj reverse). apply rank_above_inj; [|lia].
    by rewrite !reverse_Permutation, Hp, Hp'.
Qed.

Lemma coord_slice_sorted_places c c' edges :
  slice_ok edges →
  edge_permutation c ≡ₚ seqZ 0 12 → edge_permutation c' ≡ₚ seqZ 0 12 →
  coord_slice_sorted c edges = coord_slice_sorted c' edges
  ↔ slice_places edges (edge_permutation c)
    = slice_places edges (edge_permutation c').
Proof.
  intros Hs Hp Hp'. split.
  - intros Heq.
    destruct (coord_slice_sorted_inj c c' edges Hs Hp Hp' Heq) as [Hm Hf].
    by apply places_from_mask.
  - intros Hpl. apply mask_from_places in Hpl as [Hm Hf].
    destruct (coord_slice_sorted_parts c edges Hs Hp) as (-> & _).
    destruct (coord_slice_sorted_parts c' edges Hs Hp') as (-> & _).
    by rewrite Hm, Hf.
Qed.

Lemma slice_places_lookup edges (v v' : vec) :
  length v = 12%nat → length v' = 12%nat →
  slice_places edges v = slice_places edges v'
  ↔ ∀ i : nat, (i < 12)%nat →
      (v !!! i ∈ edges ∨ v' !!! i ∈ edges) → v !!! i = v' !!! i.
Proof.
  intros Hlen Hlen'. unfold slice_places. split.
  - intros Heq i Hi Hin.
    apply (f_equal (λ l, l !! i)) in Heq. rewrite !list_lookup_fmap in Heq.
    rewrite !(list_lookup_lookup_total_lt _ i) in Heq by lia.
    cbn [fmap option_fmap option_map] in Heq. injection Heq as Heq.
    revert Heq. repeat case_bool_decide; intros Heq; try discriminate Heq.
    + by injection Heq.
    + by destruct Hin.
  - intros Hall. apply list_eq. intros i. rewrite !list_lookup_fmap.
    destruct (decide (i < 12)%nat) as [Hi|Hi].
    + rewrite !(list_lookup_lookup_total_lt _ i) by lia.
      cbn [fmap option_fmap option_map]. f_equal.
      specialize (Hall i Hi).
      repeat case_bool_decide; try done.
      * f_equal. apply Hall. by left.
      * exfalso. rewrite Hall in * by (by left). done.
      * exfalso. rewrite <- Hall in * by (by right). done.
    + by rewrite !lookup_ge_None_2 by lia.
Qed.

(** X9.  A slice coordinate records exactly where the four edges of the
    slice are: for four distinct edges and two cubes whose edge permutation
    vectors are permutations of 0..11, the coordinates of the slice are
    equal if and only if every position holds the same edge of the slice in
    both cubes or an edge outside the slice in both. *)
Theorem slice_coordinate_records_places (c c' : Cube) (edges : vec) :
  slice_ok edges →
  edge_permutation c ≡ₚ seqZ 0 12 → edge_permutation c' ≡ₚ seqZ 0 12 →
  (coord_slice_sorted c edges = coord_slice_sorted c' edges
   ↔ ∀ i : nat, (i < 12)%nat →
       (edge_permutation c !!! i ∈ edges ∨ edge_permutation c' !!! i ∈ edges) →
       edge_permutation c !!! i = edge_permutation c' !!! i).
Proof.
  intros Hs Hp Hp'. rewrite coord_slice_sorted_places by done.
  apply slice_places_lookup; [by rewrite Hp|by rewrite Hp'].
Qed.

(** ** The meta-coordinates *)

Lemma slice_mask_eq_lookup edges (v v' : vec) :
  length v = 12%nat → length v' = 12%nat →
  slice_mask edges v = slice_mask edges v'
  ↔ ∀ i : nat, (i < 12)%nat → (v !!! i ∈ edges ↔ v' !!! i ∈ edges).
Proof.
  intros Hlen Hlen'. split.
  - intros Heq i Hi.
    apply (f_equal (λ l, l !!! i)) in Heq.
    rewrite !slice_mask_lookup in Heq by lia.
    rewrite <- (bool_decide_eq_true (v !!! i ∈ edges)),
      <- (bool_decide_eq_true (v' !!! i ∈ edges)). by rewrite Heq.
  - intros Hall. apply list_eq_same_length with 12%nat;
      [by rewrite length_slice_mask..|].
    intros i b b' Hi Hb Hb'.
    apply list_lookup_total_correct in Hb, Hb'.
    rewrite slice_mask_lookup in Hb, Hb' by lia. subst.
    apply bool_decide_ext, Hall, Hi.
Qed.

Lemma slice_quot_rem c c' edges :
  slice_ok edges →
  edge_permutation c ≡ₚ seqZ 0 12 → edge_permutation c' ≡ₚ seqZ 0 12 →
  (coord_slice_sorted c edges `quot` 24 = coord_slice_sorted c' edges `quot` 24
   ↔ slice_mask edges (edge_permutation c)
     = slice_mask edges (edge_permutation c')) ∧
  (coord_slice_sorted c edges `rem` 24 = coord_slice_sorted c' edges `rem` 24
   ↔ filter (λ e, e ∈ edges) (edge_permutation c)
     = filter (λ e, e ∈ edges) (edge_permutation c')).
Proof.
  intros Hs Hp Hp'.
  destruct (coord_slice_sorted_parts c edges Hs Hp) as (E & Hb & Hpos).
  destruct (coord_slice_sorted_parts c' edges Hs Hp') as (E' & Hb' & Hpos').
  assert (length (edge_permutation c) = 12%nat) as Hlen by (by rewrite Hp).
  assert (length (edge_permutation c') = 12%nat) as Hlen' by (by rewrite Hp').
  assert (∀ p r, 0 ≤ r < 24 → 0 ≤ p →
            (24 * p + r) `quot` 24 = p ∧ (24 * p + r) `rem` 24 = r) as Hqr
    by (intros; Z.to_euclidean_division_equations; lia).
  rewrite E, E'.
  destruct (Hqr _ _ Hb Hpos) as [-> ->].
  destruct (Hqr _ _ Hb' Hpos') as [-> ->].
  split; split.
  - intros Heq.
    apply mask_rank_inj; [by rewrite length_slice_mask..| | |done].
    + rewrite slice_mask_count. by apply slice_members.
    + rewrite slice_mask_count. by apply slice_members.
  - by intros ->.
  - intros Heq. apply (inj reverse). apply rank_above_inj; [|done].
    by rewrite !reverse_Permutation, Hp, Hp'.
  - by intros ->.
Qed.

Section MetaCoordinates.
Context `{Header} (Hok : header_ok).

(** X10.  What the two UD meta-coordinates record, on cubes whose edge
    permutation vectors are permutations of 0..11: the unsorted UD
    coordinates of two cubes are equal if and only if the same positions
    hold an edge of the UD slice, and their UD permutation coordinates are
    equal if and only if the edges of the UD slice come in the same order
    along the vector. *)
Theorem ud_meta_coordinates_record (c c' : Cube) :
  edge_permutation c ≡ₚ seqZ 0 12 → edge_permutation c' ≡ₚ seqZ 0 12 →
  (coord_ud_unsorted c = coord_ud_unsorted c'
   ↔ ∀ i : nat, (i < 12)%nat →
       (edge_permutation c !!! i ∈ [EDGE_FR; EDGE_FL; EDGE_BL; EDGE_BR]
        ↔ edge_permutation c' !!! i ∈ [EDGE_FR; EDGE_FL; EDGE_BL; EDGE_BR])) ∧
  (coord_ud_permutation c = coord_ud_permutation c'
   ↔ filter (λ e, e ∈ [EDGE_FR; EDGE_FL; EDGE_BL; EDGE_BR]) (edge_permutation c)
     = filter (λ e, e ∈ [EDGE_FR; EDGE_FL; EDGE_BL; EDGE_BR])
         (edge_permutation c')).
Proof.
  intros Hp Hp'. destruct (slices_ok Hok) as (Hud & _ & _).
  destruct (slice_quot_rem c c' _ Hud Hp Hp') as [Hq Hr].
  split; [|exact Hr].
  rewrite <- slice_mask_eq_lookup by (by rewrite ?Hp, ?Hp'). exact Hq.
Qed.

Lemma edge_permutation_parts (c c' : Cube) :
  edge_permutation c ≡ₚ seqZ 0 12 → edge_permutation c' ≡ₚ seqZ 0 12 →
  (coord_edge_permutation c = coord_edge_permutation c'
   ↔ coord_rl_sorted c = coord_rl_sorted c' ∧
     filter (λ e, e ∈ [EDGE_UR; EDGE_UL; EDGE_DL; EDGE_DR]) (edge_permutation c)
     = filter (λ e, e ∈ [EDGE_UR; EDGE_UL; EDGE_DL; EDGE_DR])
         (edge_permutation c')).
Proof.
  intros Hp Hp'. destruct (slices_ok Hok) as (_ & _ & Hfb).
  destruct (slice_quot_rem c c' _ Hfb Hp Hp') as [_ Hr].
  rewrite <- Hr. unfold coord_edge_permutation, edge_permutation_calc.
  fold (coord_fb_sorted c) (coord_fb_sorted c').
  pose proof (coord_slice_sorted_bound c _ Hfb Hp) as (_ & B & _).
  pose proof (coord_slice_sorted_bound c' _ Hfb Hp') as (_ & B' & _).
  fold (coord_fb_sorted c) in B. fold (coord_fb_sorted c') in B'.
  split; [lia|]. intros [-> ->]. done.
Qed.

(** X11.  What the edge permutation coordinate records, on cubes whose
    edge permutation vectors are permutations of 0..11: two cubes have the
    same edge permutation coordinate if and only if they have the same
    sorted RL coordinate and the edges of the FB slice come in the same
    order along the vector.  The positions of the FB-slice edges are not
    part of it. *)
Theorem edge_permutation_coordinate_records (c c' : Cube) :
  edge_permutation c ≡ₚ seqZ 0 12 → edge_permutation c' ≡ₚ seqZ 0 12 →
  (coord_edge_permutation c = coord_edge_permutation c'
   ↔ coord_rl_sorted c = coord_rl_sorted c' ∧
     filter (λ e, e ∈ [EDGE_UR; EDGE_UL; EDGE_DL; EDGE_DR]) (edge_permutation c)
     = filter (λ e, e ∈ [EDGE_UR; EDGE_UL; EDGE_DL; EDGE_DR])
         (edge_permutation c')).
Proof. apply edge_permutation_parts. Qed.

Lemma edge_in_a_slice (e : Z) :
  e ∈ seqZ 0 12 →
  e ∈ [EDGE_FR; EDGE_FL; EDGE_BL; EDGE_BR] ∨
  e ∈ [EDGE_UF; EDGE_UB; EDGE_DB; EDGE_DF] ∨
  e ∈ [EDGE_UR; EDGE_UL; EDGE_DL; EDGE_DR].
Proof.
  rewrite <- (edges_indices Hok). unfold all_edges. intros Hin.
  rewrite !elem_of_cons in Hin.
  destruct Hin
    as [->|[->|[->|[->|[->|[->|[->|[->|[->|[->|[->|[->|Hn]]]]]]]]]]]];
    [..|by apply elem_of_nil in Hn].
  all: first [ left; solve [elem_of_literal]
             | right; left; solve [elem_of_literal]
             | right; right; solve [elem_of_literal] ].
Qed.

Lemma slices_determine_edges (c c' : Cube) :
  edge_permutation c ≡ₚ seqZ 0 12 → edge_permutation c' ≡ₚ seqZ 0 12 →
  coord_ud_sorted c = coord_ud_sorted c' →
  coord_rl_sorted c = coord_rl_sorted c' →
  coord_fb_sorted c = coord_fb_sorted c' →
  edge_permutation c = edge_permutation c'.
Proof.
  intros Hp Hp' Hud Hrl Hfb.
  destruct (slices_ok Hok) as (Sud & Srl & Sfb).
  assert (length (edge_permutation c) = 12%nat) as Hlen by (by rewrite Hp).
  assert (length (edge_permutation c') = 12%nat) as Hlen' by (by rewrite Hp').
  apply coord_slice_sorted_places in Hud, Hrl, Hfb; try done.
  rewrite slice_places_lookup in Hud, Hrl, Hfb by done.
  apply list_eq_same_length with 12%nat; [done..|].
  intros i e e' Hi He He'.
  apply list_lookup_total_correct in He as He1.
  apply list_lookup_total_correct in He' as He1'. subst e e'.
  assert (edge_permutation c !!! i ∈ seqZ 0 12) as Hin
    by (rewrite <- Hp; by apply list_elem_of_lookup_2 with i).
  destruct (edge_in_a_slice _ Hin) as [Hs | [Hs | Hs]];
    [apply Hud|apply Hrl|apply Hfb]; auto.
Qed.

(** X12.  The six normal coordinates determine the cube: two well-formed
    cubes that satisfy the invariants of a real cube and agree on the
    corner orientation, edge orientation and corner permutation coordinates
    and on the three sorted slice coordinates are equal. *)
Theorem coordinates_determine_cube (c c' : Cube) :
  well_formed c → well_formed c' → cube_invariant c → cube_invariant c' →
  coord_corner_orientation c = coord_corner_orientation c' →
  coord_edge_orientation c = coord_edge_orientation c' →
  coord_corner_permutation c = coord_corner_permutation c' →
  coord_ud_sorted c = coord_ud_sorted c' →
  coord_rl_sorted c = coord_rl_sorted c' →
  coord_fb_sorted c = coord_fb_sorted c' →
  c = c'.
Proof.
  intros Hw Hw' Hi Hi' Hco Heo Hcp Hud Hrl Hfb.
  assert (corner_orientation c = corner_orientation c') as E1.
  { destruct Hw, Hw', Hi, Hi'.
    unfold coord_corner_orientation in Hco.
    rewrite !decide_False in Hco
      by (intros E; rewrite E in *; discriminate).
    by apply (orientation_coordinate_inj 3 7); [right|..]. }
  assert (edge_orientation c = edge_orientation c') as E2.
  { destruct Hw, Hw', Hi, Hi'.
    unfold coord_edge_orientation in Heo.
    rewrite !decide_False in Heo
      by (intros E; rewrite E in *; discriminate).
    by apply (orientation_coordinate_inj 2 11); [left|..]. }
  assert (corner_permutation c = corner_permutation c') as E3.
  { apply rank_below_inj; [|done].
    by rewrite (inv_cp c Hi), (inv_cp c' Hi'). }
  assert (edge_permutation c = edge_permutation c') as E4
    by (apply slices_determine_edges; (done || apply Hi || apply Hi')).
  destruct c, c'. cbn in *. by subst.
Qed.

Lemma slices_disjoint (e : Z) :
  (e ∈ [EDGE_FR; EDGE_FL; EDGE_BL; EDGE_BR] →
   (e ∉ [EDGE_UF; EDGE_UB; EDGE_DB; EDGE_DF]) ∧
   (e ∉ [EDGE_UR; EDGE_UL; EDGE_DL; EDGE_DR])) ∧
  (e ∈ [EDGE_UF; EDGE_UB; EDGE_DB; EDGE_DF] →
   e ∉ [EDGE_UR; EDGE_UL; EDGE_DL; EDGE_DR]).
Proof.
  pose proof edges_NoDup Hok as Hnd. unfold all_edges in Hnd.
  nodup_facts Hnd. rewrite !elem_of_cons, !elem_of_nil. split.
  - intros [->|[->|[->|[->|[]]]]]; split; intros [E|[E|[E|[E|[]]]]];
      first [done | by symmetry in E].
  - intros [->|[->|[->|[->|[]]]]] [E|[E|[E|[E|[]]]]];
      first [done | by symmetry in E].
Qed.

Lemma fb_mask_from_others (v v' : vec) :
  v ≡ₚ seqZ 0 12 → v' ≡ₚ seqZ 0 12 →
  slice_mask [EDGE_FR; EDGE_FL; EDGE_BL; EDGE_BR] v
  = slice_mask [EDGE_FR; EDGE_FL; EDGE_BL; EDGE_BR] v' →
  slice_mask [EDGE_UF; EDGE_UB; EDGE_DB; EDGE_DF] v
  = slice_mask [EDGE_UF; EDGE_UB; EDGE_DB; EDGE_DF] v' →
  slice_mask [EDGE_UR; EDGE_UL; EDGE_DL; EDGE_DR] v
  = slice_mask [EDGE_UR; EDGE_UL; EDGE_DL; EDGE_DR] v'.
Proof.
  intros Hp Hp'.
  assert (length v = 12%nat) as Hlen by (by rewrite Hp).
  assert (length v' = 12%nat) as Hlen' by (by rewrite Hp').
  rewrite !slice_mask_eq_lookup by done. intros Hud Hrl i Hi.
  specialize (Hud i Hi). specialize (Hrl i Hi).
  assert (v !!! i ∈ seqZ 0 12) as Hin
    by (rewrite <- Hp; apply list_elem_of_lookup_2 with i;
        apply list_lookup_lookup_total_lt; lia).
  assert (v' !!! i ∈ seqZ 0 12) as Hin'
    by (rewrite <- Hp'; apply list_elem_of_lookup_2 with i;
        apply list_lookup_lookup_total_lt; lia).
  pose proof (slices_disjoint (v !!! i)) as [D1 D2].
  pose proof (slices_disjoint (v' !!! i)) as [D1' D2'].
  destruct (edge_in_a_slice _ Hin) as [S | [S | S]];
    destruct (edge_in_a_slice _ Hin') as [S' | [S' | S']];
    tauto.
Qed.

(** X13.  The three meta-coordinates determine the edges: two cubes
    whose edge permutation vectors are permutations of 0..11 and which
    agree on the unsorted UD coordinate, the UD permutation coordinate and
    the edge permutation coordinate have the same edge permutation
    vector. *)
Theorem meta_coordinates_determine_edges (c c' : Cube) :
  edge_permutation c ≡ₚ seqZ 0 12 → edge_permutation c' ≡ₚ seqZ 0 12 →
  coord_ud_unsorted c = coord_ud_unsorted c' →
  coord_ud_permutation c = coord_ud_permutation c' →
  coord_edge_permutation c = coord_edge_permutation c' →
  edge_permutation c = edge_permutation c'.
Proof.
  intros Hp Hp' Hun Hpe Hed.
  destruct (slices_ok Hok) as (Sud & Srl & Sfb).
  destruct (slice_quot_rem c c' _ Sud Hp Hp') as [Hq Hr].
  apply Hq in Hun. apply Hr in Hpe.
  apply edge_permutation_parts in Hed as [Hrl Hfb]; [|done..].
  apply slices_determine_edges; [done..| |done|].
  - apply coord_slice_sorted_places; [done..|]. by apply places_from_mask.
  - apply coord_slice_sorted_places; [done..|].
    apply places_from_mask; [|done].
    apply fb_mask_from_others; [done..|].
    apply coord_slice_sorted_places in Hrl; [|done..].
    by apply mask_from_places in Hrl as [? _].
Qed.

End MetaCoordinates.

(** * Coordinates and moves together *)

Lemma fmap_lookup_total_eq {B : Type} (g : Z → B) (v v' : vec) (k : nat) :
  g <$> v = g <$> v' → g (v !!! k) = g (v' !!! k).
Proof.
  intros Heq. apply (f_equal (λ l, l !! k)) in Heq.
  rewrite !list_lookup_fmap in Heq. rewrite !list_lookup_total_alt.
  destruct (v !! k), (v' !! k); try discriminate Heq; [|done].
  by injection Heq.
Qed.

Lemma fmap_cycle_perm {B : Type} (g : Z → B) cycle amt (v v' : vec) :
  g <$> v = g <$> v' →
  g <$> cycle_perm cycle amt v = g <$> cycle_perm cycle amt v'.
Proof.
  intros Heq. unfold cycle_perm. cbn [foldl].
  rewrite !list_fmap_insert, Heq.
  by rewrite !(fmap_lookup_total_eq g v v' _ Heq).
Qed.

Section CycleMoves.
Context (i0 i1 i2 i3 : nat).
Context (H01 : i0 ≠ i1) (H02 : i0 ≠ i2) (H03 : i0 ≠ i3)
        (H12 : i1 ≠ i2) (H13 : i1 ≠ i3) (H23 : i2 ≠ i3).
Context (v : vec).
Context (L0 : (i0 < length v)%nat) (L1 : (i1 < length v)%nat)
        (L2 : (i2 < length v)%nat) (L3 : (i3 < length v)%nat).

Lemma cycle_perm_changes tn :
  NoDup v → cycle_perm [i0; i1; i2; i3] (Z.to_nat (turn_amt_of tn)) v ≠ v.
Proof.
  intros Hnd Heq.
  assert (∀ i j, (i < length v)%nat → (j < length v)%nat →
            v !!! i = v !!! j → i = j) as Hinj.
  { intros i j Hi Hj Hij.
    apply (NoDup_lookup v i j (v !!! i)); [done|..].
    - by apply list_lookup_lookup_total_lt.
    - rewrite Hij. by apply list_lookup_lookup_total_lt. }
  apply (f_equal (λ w, w !!! match tn with
                             | Clockwise => i1
                             | HalfTurn => i2
                             | CounterClockwise => i3
                             end)) in Heq.
  destruct tn; unfold cycle_perm in Heq; simpl in Heq; revert Heq; lk;
    intros Heq; apply Hinj in Heq; done.
Qed.

End CycleMoves.

Lemma table_perm_changes l v tn :
  cycle_ok (Z.of_nat (length v)) l → NoDup v →
  cycle_perm (Z.to_nat <$> l) (Z.to_nat (turn_amt_of tn)) v ≠ v.
Proof.
  intros (c0 & c1 & c2 & c3 & -> & (? & ? & ? & ?)
          & (? & ? & ? & ? & ? & ?)) Hnd.
  cbn [fmap list_fmap]. apply cycle_perm_changes; (done || lia).
Qed.

Section CoordinatesAndMoves.
Context `{Header} (Hok : header_ok).

(** X14.  The coordinates can be tabulated move by move: for each of the
    18 moves and two well-formed cubes that satisfy the invariants of a
    real cube, if the cubes agree on the corner orientation coordinate
    then so do the cubes the move returns, and likewise for the edge
    orientation coordinate, the corner permutation coordinate, the sorted
    coordinate of any slice of four distinct edges, and the unsorted UD
    coordinate. *)
Theorem coordinates_follow_moves (f : face) (tn : turn) (c d : Cube) :
  well_formed c → well_formed d → cube_invariant c → cube_invariant d →
  ∃ c' d',
    perform_move c (move_id f tn) = Some c' ∧
    perform_move d (move_id f tn) = Some d' ∧
    (coord_corner_orientation c = coord_corner_orientation d →
     coord_corner_orientation c' = coord_corner_orientation d') ∧
    (coord_edge_orientation c = coord_edge_orientation d →
     coord_edge_orientation c' = coord_edge_orientation d') ∧
    (coord_corner_permutation c = coord_corner_permutation d →
     coord_corner_permutation c' = coord_corner_permutation d') ∧
    (∀ edges, slice_ok edges →
       coord_slice_sorted c edges = coord_slice_sorted d edges →
       coord_slice_sorted c' edges = coord_slice_sorted d' edges) ∧
    (coord_ud_unsorted c = coord_ud_unsorted d →
     coord_ud_unsorted c' = coord_ud_unsorted d').
Proof.
  intros Hw Hw' Hi Hi'. exists (moved f tn c), (moved f tn d).
  split; [by apply perform_move_moved, well_formed_sized|].
  split; [by apply perform_move_moved, well_formed_sized|].
  pose proof (moved_invariant Hok f tn c Hi) as Hm.
  pose proof (moved_invariant Hok f tn d Hi') as Hm'.
  repeat split.
  - intros Hco.
    assert (corner_orientation c = corner_orientation d) as E.
    { destruct Hw, Hw', Hi, Hi'. unfold coord_corner_orientation in Hco.
      rewrite !decide_False in Hco
        by (intros E; rewrite E in *; discriminate).
      by apply (orientation_coordinate_inj 3 7); [right|..]. }
    unfold coord_corner_orientation, moved. cbn [corner_orientation].
    by rewrite E.
  - intros Heo.
    assert (edge_orientation c = edge_orientation d) as E.
    { destruct Hw, Hw', Hi, Hi'. unfold coord_edge_orientation in Heo.
      rewrite !decide_False in Heo
        by (intros E; rewrite E in *; discriminate).
      by apply (orientation_coordinate_inj 2 11); [left|..]. }
    unfold coord_edge_orientation, moved. cbn [edge_orientation].
    by rewrite E.
  - intros Hcp.
    assert (corner_permutation c = corner_permutation d) as E.
    { apply rank_below_inj; [|done].
      by rewrite (inv_cp c Hi), (inv_cp d Hi'). }
    unfold coord_corner_permutation, moved. cbn [corner_permutation].
    by rewrite E.
  - intros edges Hs Heq.
    apply coord_slice_sorted_places in Heq; [|done|apply Hi|apply Hi'].
    apply coord_slice_sorted_places; [done|apply Hm|apply Hm'|].
    unfold moved. cbn [edge_permutation].
    by apply fmap_cycle_perm.
  - destruct (slices_ok Hok) as (Hud & _ & _).
    unfold coord_ud_unsorted, ud_unsorted_calc, coord_ud_sorted.
    destruct (slice_quot_rem c d _ Hud (inv_ep c Hi) (inv_ep d Hi'))
      as [-> _].
    destruct (slice_quot_rem _ _ _ Hud (inv_ep _ Hm) (inv_ep _ Hm'))
      as [-> _].
    unfold moved. cbn [edge_permutation]. apply fmap_cycle_perm.
Qed.

(** X15.  No move leaves a cube as it is: on a cube that satisfies the
    invariants of a real cube each of the 18 moves returns a cube with
    another corner permutation vector and another edge permutation
    vector. *)
Theorem move_changes_cube (f : face) (tn : turn) (c : Cube) :
  cube_invariant c →
  ∃ c', perform_move c (move_id f tn) = Some c' ∧
    corner_permutation c' ≠ corner_permutation c ∧
    edge_permutation c' ≠ edge_permutation c.
Proof.
  intros Hi. pose proof (invariant_sized c Hi) as Hs.
  exists (moved f tn c). split; [by apply perform_move_moved|].
  destruct Hs as (Lcp & _ & Lep & _).
  unfold moved. cbn [corner_permutation edge_permutation]. split.
  - apply table_perm_changes.
    + rewrite Lcp. apply (face_corners_ok Hok).
    + rewrite (inv_cp c Hi). apply NoDup_seqZ.
  - apply table_perm_changes.
    + rewrite Lep. apply (face_edges_ok Hok).
    + rewrite (inv_ep c Hi). apply NoDup_seqZ.
Qed.

End CoordinatesAndMoves.

(** ** The moves that keep the orientations and the UD slice *)

Lemma zero_lookup (v : vec) (i : nat) :
  Forall (λ o, o = 0) v → (i < length v)%nat → v !!! i = 0.
Proof.
  intros Hz Hi. rewrite Forall_forall in Hz. apply Hz.
  apply list_elem_of_lookup_2 with i. by apply list_lookup_lookup_total_lt.
Qed.

Section CycleKeeps.
Context (i0 i1 i2 i3 : nat).
Context (H01 : i0 ≠ i1) (H02 : i0 ≠ i2) (H03 : i0 ≠ i3)
        (H12 : i1 ≠ i2) (H13 : i1 ≠ i3) (H23 : i2 ≠ i3).
Context (v : vec).
Context (L0 : (i0 < length v)%nat) (L1 : (i1 < length v)%nat)
        (L2 : (i2 < length v)%nat) (L3 : (i3 < length v)%nat).

Lemma cycle_orient_zero modulus delta tn :
  Forall (λ o, o = 0) v →
  (∀ k, (k < 4)%nat →
     delta_total delta (Z.to_nat (turn_amt_of tn)) k `rem` modulus = 0) →
  cycle_orient modulus [i0; i1; i2; i3] delta (Z.to_nat (turn_amt_of tn)) v
  = v.
Proof.
  intros Hz Hd. unfold cycle_orient.
  remember (delta_total delta (Z.to_nat (turn_amt_of tn))) as dt eqn:Hdt.
  clear Hdt. destruct tn; simpl.
  all: rewrite !(zero_lookup v _ Hz), !Z.add_0_l, !Hd by lia.
  all: apply vec_ext; [by rewrite !length_insert|].
  all: intros p Hp.
  all: destruct (decide (p = i0)) as [->|];
    [|destruct (decide (p = i1)) as [->|];
      [|destruct (decide (p = i2)) as [->|];
        [|destruct (decide (p = i3)) as [->|]]]].
  all: lk; rewrite ?zero_lookup by assumption; done.
Qed.

Lemma fmap_cycle_perm_id {B : Type} (g : Z → B) tn :
  g (v !!! i0) = g (v !!! i2) → g (v !!! i1) = g (v !!! i3) →
  (tn ≠ HalfTurn → g (v !!! i0) = g (v !!! i1)) →
  g <$> cycle_perm [i0; i1; i2; i3] (Z.to_nat (turn_amt_of tn)) v = g <$> v.
Proof.
  intros E02 E13 E01. apply list_eq. intros p. rewrite !list_lookup_fmap.
  destruct (decide (p < length v)%nat) as [Hp|Hp].
  - rewrite !list_lookup_lookup_total_lt by (rewrite ?length_cycle_perm; lia).
    cbn [fmap option_fmap option_map]. f_equal.
    destruct (decide (p = i0)) as [->|];
      [|destruct (decide (p = i1)) as [->|];
        [|destruct (decide (p = i2)) as [->|];
          [|destruct (decide (p = i3)) as [->|]]]].
    5: by rewrite cycle_perm_frame.
    all: destruct tn; unfold cycle_perm; simpl; lk.
    all: first [ done | by symmetry
               | specialize (E01 ltac:(done)); congruence ].
  - by rewrite !lookup_ge_None_2 by (rewrite ?length_cycle_perm; lia).
Qed.

End CycleKeeps.

Section KeptByMoves.
Context `{Header} (Hok : header_ok).

Lemma face_twist_kept f tn k :
  f = FaceU ∨ f = FaceD ∨ tn = HalfTurn → (k < 4)%nat →
  delta_total (corner_twist (face_tables f)) (Z.to_nat (turn_amt_of tn)) k
    `rem` 3 = 0.
Proof.
  intros Hm Hk.
  destruct f; simpl;
    rewrite ?(twist_none Hok), ?(twist_cw Hok), ?(twist_ccw Hok).
  all: destruct tn; try (destruct Hm as [?|[?|?]]; discriminate).
  all: destruct k as [|[|[|[|]]]]; try lia; reflexivity.
Qed.

Lemma face_flip_kept f tn k :
  f = FaceU ∨ f = FaceD ∨ tn = HalfTurn → (k < 4)%nat →
  delta_total (edge_flip (face_tables f)) (Z.to_nat (turn_amt_of tn)) k
    `rem` 2 = 0.
Proof.
  intros Hm Hk.
  destruct f; simpl; rewrite ?(flip_none Hok), ?(flip_flip Hok).
  all: destruct tn; try (destruct Hm as [?|[?|?]]; discriminate).
  all: destruct k as [|[|[|[|]]]]; try lia; reflexivity.
Qed.

Lemma table_orient_zero modulus l delta v tn :
  cycle_ok (Z.of_nat (length v)) l → Forall (λ o, o = 0) v →
  (∀ k, (k < 4)%nat →
     delta_total delta (Z.to_nat (turn_amt_of tn)) k `rem` modulus = 0) →
  cycle_orient modulus (Z.to_nat <$> l) delta (Z.to_nat (turn_amt_of tn)) v
  = v.
Proof.
  intros (c0 & c1 & c2 & c3 & -> & (? & ? & ? & ?)
          & (? & ? & ? & ? & ? & ?)) Hz Hd.
  cbn [fmap list_fmap]. apply cycle_orient_zero; (done || lia).
Qed.

Lemma face_edges_ud f tn e0 e1 e2 e3 :
  f = FaceU ∨ f = FaceD ∨ tn = HalfTurn →
  edges_moved (face_tables f) = [e0; e1; e2; e3] →
  (e0 ∈ [EDGE_FR; EDGE_FL; EDGE_BL; EDGE_BR]
   ↔ e2 ∈ [EDGE_FR; EDGE_FL; EDGE_BL; EDGE_BR]) ∧
  (e1 ∈ [EDGE_FR; EDGE_FL; EDGE_BL; EDGE_BR]
   ↔ e3 ∈ [EDGE_FR; EDGE_FL; EDGE_BL; EDGE_BR]) ∧
  (tn ≠ HalfTurn →
   (e0 ∈ [EDGE_FR; EDGE_FL; EDGE_BL; EDGE_BR]
    ↔ e1 ∈ [EDGE_FR; EDGE_FL; EDGE_BL; EDGE_BR])).
Proof.
  intros Hm Et.
  assert (∀ e, e ∈ [EDGE_UF; EDGE_UB; EDGE_DB; EDGE_DF] ∨
               e ∈ [EDGE_UR; EDGE_UL; EDGE_DL; EDGE_DR] →
               e ∉ [EDGE_FR; EDGE_FL; EDGE_BL; EDGE_BR]) as Hout.
  { intros e Hin Hud. destruct (proj1 (slices_disjoint Hok e) Hud).
    by destruct Hin. }
  assert (∀ e e', e ∉ [EDGE_FR; EDGE_FL; EDGE_BL; EDGE_BR] →
                  e' ∉ [EDGE_FR; EDGE_FL; EDGE_BL; EDGE_BR] →
                  (e ∈ [EDGE_FR; EDGE_FL; EDGE_BL; EDGE_BR]
                   ↔ e' ∈ [EDGE_FR; EDGE_FL; EDGE_BL; EDGE_BR])) as Hnn
    by (intros; split; intros; done).
  assert (∀ e e', e ∈ [EDGE_FR; EDGE_FL; EDGE_BL; EDGE_BR] →
                  e' ∈ [EDGE_FR; EDGE_FL; EDGE_BL; EDGE_BR] →
                  (e ∈ [EDGE_FR; EDGE_FL; EDGE_BL; EDGE_BR]
                   ↔ e' ∈ [EDGE_FR; EDGE_FL; EDGE_BL; EDGE_BR])) as Hyy
    by (intros; split; intros; done).
  destruct f; simpl in Et; injection Et as <- <- <- <-.
  all: (split; [|split]).
  all: try (intros Hne; destruct Hm as [?|[?|?]]; try discriminate;
            try contradiction).
  all: first
    [ apply Hyy; solve [elem_of_literal]
    | apply Hnn; apply Hout;
      first [ left; solve [elem_of_literal] | right; solve [elem_of_literal] ] ].
Qed.

Lemma solved_mask_at (c : Cube) (edges : vec) (e : Z) :
  slice_mask edges (edge_permutation c)
  = slice_mask edges (edge_permutation solved) →
  0 ≤ e < 12 →
  bool_decide (edge_permutation c !!! Z.to_nat e ∈ edges)
  = bool_decide (e ∈ edges).
Proof.
  intros Hmask He.
  rewrite (fmap_lookup_total_eq (λ e, bool_decide (e ∈ edges)) _ _
             (Z.to_nat e) Hmask).
  change (edge_permutation solved) with (seqZ 0 12).
  rewrite lookup_total_seqZ_lt by lia.
  by replace (0 + Z.of_nat (Z.to_nat e)) with e by lia.
Qed.

Lemma orientation_zero (modulus : Z) (n : nat) (l : vec) :
  modulus = 2 ∨ modulus = 3 →
  length l = S n → Forall (λ o, 0 ≤ o < modulus) l →
  vsum l `mod` modulus = 0 →
  for_loop (λ ii ret, o ← vget l ii; Some (modulus * ret + o))
           (seqZ 0 (Z.of_nat (length l) - 1)) 0 = Some 0 →
  Forall (λ o, o = 0) l.
Proof.
  intros Hm Hlen Hr Hs Hco.
  assert (l = replicate (S n) 0) as ->.
  { apply (orientation_coordinate_inj modulus n); try done.
    - by rewrite length_replicate.
    - apply Forall_replicate. destruct Hm; lia.
    - assert (vsum (replicate (S n) 0) = 0) as ->; [|by destruct Hm as [-> | ->]].
      unfold vsum. clear. induction (S n) as [|k IH]; simpl; lia.
    - rewrite Hco. symmetry.
      rewrite replicate_S_end, orientation_loop. f_equal. clear.
      induction n as [|k IH]; [done|].
      rewrite replicate_S_end, foldl_app. cbn [foldl]. rewrite IH. lia. }
  by apply Forall_replicate.
Qed.

(** X16.  The turns of the U and D faces and the half turns of the other
    faces keep the cubes with untwisted corners, unflipped edges and the
    UD-slice edges in the UD slice among themselves: on a well-formed cube
    that satisfies the invariants of a real cube, such a move keeps a
    corner orientation coordinate of 0, an edge orientation coordinate
    of 0, and an unsorted UD coordinate equal to that of the solved
    cube. *)
Theorem slice_moves_keep_orientations (f : face) (tn : turn) (c : Cube) :
  well_formed c → cube_invariant c →
  f = FaceU ∨ f = FaceD ∨ tn = HalfTurn →
  ∃ c', perform_move c (move_id f tn) = Some c' ∧
    (coord_corner_orientation c = Some 0 →
     coord_corner_orientation c' = Some 0) ∧
    (coord_edge_orientation c = Some 0 →
     coord_edge_orientation c' = Some 0) ∧
    (coord_ud_unsorted c = coord_ud_unsorted solved →
     coord_ud_unsorted c' = coord_ud_unsorted solved).
Proof.
  intros Hw Hi Hm. exists (moved f tn c).
  split; [by apply perform_move_moved, well_formed_sized|].
  pose proof (moved_invariant Hok f tn c Hi) as Hmi.
  pose proof (face_corners_ok Hok f) as Hfc.
  pose proof (face_edges_ok Hok f) as Hfe.
  destruct Hw as [Lcp Lco Lep Leo Rco Reo].
  repeat split.
  - intros Hco. rewrite <- Hco.
    unfold coord_corner_orientation, moved. cbn [corner_orientation].
    rewrite table_orient_zero; [done|by rewrite Lco| |].
    + unfold coord_corner_orientation in Hco.
      rewrite decide_False in Hco
        by (intros E; rewrite E in *; discriminate).
      apply (orientation_zero 3 7); [by right|done..|apply Hi|done].
    + intros k Hk. by apply face_twist_kept.
  - intros Heo. rewrite <- Heo.
    unfold coord_edge_orientation, moved. cbn [edge_orientation].
    rewrite table_orient_zero; [done|by rewrite Leo| |].
    + unfold coord_edge_orientation in Heo.
      rewrite decide_False in Heo
        by (intros E; rewrite E in *; discriminate).
      apply (orientation_zero 2 11); [by left|done..|apply Hi|done].
    + intros k Hk. by apply face_flip_kept.
  - destruct (slices_ok Hok) as (Hud & _ & _).
    unfold coord_ud_unsorted, ud_unsorted_calc, coord_ud_sorted.
    destruct (slice_quot_rem c solved _ Hud (inv_ep c Hi)
                (inv_ep _ solved_invariant)) as [-> _].
    destruct (slice_quot_rem (moved f tn c) solved _ Hud (inv_ep _ Hmi)
                (inv_ep _ solved_invariant)) as [-> _].
    intros Hmask. rewrite <- Hmask.
    unfold moved. cbn [edge_permutation]. unfold slice_mask at 1 2.
    destruct Hfe as (e0 & e1 & e2 & e3 & Et & (? & ? & ? & ?)
                     & (? & ? & ? & ? & ? & ?)).
    destruct (face_edges_ud f tn e0 e1 e2 e3 Hm Et) as (I02 & I13 & I01).
    rewrite Et. cbn [fmap list_fmap].
    apply fmap_cycle_perm_id; try lia.
    + rewrite !(solved_mask_at c _ _ Hmask) by lia. by apply bool_decide_ext.
    + rewrite !(solved_mask_at c _ _ Hmask) by lia. by apply bool_decide_ext.
    + intros Hne.
      rewrite !(solved_mask_at c _ _ Hmask) by lia.
      by apply bool_decide_ext, I01.
Qed.

End KeptByMoves.

(** * Instances of the further properties *)

(** Witness of X1: U followed by U is U2 on the solved cube. *)
Lemma turns_of_a_face_add_witness :
  @perform_moves reference_header solved [0; 0]
  = @perform_move reference_header solved 1.
Proof.
  apply (@turns_of_a_face_add reference_header reference_header_ok
           FaceU Clockwise Clockwise HalfTurn solved).
  - split; try reflexivity; simpl; repeat constructor; lia.
  - reflexivity.
Defined.

(** Witness of X2: R2 twice on the solved cube. *)
Lemma half_turn_twice_witness :
  @perform_moves reference_header solved [10; 10] = Some solved.
Proof.
  apply (@half_turn_twice reference_header reference_header_ok solved 10).
  - split; try reflexivity; simpl; repeat constructor; lia.
  - do 3 right. left.
Defined.

(** Witness of X3: the move F on the solved cube. *)
Lemma turn_parity_witness :
  ∃ c', @perform_move reference_header solved 6 = Some c' ∧
    parity (corner_permutation c') = true ∧
    parity (edge_permutation c') = true.
Proof.
  apply (@turn_parity reference_header reference_header_ok
           FaceF Clockwise solved).
  split; reflexivity.
Defined.

(** Witness of X4: U and D2 on the solved cube. *)
Lemma opposite_faces_commute_witness :
  @perform_moves reference_header solved [0; 16]
  = @perform_moves reference_header solved [16; 0].
Proof.
  apply (@opposite_faces_commute reference_header reference_header_ok
           FaceU Clockwise HalfTurn solved).
  repeat split.
Defined.

(** Witness of X7: the solved cube and the cube with two corners
    exchanged. *)
Lemma orientation_coordinates_injective_witness :
  corner_orientation solved
  = corner_orientation
      (mkCube [1; 0; 2; 3; 4; 5; 6; 7] [0; 0; 0; 0; 0; 0; 0; 0]
              [0; 1; 2; 3; 4; 5; 6; 7; 8; 9; 10; 11]
              [0; 0; 0; 0; 0; 0; 0; 0; 0; 0; 0; 0]).
Proof.
  apply (proj1 (orientation_coordinates_injective solved
    (mkCube [1; 0; 2; 3; 4; 5; 6; 7] [0; 0; 0; 0; 0; 0; 0; 0]
            [0; 1; 2; 3; 4; 5; 6; 7; 8; 9; 10; 11]
            [0; 0; 0; 0; 0; 0; 0; 0; 0; 0; 0; 0])
    ltac:(split; try reflexivity; simpl; repeat constructor; lia)
    ltac:(split; try reflexivity; simpl; repeat constructor; lia)));
    reflexivity.
Defined.

(** Witness of X8: the solved cube and the cube with two edges
    exchanged. *)
Lemma corner_permutation_coordinate_injective_witness :
  corner_permutation solved
  = corner_permutation
      (mkCube [0; 1; 2; 3; 4; 5; 6; 7] [0; 0; 0; 0; 0; 0; 0; 0]
              [1; 0; 2; 3; 4; 5; 6; 7; 8; 9; 10; 11]
              [0; 0; 0; 0; 0; 0; 0; 0; 0; 0; 0; 0]).
Proof.
  apply (proj2 (proj2 (corner_permutation_coordinate_injective solved
    (mkCube [0; 1; 2; 3; 4; 5; 6; 7] [0; 0; 0; 0; 0; 0; 0; 0]
            [1; 0; 2; 3; 4; 5; 6; 7; 8; 9; 10; 11]
            [0; 0; 0; 0; 0; 0; 0; 0; 0; 0; 0; 0])
    ltac:(simpl; lia) ltac:(reflexivity)))).
  reflexivity.
Defined.

(** Witness of X9: the slice of the edges 8 to 11 on the solved cube and
    on the cube with the edges 0 and 1 exchanged. *)
Lemma slice_coordinate_records_places_witness :
  coord_slice_sorted solved [8; 9; 10; 11]
  = coord_slice_sorted
      (mkCube [0; 1; 2; 3; 4; 5; 6; 7] [0; 0; 0; 0; 0; 0; 0; 0]
              [1; 0; 2; 3; 4; 5; 6; 7; 8; 9; 10; 11]
              [0; 0; 0; 0; 0; 0; 0; 0; 0; 0; 0; 0]) [8; 9; 10; 11]
  ↔ ∀ i : nat, (i < 12)%nat →
      (edge_permutation solved !!! i ∈ [8; 9; 10; 11] ∨
       [1; 0; 2; 3; 4; 5; 6; 7; 8; 9; 10; 11] !!! i ∈ [8; 9; 10; 11]) →
      edge_permutation solved !!! i
      = [1; 0; 2; 3; 4; 5; 6; 7; 8; 9; 10; 11] !!! i.
Proof.
  apply (slice_coordinate_records_places solved
    (mkCube [0; 1; 2; 3; 4; 5; 6; 7] [0; 0; 0; 0; 0; 0; 0; 0]
            [1; 0; 2; 3; 4; 5; 6; 7; 8; 9; 10; 11]
            [0; 0; 0; 0; 0; 0; 0; 0; 0; 0; 0; 0]) [8; 9; 10; 11]).
  - split; [|split]; [by apply (bool_decide_unpack _)|reflexivity|].
    repeat constructor; lia.
  - reflexivity.
  - apply (bool_decide_unpack _). reflexivity.
Defined.

(** Witness of X10: the solved cube against itself. *)
Lemma ud_meta_coordinates_record_witness :
  (@coord_ud_unsorted reference_header solved
   = @coord_ud_unsorted reference_header solved
   ↔ ∀ i : nat, (i < 12)%nat →
       (edge_permutation solved !!! i ∈ [8; 9; 10; 11]
        ↔ edge_permutation solved !!! i ∈ [8; 9; 10; 11])) ∧
  (@coord_ud_permutation reference_header solved
   = @coord_ud_permutation reference_header solved
   ↔ filter (λ e, e ∈ [8; 9; 10; 11]) (edge_permutation solved)
     = filter (λ e, e ∈ [8; 9; 10; 11]) (edge_permutation solved)).
Proof.
  apply (@ud_meta_coordinates_record reference_header reference_header_ok
           solved solved); reflexivity.
Defined.

(** Witness of X11: the solved cube against itself. *)
Lemma edge_permutation_coordinate_records_witness :
  @coord_edge_permutation reference_header solved
  = @coord_edge_permutation reference_header solved
  ↔ @coord_rl_sorted reference_header solved
    = @coord_rl_sorted reference_header solved ∧
    filter (λ e, e ∈ [0; 2; 6; 4]) (edge_permutation solved)
    = filter (λ e, e ∈ [0; 2; 6; 4]) (edge_permutation solved).
Proof.
  apply (@edge_permutation_coordinate_records reference_header
           reference_header_ok solved solved); reflexivity.
Defined.

(** Witness of X12: the solved cube against itself. *)
Lemma coordinates_determine_cube_witness : solved = solved.
Proof.
  apply (@coordinates_determine_cube reference_header reference_header_ok
           solved solved); try reflexivity.
  - split; try reflexivity; simpl; repeat constructor; lia.
  - split; try reflexivity; simpl; repeat constructor; lia.
  - split; reflexivity.
  - split; reflexivity.
Defined.

(** Witness of X13: the solved cube against itself. *)
Lemma meta_coordinates_determine_edges_witness :
  edge_permutation solved = edge_permutation solved.
Proof.
  apply (@meta_coordinates_determine_edges reference_header
           reference_header_ok solved solved); reflexivity.
Defined.

(** Witness of X14: the move R on the solved cube, twice. *)
Lemma coordinates_follow_moves_witness :
  ∃ c' d',
    @perform_move reference_header solved 9 = Some c' ∧
    @perform_move reference_header solved 9 = Some d' ∧
    (coord_corner_orientation solved = coord_corner_orientation solved →
     coord_corner_orientation c' = coord_corner_orientation d') ∧
    (coord_edge_orientation solved = coord_edge_orientation solved →
     coord_edge_orientation c' = coord_edge_orientation d') ∧
    (coord_corner_permutation solved = coord_corner_permutation solved →
     coord_corner_permutation c' = coord_corner_permutation d') ∧
    (∀ edges, slice_ok edges →
       coord_slice_sorted solved edges = coord_slice_sorted solved edges →
       coord_slice_sorted c' edges = coord_slice_sorted d' edges) ∧
    (@coord_ud_unsorted reference_header solved
     = @coord_ud_unsorted reference_header solved →
     @coord_ud_unsorted reference_header c'
     = @coord_ud_unsorted reference_header d').
Proof.
  apply (@coordinates_follow_moves reference_header reference_header_ok
           FaceR Clockwise solved solved).
  - split; try reflexivity; simpl; repeat constructor; lia.
  - split; try reflexivity; simpl; repeat constructor; lia.
  - split; reflexivity.
  - split; reflexivity.
Defined.

(** Witness of X15: the move B2 on the solved cube. *)
Lemma move_changes_cube_witness :
  ∃ c', @perform_move reference_header solved 13 = Some c' ∧
    corner_permutation c' ≠ corner_permutation solved ∧
    edge_permutation c' ≠ edge_permutation solved.
Proof.
  apply (@move_changes_cube reference_header reference_header_ok
           FaceB HalfTurn solved).
  split; reflexivity.
Defined.

(** Witness of X16: the move L2 on the solved cube. *)
Lemma slice_moves_keep_orientations_witness :
  ∃ c', @perform_move reference_header solved 4 = Some c' ∧
    (coord_corner_orientation solved = Some 0 →
     coord_corner_orientation c' = Some 0) ∧
    (coord_edge_orientation solved = Some 0 →
     coord_edge_orientation c' = Some 0) ∧
    (@coord_ud_unsorted reference_header solved
     = @coord_ud_unsorted reference_header solved →
     @coord_ud_unsorted reference_header c'
     = @coord_ud_unsorted reference_header solved).
Proof.
  apply (@slice_moves_keep_orientations reference_header reference_header_ok
           FaceL HalfTurn solved).
  - split; try reflexivity; simpl; repeat constructor; lia.
  - split; reflexivity.
  - right. right. reflexivity.
Defined.

(** * The bounds of the vectors *)

Lemma vget_range (v : vec) (i x : Z) :
  vget v i = Some x → 0 ≤ i < Z.of_nat (length v).
Proof.
  unfold vget. case_decide; [|done]. intros Hl.
  apply lookup_lt_Some in Hl. lia.
Qed.

Lemma corner_body_reads t amt ii f f' :
  corner_body t amt ii f = Some f' →
  this f' = this f ∧
  ∃ from, vget (corners_moved t) ii = Some from ∧
    0 ≤ from < Z.of_nat (length (corner_permutation (this f))) ∧
    0 ≤ from < Z.of_nat (length (corner_orientation (this f))).
Proof.
  unfold corner_body. intros Hb.
  destruct (vget (corners_moved t) ii) as [from|]; [|done].
  destruct amt as [amt|]; [|done]. cbn [mbind option_bind] in Hb.
  destruct (vget (corners_moved t) _) as [to|]; [|done].
  cbn [mbind option_bind] in Hb.
  destruct (vget (corner_permutation (this f)) from) as [p|] eqn:Ep; [|done].
  cbn [mbind option_bind] in Hb.
  destruct (vset (new_corner_permutation f) to p) as [ncp|]; [|done].
  cbn [mbind option_bind] in Hb.
  destruct (sum_delta _ _ _ _) as [tw|]; [|done].
  cbn [mbind option_bind] in Hb.
  destruct (vget (corner_orientation (this f)) from) as [o|] eqn:Eo; [|done].
  cbn [mbind option_bind] in Hb.
  destruct (vset (new_corner_orientation f) to _) as [nco|]; [|done].
  injection Hb as <-. split; [done|]. exists from.
  split; [done|]. split; eapply vget_range; eauto.
Qed.

Lemma edge_body_reads t amt ii f f' :
  edge_body t amt ii f = Some f' →
  this f' = this f ∧
  ∃ from, vget (edges_moved t) ii = Some from ∧
    0 ≤ from < Z.of_nat (length (edge_permutation (this f))) ∧
    0 ≤ from < Z.of_nat (length (edge_orientation (this f))).
Proof.
  unfold edge_body. intros Hb.
  destruct (vget (edges_moved t) ii) as [from|]; [|done].
  destruct amt as [amt|]; [|done]. cbn [mbind option_bind] in Hb.
  destruct (vget (edges_moved t) _) as [to|]; [|done].
  cbn [mbind option_bind] in Hb.
  destruct (vget (edge_permutation (this f)) from) as [p|] eqn:Ep; [|done].
  cbn [mbind option_bind] in Hb.
  destruct (vset (new_edge_permutation f) to p) as [nep|]; [|done].
  cbn [mbind option_bind] in Hb.
  destruct (sum_delta _ _ _ _) as [fl|]; [|done].
  cbn [mbind option_bind] in Hb.
  destruct (vget (edge_orientation (this f)) from) as [o|] eqn:Eo; [|done].
  cbn [mbind option_bind] in Hb.
  destruct (vset (new_edge_orientation f) to _) as [neo|]; [|done].
  injection Hb as <-. split; [done|]. exists from.
  split; [done|]. split; eapply vget_range; eauto.
Qed.

Lemma corner_loop_reads t amt iis f f' :
  for_loop (corner_body t amt) iis f = Some f' →
  this f' = this f ∧
  Forall (λ ii, ∃ from, vget (corners_moved t) ii = Some from ∧
            0 ≤ from < Z.of_nat (length (corner_permutation (this f))) ∧
            0 ≤ from < Z.of_nat (length (corner_orientation (this f)))) iis.
Proof.
  revert f. induction iis as [|ii iis IH]; intros f Hl.
  - injection Hl as <-. by split.
  - cbn [for_loop] in Hl.
    destruct (corner_body t amt ii f) as [f1|] eqn:Eb; [|done].
    cbn [mbind option_bind] in Hl.
    apply corner_body_reads in Eb as [Et Hr].
    destruct (IH f1 Hl) as [Et' Hall]. rewrite Et in *.
    split; [done|]. by apply Forall_cons.
Qed.

Lemma edge_loop_reads t amt iis f f' :
  for_loop (edge_body t amt) iis f = Some f' →
  this f' = this f ∧
  Forall (λ ii, ∃ from, vget (edges_moved t) ii = Some from ∧
            0 ≤ from < Z.of_nat (length (edge_permutation (this f))) ∧
            0 ≤ from < Z.of_nat (length (edge_orientation (this f)))) iis.
Proof.
  revert f. induction iis as [|ii iis IH]; intros f Hl.
  - injection Hl as <-. by split.
  - cbn [for_loop] in Hl.
    destruct (edge_body t amt ii f) as [f1|] eqn:Eb; [|done].
    cbn [mbind option_bind] in Hl.
    apply edge_body_reads in Eb as [Et Hr].
    destruct (IH f1 Hl) as [Et' Hall]. rewrite Et in *.
    split; [done|]. by apply Forall_cons.
Qed.

Lemma corner_loop_in_range c0 c1 c2 c3 d0 d1 d2 d3 em ef tn c nep neo :
  Forall (λ p, 0 ≤ p < Z.of_nat (length (corner_permutation c)) ∧
               0 ≤ p < Z.of_nat (length (corner_orientation c)))
         [c0; c1; c2; c3] →
  for_loop (corner_body (mkTables [c0; c1; c2; c3] em [d0; d1; d2; d3] ef)
                        (Some (turn_amt_of tn)))
           (seqZ 0 4)
           (mkFrame c (corner_permutation c) (corner_orientation c) nep neo)
  = Some (mkFrame c
            (cycle_perm (Z.to_nat <$> [c0; c1; c2; c3])
               (Z.to_nat (turn_amt_of tn)) (corner_permutation c))
            (cycle_orient 3 (Z.to_nat <$> [c0; c1; c2; c3]) [d0; d1; d2; d3]
               (Z.to_nat (turn_amt_of tn)) (corner_orientation c))
            nep neo).
Proof.
  rewrite !Forall_cons.
  intros ([? ?] & [? ?] & [? ?] & [? ?] & _).
  change (seqZ 0 4) with [0; 1; 2; 3].
  destruct tn; cbn [for_loop turn_amt_of].
  all: do 4 (loop_step corner_body_eq); reflexivity.
Qed.

Lemma edge_loop_in_range e0 e1 e2 e3 g0 g1 g2 g3 cm ct tn c ncp nco :
  Forall (λ p, 0 ≤ p < Z.of_nat (length (edge_permutation c)) ∧
               0 ≤ p < Z.of_nat (length (edge_orientation c)))
         [e0; e1; e2; e3] →
  for_loop (edge_body (mkTables cm [e0; e1; e2; e3] ct [g0; g1; g2; g3])
                      (Some (turn_amt_of tn)))
           (seqZ 0 4)
           (mkFrame c ncp nco (edge_permutation c) (edge_orientation c))
  = Some (mkFrame c ncp nco
            (cycle_perm (Z.to_nat <$> [e0; e1; e2; e3])
               (Z.to_nat (turn_amt_of tn)) (edge_permutation c))
            (cycle_orient 2 (Z.to_nat <$> [e0; e1; e2; e3]) [g0; g1; g2; g3]
               (Z.to_nat (turn_amt_of tn)) (edge_orientation c))).
Proof.
  rewrite !Forall_cons.
  intros ([? ?] & [? ?] & [? ?] & [? ?] & _).
  change (seqZ 0 4) with [0; 1; 2; 3].
  destruct tn; cbn [for_loop turn_amt_of].
  all: do 4 (loop_step edge_body_eq); reflexivity.
Qed.

Lemma loop_positions (l : vec) (P : Z → Prop) :
  Forall (λ ii, ∃ from, vget l ii = Some from ∧ P from)
         (seqZ 0 (Z.of_nat (length l))) →
  Forall P l.
Proof.
  intros Hall. apply Forall_lookup. intros i x Hx.
  rewrite Forall_forall in Hall.
  destruct (Hall (Z.of_nat i)) as (from & Hget & HP).
  - apply elem_of_seqZ. apply lookup_lt_Some in Hx. lia.
  - unfold vget in Hget. rewrite decide_True, Nat2Z.id, Hx in Hget by lia.
    by injection Hget as <-.
Qed.

Section Bounds.
Context `{Header} (Hok : header_ok).

(** X17.  [perform_move] checks no bounds: for each of the 18 moves the
    call stays inside the vectors of the cube exactly when the four corner
    positions of the face are inside the corner permutation and the corner
    orientation vector and its four edge positions are inside the edge
    permutation and the edge orientation vector. *)
Theorem perform_move_bounds (f : face) (tn : turn) (c : Cube) :
  is_Some (perform_move c (move_id f tn)) ↔
  Forall (λ p, p < Z.of_nat (length (corner_permutation c)) ∧
               p < Z.of_nat (length (corner_orientation c)))
         (corners_moved (face_tables f)) ∧
  Forall (λ p, p < Z.of_nat (length (edge_permutation c)) ∧
               p < Z.of_nat (length (edge_orientation c)))
         (edges_moved (face_tables f)).
Proof.
  unfold perform_move, perform_move_method.
  rewrite (move_tables_id Hok), (turn_amount_id Hok). split.
  - intros [c' Hc'].
    destruct (for_loop (corner_body _ _) _ _) as [f1|] eqn:E1; [|done].
    cbn [mbind option_bind] in Hc'.
    destruct (for_loop (edge_body _ _) _ _) as [f2|] eqn:E2; [|done].
    apply corner_loop_reads in E1 as [T1 R1].
    apply edge_loop_reads in E2 as [T2 R2].
    rewrite T1 in R2. cbn [this] in R1, R2.
    apply loop_positions in R1, R2. split.
    + eapply Forall_impl; [exact R1|]. cbv beta. lia.
    + eapply Forall_impl; [exact R2|]. cbv beta. lia.
  - intros [Hc He].
    assert (Forall (λ p, 0 ≤ p < Z.of_nat (length (corner_permutation c)) ∧
                         0 ≤ p < Z.of_nat (length (corner_orientation c)))
                   (corners_moved (face_tables f))) as Hc'.
    { pose proof (face_corners_range Hok f) as Hr.
      rewrite Forall_forall in Hc, Hr. apply Forall_forall. intros p Hp.
      specialize (Hc p Hp). specialize (Hr p Hp). lia. }
    assert (Forall (λ p, 0 ≤ p < Z.of_nat (length (edge_permutation c)) ∧
                         0 ≤ p < Z.of_nat (length (edge_orientation c)))
                   (edges_moved (face_tables f))) as He'.
    { pose proof (face_edges_range Hok f) as Hr.
      rewrite Forall_forall in He, Hr. apply Forall_forall. intros p Hp.
      specialize (He p Hp). specialize (Hr p Hp). lia. }
    clear Hc He.
    destruct f; cbn [face_tables corners_moved edges_moved length] in *;
      change (Z.of_nat 4) with 4.
    all: erewrite corner_loop_in_range by done.
    all: cbn [mbind option_bind].
    all: erewrite edge_loop_in_range by done.
    all: by eexists.
Qed.

End Bounds.

(** Witness of X17 under the reference header: the move U stays inside
    vectors of four entries, the move D does not. *)
Lemma perform_move_bounds_witness :
  is_Some (@perform_move reference_header
             (mkCube [0; 1; 2; 3] [0; 0; 0; 0] [0; 1; 2; 3] [0; 0; 0; 0]) 0) ∧
  ¬ is_Some (@perform_move reference_header
               (mkCube [0; 1; 2; 3] [0; 0; 0; 0] [0; 1; 2; 3] [0; 0; 0; 0]) 15).
Proof.
  split.
  - apply (proj2 (@perform_move_bounds reference_header reference_header_ok
                    FaceU Clockwise
                    (mkCube [0; 1; 2; 3] [0; 0; 0; 0] [0; 1; 2; 3]
                            [0; 0; 0; 0]))).
    split; repeat constructor.
  - intros Hs.
    apply (proj1 (@perform_move_bounds reference_header reference_header_ok
                    FaceD Clockwise
                    (mkCube [0; 1; 2; 3] [0; 0; 0; 0] [0; 1; 2; 3]
                            [0; 0; 0; 0]))) in Hs.
    destruct Hs as [Hs _]. apply Forall_cons in Hs as [[Hs _] _].
    revert Hs. by vm_compute.
Defined.
